(** * Linear-system solvers of [lab2/algorithm.py]

    A shallow embedding of the direct solvers (pivoted Gaussian elimination,
    Doolittle LU), the convergence analyser and the iterative solvers
    (Jacobi, Gauss-Seidel, SOR, conjugate gradient), followed by the
    properties established about them.

    Layout:
    - [Scalar]: the arithmetic the program computes with, as an interface
      with two instances, IEEE binary64 (NumPy's float64) and the exact
      rationals; [ExactField] says what "exact arithmetic" is;
    - array values and the NumPy array functions the program calls;
    - the object store and the monad [M] in which the program is embedded:
      every ndarray is an object in the store, a Python name holds its
      identity, [x[i] = v] writes into the object, [x.copy()] allocates;
    - [Linalg]: the library functions [eigvals], [inv] and [norm], taken as
      given;
    - the program, function by function, and sample systems;
    - the vocabulary of the statements, the rules for reasoning about runs
      ([returns], [keeps], [ends_with]), and the theorems, each with the
      lemmas it rests on. *)

From Stdlib Require Import ZArith QArith Qcanon Field Lia.
From Stdlib Require Import Floats.SpecFloat.
From stdpp Require Import base list gmap strings.

Open Scope nat_scope.

(** ** Scalars *)

(** The operations the program applies to numbers.  [eps] is the module
    constant [eps = 1e-6].  Python's [a > b] is [fltb b a], [a >= b] is
    [fleb b a], and [a != b] is [negb (feqb a b)]. *)
Class Scalar (F : Type) : Type := {
  f0 : F;
  f1 : F;
  fadd : F -> F -> F;
  fsub : F -> F -> F;
  fmul : F -> F -> F;
  fdiv : F -> F -> F;
  fopp : F -> F;
  feqb : F -> F -> bool;
  fltb : F -> F -> bool;
  fleb : F -> F -> bool;
  eps : F
}.

Declare Scope F_scope.
Delimit Scope F_scope with F.
Infix "+" := fadd : F_scope.
Infix "-" := fsub : F_scope.
Infix "*" := fmul : F_scope.
Infix "/" := fdiv : F_scope.
Notation "- x" := (fopp x) : F_scope.

#[global] Instance scalar_inhabited `{Scalar F} : Inhabited F := populate f0.

(** *** IEEE binary64

    NumPy's float64, through the reference implementation of binary64 in
    [SpecFloat] (53 bits of precision, exponents below 1024).  Division by
    zero raises nothing: NumPy only warns and the quotient is an infinity
    or NaN.  Neither instance is registered for resolution: the program is
    generic and an instance is named where a statement is about it. *)
Module B64.
Definition prec : Z := 53.
Definition emax : Z := 1024.
Definition of_Z (z : Z) : spec_float := binary_normalize prec emax z 0 false.
Definition zero : spec_float := S754_zero false.
Definition one : spec_float := of_Z 1.
(** The double nearest to [1e-6], [0x1.0c6f7a0b5ed8dp-20]. *)
Definition eps : spec_float := S754_finite false 4722366482869645 (-72).

Definition is_zero (x : spec_float) : bool :=
  match x with S754_zero _ => true | _ => false end.
(** [numpy.isinf(x) or numpy.isnan(x)] *)
Definition is_inf_or_nan (x : spec_float) : bool :=
  match x with S754_infinity _ | S754_nan => true | _ => false end.
End B64.

Definition binary64 : Scalar spec_float := {|
  f0 := B64.zero;
  f1 := B64.one;
  fadd := SFadd B64.prec B64.emax;
  fsub := SFsub B64.prec B64.emax;
  fmul := SFmul B64.prec B64.emax;
  fdiv := SFdiv B64.prec B64.emax;
  fopp := SFopp;
  feqb := SFeqb;
  fltb := SFltb;
  fleb := SFleb;
  eps := B64.eps
|}.

(** *** Exact rationals *)
Definition rational : Scalar Qc := {|
  f0 := 0%Qc;
  f1 := 1%Qc;
  fadd := Qcplus;
  fsub := Qcminus;
  fmul := Qcmult;
  fdiv := Qcdiv;
  fopp := Qcopp;
  feqb := fun x y => Qeq_bool x y;
  fltb := fun x y => negb (Qle_bool y x);
  fleb := fun x y => Qle_bool x y;
  eps := Q2Qc (1 # 1000000)
|}.

(** What "exact arithmetic" means: the operations form a field, the
    comparisons decide equality and a total order compatible with addition,
    and [eps] is positive. *)
Class ExactField (F : Type) `{Scalar F} : Prop := {
  exact_field : field_theory f0 f1 fadd fmul fsub fopp fdiv (fdiv f1) eq;
  feqb_eq : forall x y : F, feqb x y = true <-> x = y;
  fleb_refl : forall x : F, fleb x x = true;
  fleb_trans : forall x y z : F, fleb x y = true -> fleb y z = true -> fleb x z = true;
  fleb_total : forall x y : F, fleb x y = true \/ fleb y x = true;
  fltb_fleb : forall x y : F, fltb x y = negb (fleb y x);
  fleb_add_r : forall x y z : F, fleb x y = true -> fleb (x + z)%F (y + z)%F = true;
  eps_pos : fltb f0 eps = true
}.

(** ** Array values *)

(** The content of a 1-D array and of a 2-D array (a list of rows).
    Outside the array a read [v !!! i] yields [f0] and a write [<[i := a]> v]
    does nothing, where Python raises IndexError: a run of the embedding is a
    run of the program on arrays for which every index it uses is in range,
    that is, a matrix [A] with [len(A)] columns and vectors [b] and [x0] of
    length [len(A)]. *)
Abbreviation vec F := (list F) (only parsing).
Abbreviation matrix F := (list (list F)) (only parsing).

Section Arrays.
Context {F : Type} `{Scalar F}.

(** [len(A)] is [length A]. *)

(** [zeros(n)], [zeros((n, m))], [eye(n)] *)
Definition zeros (n : nat) : vec F := replicate n f0.
Definition zeros2 (n m : nat) : matrix F := replicate n (zeros m).
Definition eye (n : nat) : matrix F :=
  (fun i => (fun j => if Nat.eqb i j then f1 else f0) <$> seq 0 n) <$> seq 0 n.

(** [tril(A, -1)] and [triu(A, 1)]: the parts strictly below and strictly
    above the diagonal, zero elsewhere. *)
Definition tril_strict (A : matrix F) : matrix F :=
  imap (fun i row => imap (fun j a => if Nat.ltb j i then a else f0) row) A.
Definition triu_strict (A : matrix F) : matrix F :=
  imap (fun i row => imap (fun j a => if Nat.ltb i j then a else f0) row) A.

(** [A[i, j] = a] *)
Definition set_item2 (A : matrix F) (i j : nat) (a : F) : matrix F :=
  <[i := <[j := a]> (A !!! i)]> A.

(** [v[lo:hi]] and [v[lo:hi] = w] (for [w] of the slice's length) *)
Definition slice (lo hi : nat) (v : vec F) : vec F := take (hi - lo) (drop lo v).
Definition set_slice (lo hi : nat) (v w : vec F) : vec F :=
  take lo v ++ w ++ drop hi v.

(** Elementwise arithmetic on arrays of equal shape, and scalar multiples. *)
Definition vadd (u v : vec F) : vec F := zip_with fadd u v.
Definition vsub (u v : vec F) : vec F := zip_with fsub u v.
Definition vscale (a : F) (v : vec F) : vec F := fmul a <$> v.
Definition madd (A B : matrix F) : matrix F := zip_with vadd A B.
Definition msub (A B : matrix F) : matrix F := zip_with vsub A B.
Definition mscale (a : F) (A : matrix F) : matrix F := vscale a <$> A.
Definition mneg (A : matrix F) : matrix F := (fun row : vec F => fopp <$> row) <$> A.

(** [for t in l: s += f(t)], started from [s0]: the terms are added one
    by one in the order of [l]. *)
Definition accum (s0 : F) (l : list nat) (f : nat -> F) : F :=
  foldl (fun s t => s + f t)%F s0 l.
(** The sum of [f t] over [lo <= t < hi], accumulated from [0] upwards. *)
Definition sum_range (lo hi : nat) (f : nat -> F) : F :=
  accum f0 (seq lo (hi - lo)) f.
(** The sum of [f j] over [j < n], [j <> i], accumulated from [0] upwards. *)
Definition sum_except (n i : nat) (f : nat -> F) : F :=
  accum f0 (seq 0 i ++ seq (S i) (n - S i)) f.

(** [dot] on two vectors, on a matrix and a vector, on a vector and a
    matrix, and on two matrices.  NumPy leaves the order in which the
    products are added to the BLAS it is linked with; here they are added
    from the first to the last. *)
Definition dot_vv (u v : vec F) : F :=
  foldl (fun s p => s + p.1 * p.2)%F f0 (zip u v).
Definition column (A : matrix F) (j : nat) : vec F := (fun row => row !!! j) <$> A.
Definition ncols (A : matrix F) : nat := length (A !!! 0).
Definition dot_mv (A : matrix F) (v : vec F) : vec F := (fun row => dot_vv row v) <$> A.
Definition dot_vm (v : vec F) (A : matrix F) : vec F :=
  (fun j => dot_vv v (column A j)) <$> seq 0 (ncols A).
Definition dot_mm (A B : matrix F) : matrix F := (fun row => dot_vm row B) <$> A.

(** [A.T] *)
Definition transpose (A : matrix F) : matrix F := column A <$> seq 0 (ncols A).

(** [(A == B).all()] for arrays of equal shape *)
Definition all_equal (A B : matrix F) : bool :=
  forallb (fun p => forallb (fun q => feqb q.1 q.2) (zip p.1 p.2)) (zip A B).

(** [max] of an array of non-NaN reals; [x != x] recognises NaN, which
    NumPy's [max] propagates. *)
Definition fmax (m a : F) : F :=
  if negb (feqb m m) then m
  else if negb (feqb a a) then a
  else if fltb m a then a else m.
End Arrays.

(** ** The object store *)

(** Every ndarray the program handles is an object in the store; a Python
    name bound to an array holds the object's identity.  1-D and 2-D arrays
    are kept in two maps over one supply of identities.  [stdout] collects
    what [print] wrote. *)
Abbreviation vref := nat (only parsing).
Abbreviation mref := nat (only parsing).

Record state (F : Type) : Type := State {
  vecs : gmap nat (vec F);
  mats : gmap nat (matrix F);
  next : nat;
  stdout : list string
}.
Arguments State {F} _ _ _ _.
Arguments vecs {F} _.
Arguments mats {F} _.
Arguments next {F} _.
Arguments stdout {F} _.

(** The exceptions that reach the caller: [numpy.linalg.LinAlgError] (from
    [inv] and [eigvals]) and [ValueError] (the maximum of an empty array). *)
Inductive exn : Type := LinAlgError | ValueError.

(** How a call ends: it returns [x], it raises, or the [while True] loop was
    still running when the fuel ran out. *)
Inductive outcome (F X : Type) : Type :=
  | Done (x : X) (s : state F)
  | Raised (e : exn) (s : state F)
  | OutOfFuel.
Arguments Done {F X} _ _.
Arguments Raised {F X} _ _.
Arguments OutOfFuel {F X}.

Definition M (F X : Type) : Type := state F -> outcome F X.

Definition ret {F X} (x : X) : M F X := fun s => Done x s.
Definition bind {F X Y} (m : M F X) (k : X -> M F Y) : M F Y :=
  fun s => match m s with
           | Done x s' => k x s'
           | Raised e s' => Raised e s'
           | OutOfFuel => OutOfFuel
           end.
Definition raise {F X} (e : exn) : M F X := fun s => Raised e s.
Definition out_of_fuel {F X} : M F X := fun _ => OutOfFuel.

Notation "x <- m ;; k" := (bind m (fun x => k))
  (at level 100, m at next level, right associativity).
Notation "m ;; k" := (bind m (fun _ => k))
  (at level 100, right associativity).

Section Primitives.
Context {F : Type} `{Scalar F}.

(** A new array object with content [v]. *)
Definition alloc_v (v : vec F) : M F vref := fun s =>
  Done (next s) (State (<[next s := v]> (vecs s)) (mats s) (S (next s)) (stdout s)).
Definition alloc_m (A : matrix F) : M F mref := fun s =>
  Done (next s) (State (vecs s) (<[next s := A]> (mats s)) (S (next s)) (stdout s)).

(** The current content of an object, and overwriting it in place. *)
Definition load_v (r : vref) : M F (vec F) := fun s => Done (vecs s !!! r) s.
Definition load_m (r : mref) : M F (matrix F) := fun s => Done (mats s !!! r) s.
Definition store_v (r : vref) (v : vec F) : M F unit := fun s =>
  Done tt (State (<[r := v]> (vecs s)) (mats s) (next s) (stdout s)).
Definition store_m (r : mref) (A : matrix F) : M F unit := fun s =>
  Done tt (State (vecs s) (<[r := A]> (mats s)) (next s) (stdout s)).

Definition print (line : string) : M F unit := fun s =>
  Done tt (State (vecs s) (mats s) (next s) (stdout s ++ [line])).

(** [x.copy()], [x[i]], [A[i, j]], [x[i] = a], [A[i, j] = a], [len(A)] *)
Definition copy_v (r : vref) : M F vref := v <- load_v r ;; alloc_v v.
Definition copy_m (r : mref) : M F mref := A <- load_m r ;; alloc_m A.
Definition get1 (r : vref) (i : nat) : M F F := v <- load_v r ;; ret (v !!! i).
Definition get2 (r : mref) (i j : nat) : M F F := A <- load_m r ;; ret ((A !!! i) !!! j).
Definition set1 (r : vref) (i : nat) (a : F) : M F unit :=
  v <- load_v r ;; store_v r (<[i := a]> v).
Definition set2 (r : mref) (i j : nat) (a : F) : M F unit :=
  A <- load_m r ;; store_m r (set_item2 A i j a).
Definition len_m (r : mref) : M F nat := A <- load_m r ;; ret (length A).

(** [for i in l: x = body(i, x)]: a [for] loop over the indices [l] that
    carries the loop's local scalar variables in [x]. *)
Fixpoint for_each {X} (l : list nat) (body : nat -> X -> M F X) (x : X) : M F X :=
  match l with
  | [] => ret x
  | i :: l' => x' <- body i x ;; for_each l' body x'
  end.

(** [range(lo, hi)] and [range(n - 1, -1, -1)] (also [reversed(range(n))]) *)
Definition range (lo hi : nat) : list nat := seq lo (hi - lo).
Definition range_down (n : nat) : list nat := reverse (seq 0 n).

(** A [for] loop without local scalars. *)
Definition for_ (l : list nat) (body : nat -> M F unit) : M F unit :=
  for_each l (fun i _ => body i) tt.

(** [while True: x = body(x); if <test>: break], where [body] returns the
    loop's variables and the outcome of the test.  One unit of fuel is
    spent on every pass through the body. *)
Fixpoint while_true {X} (fuel : nat) (body : X -> M F (X * bool)) (x : X) : M F X :=
  match fuel with
  | 0 => out_of_fuel
  | S fuel' =>
      r <- body x ;;
      if r.2 then ret r.1 else while_true fuel' body r.1
  end.
End Primitives.

(** ** The program *)

(** What an iterative solver returns: the pair [NaN, NaN] or a pair
    [x, cnt] of the solution array and the iteration count. *)
Inductive answer : Type :=
  | Sentinel
  | Solution (x : vref) (cnt : nat).

(** The dense linear-algebra library the program relies on, taken as given:
    [linalg.eigvals] (with [abs(v)] and [v < 0] on the eigenvalues it
    returns, which are complex numbers in general), [linalg.inv], and the
    2-norm [linalg.norm] of a vector.  [eigvals] and [inv] yield [None] where
    NumPy raises [LinAlgError]. *)
Class Linalg (F : Type) : Type := {
  eigenvalue : Type;
  linalg_eigvals : matrix F -> option (list eigenvalue);
  eig_abs : eigenvalue -> F;
  eig_neg : eigenvalue -> bool;
  linalg_inv : matrix F -> option (matrix F);
  linalg_norm : vec F -> F
}.

Section Program.
Context {F : Type} `{Scalar F} `{Linalg F}.

Definition linalg {X} (r : option X) : M F X :=
  match r with
  | Some x => ret x
  | None => raise LinAlgError
  end.

(** *** [pivot_gauss] *)

(** Lines 31-33: the swap test of the pair [(i, j)].  The right-hand sides
    [A[[j, i], :]] and [b[[j, i]]] are copies taken before the assignment. *)
Definition pivot_swap (A : mref) (b : vref) (i j : nat) : M F unit :=
  aji <- get2 A j i ;;
  aii <- get2 A i i ;;
  if fltb aii aji then
    Am <- load_m A ;;
    store_m A (<[j := Am !!! i]> (<[i := Am !!! j]> Am)) ;;
    bv <- load_v b ;;
    store_v b (<[j := bv !!! i]> (<[i := bv !!! j]> bv))
  else ret tt.

(** Lines 34-37: elimination of [A[j, i]]. *)
Definition pivot_eliminate (A : mref) (b : vref) (n i j : nat) : M F unit :=
  aji <- get2 A j i ;;
  if negb (feqb aji f0) then
    aji <- get2 A j i ;;
    aii <- get2 A i i ;;
    let m := (aji / aii)%F in
    Am <- load_m A ;;
    store_m A (<[j := set_slice i n (Am !!! j)
                        (vsub (slice i n (Am !!! j)) (vscale m (slice i n (Am !!! i))))]> Am) ;;
    bj <- get1 b j ;;
    bi <- get1 b i ;;
    set1 b j (bj - m * bi)%F
  else ret tt.

(** Lines 38-39: back-substitution, from the last row to the first. *)
Definition back_substitute (A : mref) (b : vref) (n : nat) : M F unit :=
  for_ (range_down n) (fun k =>
    Am <- load_m A ;;
    bv <- load_v b ;;
    set1 b k ((bv !!! k - dot_vv (slice (k + 1) n (Am !!! k)) (slice (k + 1) n bv))
              / ((Am !!! k) !!! k))%F).

Definition pivot_gauss (A : mref) (b : vref) : M F vref :=
  A <- copy_m A ;;
  b <- copy_v b ;;
  n <- len_m A ;;
  for_ (range 0 (n - 1)) (fun i =>
    for_ (range (i + 1) n) (fun j =>
      pivot_swap A b i j ;;
      pivot_eliminate A b n i j)) ;;
  back_substitute A b n ;;
  let x := b in
  ret x.

(** *** [lu_decomposition_doolittle] *)

(** Lines 53-65: the factors [l] and [u]. *)
Definition lu_factor (A : mref) (n : nat) : M F (mref * mref) :=
  l <- alloc_m (eye n) ;;
  u <- alloc_m (zeros2 n n) ;;
  for_ (range 0 n) (fun k =>
    for_ (range k n) (fun j =>
      s <- for_each (range 0 k) (fun t s =>
             lkt <- get2 l k t ;;
             utj <- get2 u t j ;;
             ret (s + lkt * utj)%F) f0 ;;
      akj <- get2 A k j ;;
      set2 u k j (akj - s)%F) ;;
    for_ (range (k + 1) n) (fun i =>
      s <- for_each (range 0 k) (fun t s =>
             lit <- get2 l i t ;;
             utk <- get2 u t k ;;
             ret (s + lit * utk)%F) f0 ;;
      aik <- get2 A i k ;;
      ukk <- get2 u k k ;;
      set2 l i k ((aik - s) / ukk)%F)) ;;
  ret (l, u).

(** Lines 67-79: forward substitution for [y], backward for [x]. *)
Definition lu_solve (l u : mref) (b : vref) (n : nat) : M F vref :=
  y <- alloc_v (zeros n) ;;
  for_ (range 0 n) (fun i =>
    s <- for_each (range 0 i) (fun j s =>
           lij <- get2 l i j ;;
           yj <- get1 y j ;;
           ret (s + lij * yj)%F) f0 ;;
    bi <- get1 b i ;;
    set1 y i (bi - s)%F) ;;
  x <- alloc_v (zeros n) ;;
  for_ (range_down n) (fun i =>
    s <- for_each (range (i + 1) n) (fun j s =>
           uij <- get2 u i j ;;
           xj <- get1 x j ;;
           ret (s + uij * xj)%F) f0 ;;
    yi <- get1 y i ;;
    uii <- get2 u i i ;;
    set1 x i ((yi - s) / uii)%F) ;;
  ret x.

Definition lu_decomposition_doolittle (A : mref) (b : vref) : M F vref :=
  A <- copy_m A ;;
  b <- copy_v b ;;
  n <- len_m A ;;
  lu <- lu_factor A n ;;
  lu_solve lu.1 lu.2 b n.

(** *** The convergence analyser *)

(** [linalg.norm(eigenvalues, ord=inf)], that is [abs(eigenvalues).max()];
    NumPy raises [ValueError] on an empty array. *)
Definition norm_inf (eigenvalues : list eigenvalue) : M F F :=
  match eig_abs <$> eigenvalues with
  | [] => raise ValueError
  | a :: l => ret (foldl fmax a l)
  end.

Definition check_spectral_radius (B : mref) : M F bool :=
  Bm <- load_m B ;;
  eigenvalues <- linalg (linalg_eigvals Bm) ;;
  spectral_radius <- norm_inf eigenvalues ;;
  if fleb eps (spectral_radius - f1)%F || fleb (f1 - spectral_radius)%F eps then
    print "Spectral radius >= 1, not convergency" ;;
    ret false
  else ret true.

Definition check_gauss_seidel_convergency (A : mref) : M F bool :=
  n <- len_m A ;;
  D <- alloc_m (eye n) ;;
  Am <- load_m A ;;
  L <- alloc_m (tril_strict Am) ;;
  U <- alloc_m (triu_strict Am) ;;
  for_ (range 0 n) (fun i =>
    aii <- get2 A i i ;;
    set2 D i i aii) ;;
  Dm <- load_m D ;;
  Lm <- load_m L ;;
  Um <- load_m U ;;
  inverse <- linalg (linalg_inv (madd Dm Lm)) ;;
  B <- alloc_m (mneg (dot_mm inverse Um)) ;;
  check_spectral_radius B.

Definition check_jacobi_convergency (A : mref) : M F bool :=
  n <- len_m A ;;
  D <- alloc_m (eye n) ;;
  Am <- load_m A ;;
  L <- alloc_m (tril_strict Am) ;;
  U <- alloc_m (triu_strict Am) ;;
  for_ (range 0 n) (fun i =>
    aii <- get2 A i i ;;
    set2 D i i aii) ;;
  Dm <- load_m D ;;
  Lm <- load_m L ;;
  Um <- load_m U ;;
  inverse <- linalg (linalg_inv Dm) ;;
  B <- alloc_m (mneg (dot_mm inverse (madd Lm Um))) ;;
  check_spectral_radius B.

Definition check_successive_over_relaxation_convergency (A : mref) (w : F) : M F bool :=
  n <- len_m A ;;
  D <- alloc_m (eye n) ;;
  Am <- load_m A ;;
  L <- alloc_m (tril_strict Am) ;;
  U <- alloc_m (triu_strict Am) ;;
  for_ (range 0 n) (fun i =>
    aii <- get2 A i i ;;
    set2 D i i aii) ;;
  Dm <- load_m D ;;
  Lm <- load_m L ;;
  Um <- load_m U ;;
  inverse <- linalg (linalg_inv (madd Dm (mscale w Lm))) ;;
  B <- alloc_m (dot_mm inverse (msub (mscale (f1 - w)%F Dm) (mscale w Um))) ;;
  check_spectral_radius B.

(** *** The iterative solvers *)

(** Lines 131-137: one pass of the Gauss-Seidel loop up to the counter
    increment; the copy [y] of the iterate is returned for the stopping
    test. *)
Definition gauss_seidel_sweep (A : mref) (b x : vref) (n : nat) : M F vref :=
  y <- copy_v x ;;
  for_ (range 0 n) (fun i =>
    s <- for_each (range 0 n) (fun j s =>
           if negb (Nat.eqb j i) then
             aij <- get2 A i j ;;
             xj <- get1 x j ;;
             ret (s + aij * xj)%F
           else ret s) f0 ;;
    bi <- get1 b i ;;
    aii <- get2 A i i ;;
    set1 x i ((bi - s) / aii)%F) ;;
  ret y.

Definition gauss_seidel (fuel : nat) (A : mref) (b x0 : vref) : M F answer :=
  A <- copy_m A ;;
  b <- copy_v b ;;
  ok <- check_gauss_seidel_convergency A ;;
  if negb ok then ret Sentinel
  else
    n <- len_m A ;;
    x <- copy_v x0 ;;
    let cnt := 0 in
    cnt <- while_true fuel (fun cnt =>
             y <- gauss_seidel_sweep A b x n ;;
             let cnt := cnt + 1 in
             xv <- load_v x ;;
             yv <- load_v y ;;
             ret (cnt, fleb (linalg_norm (vsub xv yv)) eps)) cnt ;;
    ret (Solution x cnt).

(** Lines 178-184: one pass of the Jacobi loop up to the counter increment. *)
Definition jacobi_sweep (A : mref) (b x : vref) (n : nat) : M F vref :=
  y <- copy_v x ;;
  for_ (range 0 n) (fun i =>
    s <- for_each (range 0 n) (fun j s =>
           if negb (Nat.eqb j i) then
             aij <- get2 A i j ;;
             yj <- get1 y j ;;
             ret (s + aij * yj)%F
           else ret s) f0 ;;
    bi <- get1 b i ;;
    aii <- get2 A i i ;;
    set1 x i ((bi - s) / aii)%F) ;;
  ret y.

Definition jacobi (fuel : nat) (A : mref) (b x0 : vref) : M F answer :=
  A <- copy_m A ;;
  b <- copy_v b ;;
  ok <- check_jacobi_convergency A ;;
  if negb ok then ret Sentinel
  else
    n <- len_m A ;;
    x <- copy_v x0 ;;
    let cnt := 0 in
    cnt <- while_true fuel (fun cnt =>
             y <- jacobi_sweep A b x n ;;
             let cnt := cnt + 1 in
             xv <- load_v x ;;
             yv <- load_v y ;;
             ret (cnt, fleb (linalg_norm (vsub xv yv)) eps)) cnt ;;
    ret (Solution x cnt).

(** Lines 228-234: one pass of the SOR loop up to the counter increment. *)
Definition sor_sweep (A : mref) (b : vref) (w : F) (x : vref) (n : nat) : M F vref :=
  y <- copy_v x ;;
  for_ (range 0 n) (fun i =>
    s <- for_each (range 0 n) (fun j s =>
           if negb (Nat.eqb j i) then
             aij <- get2 A i j ;;
             xj <- get1 x j ;;
             ret (s + aij * xj)%F
           else ret s) f0 ;;
    xi <- get1 x i ;;
    bi <- get1 b i ;;
    aii <- get2 A i i ;;
    set1 x i ((f1 - w) * xi + w * (bi - s) / aii)%F) ;;
  ret y.

Definition successive_over_relaxation (fuel : nat) (A : mref) (b : vref) (w : F)
    (x0 : vref) : M F answer :=
  A <- copy_m A ;;
  b <- copy_v b ;;
  ok <- check_successive_over_relaxation_convergency A w ;;
  if negb ok then ret Sentinel
  else
    n <- len_m A ;;
    x <- copy_v x0 ;;
    let cnt := 0 in
    cnt <- while_true fuel (fun cnt =>
             y <- sor_sweep A b w x n ;;
             let cnt := cnt + 1 in
             xv <- load_v x ;;
             yv <- load_v y ;;
             ret (cnt, fleb (linalg_norm (vsub xv yv)) eps)) cnt ;;
    ret (Solution x cnt).

(** *** Conjugate gradient *)

Definition check_symmetric_and_positive_definite_matrix (A : mref) : M F bool :=
  Am <- load_m A ;;
  if negb (all_equal (transpose Am) Am) then
    print "A must be symmetric and positive definite matrix" ;;
    ret false
  else
    Am <- load_m A ;;
    values <- linalg (linalg_eigvals Am) ;;
    if existsb eig_neg values then
      print "A must be symmetric and positive definite matrix" ;;
      ret false
    else ret true.

(** Lines 278-284: one pass of the conjugate-gradient loop up to the
    counter increment.  No array is written in place: [x], [r] and [p] are
    bound to new arrays, [y] and [old_r] to the previous ones. *)
Definition cg_sweep (A : mref) (xrp : vref * vref * vref)
    : M F (vref * vref * vref * vref) :=
  let '(x, r, p) := xrp in
  let y := x in
  rv <- load_v r ;;
  pv <- load_v p ;;
  Am <- load_m A ;;
  let alpha := (dot_vv rv rv / dot_vv (dot_vm pv Am) pv)%F in
  xv <- load_v x ;;
  x <- alloc_v (vadd xv (vscale alpha pv)) ;;
  let old_r := r in
  r <- alloc_v (vsub rv (dot_mv (mscale alpha Am) pv)) ;;
  rv <- load_v r ;;
  old_rv <- load_v old_r ;;
  let beta := (dot_vv rv rv / dot_vv old_rv old_rv)%F in
  p <- alloc_v (vadd rv (vscale beta pv)) ;;
  ret (x, r, p, y).

Definition conjugate_gradient (fuel : nat) (A : mref) (b x0 : vref) : M F answer :=
  A <- copy_m A ;;
  b <- copy_v b ;;
  ok <- check_symmetric_and_positive_definite_matrix A ;;
  if negb ok then ret Sentinel
  else
    n <- len_m A ;;
    x <- copy_v x0 ;;
    bv <- load_v b ;;
    Am <- load_m A ;;
    xv <- load_v x ;;
    r <- alloc_v (vsub bv (dot_mv Am xv)) ;;
    let p := r in
    let cnt := 1 in
    st <- while_true fuel (fun '(x, r, p, cnt) =>
            xrpy <- cg_sweep A (x, r, p) ;;
            let '(x, r, p, y) := xrpy in
            let cnt := cnt + 1 in
            xv <- load_v x ;;
            yv <- load_v y ;;
            ret ((x, r, p, cnt), fleb (linalg_norm (vsub xv yv)) eps)) (x, r, p, cnt) ;;
    let '(x, _, _, cnt) := st in
    ret (Solution x cnt).
End Program.

(** *** [get_equation_set_2] *)

(** [float(k)] for a Python [int] [k >= 0].  The quotient [1 / (i + j + 1)]
    of two [int]s is the quotient [1.0 / float(i + j + 1)] of their
    conversions as long as [i + j + 1] is below [2^53]. *)
Class OfInt (F : Type) : Type := of_int : nat -> F.

Definition binary64_of_int : OfInt spec_float := fun k => B64.of_Z (Z.of_nat k).
Definition rational_of_int : OfInt Qc := fun k => Q2Qc (inject_Z (Z.of_nat k)).

Section Generator.
Context {F : Type} `{Scalar F} `{OfInt F}.

Definition get_equation_set_2 (n : nat) : M F (mref * vref) :=
  A <- alloc_m (eye n) ;;
  b <- alloc_v (zeros n) ;;
  for_ (range 0 n) (fun i =>
    for_ (range 0 n) (fun j =>
      set2 A i j (f1 / of_int (i + j + 1))%F ;;
      bi <- get1 b i ;;
      aij <- get2 A i j ;;
      set1 b i (bi + aij)%F)) ;;
  ret (A, b).
End Generator.

(** ** Sample systems *)

(** The caller's store at a call [solver(A, b, x0)]: [A] is object 0, [b]
    object 1 and [x0] object 2. *)
Definition caller_store {F} (A : matrix F) (b x0 : vec F) : state F :=
  State {[1 := b; 2 := x0]} {[0 := A]} 3 [].

Module Sample.
(** Rational entries. *)
Definition q (z : Z) : Qc := Q2Qc (inject_Z z).
Definition half : Qc := Q2Qc (1 # 2).
Definition qabs (x : Qc) : Qc := if Qle_bool 0 x then x else (- x)%Qc.

(** The contents of the vectors of a store, as fractions. *)
Definition fractions (v : vec Qc) : list Q := this <$> v.

(** The linear-algebra library on the sample matrices, in exact
    arithmetic: the eigenvalues of a 1 by 1 matrix, of a 2 by 2 matrix
    [[a, b], [b, a]] (they are [a + b] and [a - b]) and of a triangular
    2 by 2 matrix (its diagonal); the inverse of a matrix with at most two
    rows, [None] when it is singular; the 2-norm of a vector with at most
    one nonzero component, which is the sum of its absolute values. *)
Definition eigvals (A : matrix Qc) : option (list Qc) :=
  match A with
  | [[a]] => Some [a]
  | [[a; b]; [c; d]] =>
      if Qeq_bool b c && Qeq_bool a d then Some [(a + b)%Qc; (a - b)%Qc]
      else if Qeq_bool b 0 || Qeq_bool c 0 then Some [a; d]
      else None
  | _ => None
  end.

Definition inv (A : matrix Qc) : option (matrix Qc) :=
  match A with
  | [[a]] => if Qeq_bool a 0 then None else Some [[(1 / a)%Qc]]
  | [[a; b]; [c; d]] =>
      let det := (a * d - b * c)%Qc in
      if Qeq_bool det 0 then None
      else Some [[(d / det)%Qc; (- b / det)%Qc]; [(- c / det)%Qc; (a / det)%Qc]]
  | _ => None
  end.

Definition norm (v : vec Qc) : Qc := foldl (fun s x => (s + qabs x)%Qc) 0%Qc v.

Definition library : Linalg Qc := {|
  eigenvalue := Qc;
  linalg_eigvals := eigvals;
  eig_abs := qabs;
  eig_neg := fun v => negb (Qle_bool 0 v);
  linalg_inv := inv;
  linalg_norm := norm
|}.

(** [A = [[2, 1], [1, 2]]], [b = [3, 3]], [x0 = [0, 0]]: symmetric, with
    eigenvalues 3 and 1; the Jacobi iteration matrix has radius 1/2. *)
Definition dominant : state Qc :=
  caller_store [[q 2; q 1]; [q 1; q 2]] [q 3; q 3] [q 0; q 0].

(** [A = [[1, 2], [2, 1]]]: the Jacobi iteration matrix has radius 2. *)
Definition divergent : state Qc :=
  caller_store [[q 1; q 2]; [q 2; q 1]] [q 3; q 3] [q 0; q 0].

(** [A = [[2, 1], [4, 5]]]: rows 0 and 1 are swapped by [pivot_gauss]. *)
Definition unordered : state Qc :=
  caller_store [[q 2; q 1]; [q 4; q 5]] [q 3; q 9] [q 0; q 0].

(** [A = [[1, 1], [-2, 1]]]: [-2] has the larger magnitude but is not
    greater than [1]. *)
Definition negative : state Qc :=
  caller_store [[q 1; q 1]; [q (-2); q 1]] [q 2; q (-1)] [q 0; q 0].

(** [A = [[1]]], [b = [1]], [x0 = [1]]: the fixed point already. *)
Definition solved : state Qc := caller_store [[q 1]] [q 1] [q 1].

(** An iteration matrix [[1/2]]. *)
Definition contraction : state Qc := caller_store [[half]] [] [].

(** In binary64: [A = [[0.0]]], [b = [1.0]]. *)
Definition zero_pivot : state spec_float :=
  caller_store [[B64.zero]] [B64.one] [B64.zero].

(** In binary64: [A = [[4, 1], [1, 3]]], [b = [1, 2]], [x0 = [2, 1]]. *)
Definition definite : state spec_float :=
  caller_store [[B64.of_Z 4; B64.of_Z 1]; [B64.of_Z 1; B64.of_Z 3]]
    [B64.of_Z 1; B64.of_Z 2] [B64.of_Z 2; B64.of_Z 1].

(** The library in binary64, as far as the samples need it: the
    eigenvalue of a 1 by 1 matrix, the eigenvalues
    [(a + d)/2 +- sqrt(((a - d)/2)^2 + b*c)] of a 2 by 2 matrix
    [[a, b], [c, d]] and the 2-norm [sqrt(dot(v, v))]; no inverses. *)
Definition library64 : Linalg spec_float :=
  let add := SFadd B64.prec B64.emax in
  let sub := SFsub B64.prec B64.emax in
  let mul := SFmul B64.prec B64.emax in
  let div := SFdiv B64.prec B64.emax in
  let sqrt := SFsqrt B64.prec B64.emax in
  {| eigenvalue := spec_float;
     linalg_eigvals := fun A =>
       match A with
       | [[a]] => Some [a]
       | [[a; b]; [c; d]] =>
           let mean := div (add a d) (B64.of_Z 2) in
           let half_gap := div (sub a d) (B64.of_Z 2) in
           let root := sqrt (add (mul half_gap half_gap) (mul b c)) in
           Some [add mean root; sub mean root]
       | _ => None
       end;
     eig_abs := SFabs;
     eig_neg := fun v => SFltb v B64.zero;
     linalg_inv := fun _ => None;
     linalg_norm := fun v => sqrt (dot_vv (H := binary64) v v) |}.
End Sample.

(** More sample systems, all over the rationals with [Sample.library]. *)
Module Cases.
Import Sample.

(** [A = [[2, 1], [1, 2]]], [b = [3, 3]] and [x0 = [1, 1]], the solution. *)
Definition at_solution : state Qc :=
  caller_store [[q 2; q 1]; [q 1; q 2]] [q 3; q 3] [q 1; q 1].

(** [A = [[0, 1], [1, 0]]]: the diagonal part [D] is singular, [inv]
    raises. *)
Definition zero_diagonal : state Qc :=
  caller_store [[q 0; q 1]; [q 1; q 0]] [q 1; q 1] [q 0; q 0].

(** In binary64, with [Sample.library64]: [A = [[4, 1], [1, 3]]], [b = 0] and
    [x0 = 0], which solves the system. *)
Definition homogeneous : state spec_float :=
  caller_store [[B64.of_Z 4; B64.of_Z 1]; [B64.of_Z 1; B64.of_Z 3]]
    [B64.zero; B64.zero] [B64.zero; B64.zero].
End Cases.

(** ** The vocabulary of the statements *)

Abbreviation entry A i j := ((A !!! i) !!! j) (only parsing).

Section Vocabulary.
Context {F : Type} `{Scalar F} `{Linalg F}.

(** [returns m s Q]: started in [s], [m] returns (it neither raises nor
    runs out of fuel) and its value and final store satisfy [Q]. *)
Definition returns {X} (m : M F X) (s : state F) (Q : X -> state F -> Prop) : Prop :=
  match m s with
  | Done x s' => Q x s'
  | _ => False
  end.

(** [ends_with m s v]: started in [s], [m] returns the value [x] when
    [v = inr x] and raises [e] when [v = inl e]. *)
Definition ends_with {X} (m : M F X) (s : state F) (v : exn + X) : Prop :=
  match m s with
  | Done x _ => v = inr x
  | Raised e _ => v = inl e
  | OutOfFuel => False
  end.

(** [unchanged s s']: every array object that existed in [s] (its
    identity is below [next s]) has in [s'] the content it had in [s]. *)
Definition unchanged (s s' : state F) : Prop :=
  next s <= next s' /\
  forall r, r < next s -> vecs s' !! r = vecs s !! r /\ mats s' !! r = mats s !! r.

(** How a call that started in [s] ended, as far as the caller's arrays
    are concerned: if it came back, by [return] or by an exception, every
    array that existed in [s] is unchanged. *)
Definition leaves_unchanged {X} (s : state F) (o : outcome F X) : Prop :=
  match o with
  | Done _ s' | Raised _ s' => unchanged s s'
  | OutOfFuel => True
  end.

(** [keeps s0 m P]: run from any store in which the objects of [s0] are
    unchanged, [m] leaves them unchanged, whether it returns or raises, and
    a returned value satisfies [P]. *)
Definition keeps (s0 : state F) {X} (m : M F X) (P : X -> Prop) : Prop :=
  forall s, unchanged s0 s ->
    match m s with
    | Done x s' => unchanged s0 s' /\ P x
    | Raised _ s' => unchanged s0 s'
    | OutOfFuel => True
    end.

(** An object allocated by the call itself. *)
Definition private (s0 : state F) (r : nat) : Prop := next s0 <= r.

(** [swapped i j l l']: [l'] is [l] with the entries [i] and [j] exchanged. *)
Definition swapped {X} (i j : nat) (l l' : list X) : Prop :=
  l' !! i = l !! j /\ l' !! j = l !! i /\
  forall k, k <> i -> k <> j -> l' !! k = l !! k.

(** [A] is an [n] by [n] array. *)
Definition square (n : nat) (A : matrix F) : Prop :=
  length A = n /\ forall i, i < n -> length (A !!! i) = n.

(** The arrays named [A] and [b] form an [n] by [n] system: the shapes for
    which no index of a solver leaves its array. *)
Definition linear_system (s : state F) (A : mref) (b : vref) (n : nat) : Prop :=
  square n (mats s !!! A) /\ length (vecs s !!! b) = n.

(** [A[j, i] == A[i, j]] for all [i] and [j]. *)
Definition symmetric (n : nat) (A : matrix F) : Prop :=
  forall i j, i < n -> j < n -> feqb (entry A j i) (entry A i j) = true.

(** The state of the factors while the loops of [lu_factor] run: [k]
    passes of the outer loop are complete, and in pass [k] the entries
    [u[k, j]] for [k <= j < ju] and [l[i, k]] for [k < i < il] have been
    written.  Written entries satisfy the recurrence of the source, all
    others are as [eye] and [zeros] left them. *)
Definition lu_partial (n : nat) (A : matrix F) (k ju il : nat) (L U : matrix F) : Prop :=
  square n L /\ square n U /\
  (forall r j, (r < k /\ r <= j < n) \/ (r = k /\ k <= j < ju) ->
     entry U r j = (entry A r j - sum_range 0 r (fun t => entry L r t * entry U t j))%F) /\
  (forall r j, r < n -> j < n -> j < r \/ k < r \/ (r = k /\ ju <= j) ->
     entry U r j = f0) /\
  (forall i c, (c < k /\ c < i < n) \/ (c = k /\ k < i < il) ->
     entry L i c = ((entry A i c - sum_range 0 c (fun t => entry L i t * entry U t c))
                    / entry U c c)%F) /\
  (forall i c, i < n -> c < n -> i <= c \/ k < c \/ (c = k /\ il <= i) ->
     entry L i c = if Nat.eqb i c then f1 else f0).

(** The part of the store that [lu_factor], started in [s], leaves alone:
    the vectors, the output and every matrix that existed in [s]; two
    objects have been allocated. *)
Definition lu_frame (s s' : state F) : Prop :=
  vecs s' = vecs s /\ next s' = S (S (next s)) /\ stdout s' = stdout s /\
  forall r, r < next s -> mats s' !! r = mats s !! r.

(** What it means that a call returned [x, cnt] after exactly [k] passes
    of its [while True] loop: it returns the same with [k] units of fuel
    and is still running with fewer. *)
Definition after_passes (solver : nat -> M F answer) (s : state F)
    (x : vref) (cnt : nat) (s' : state F) (k : nat) : Prop :=
  solver k s = Done (Solution x cnt) s' /\
  forall f, f < k -> solver f s = OutOfFuel.

(** What the analyser computes from the content of its argument: the
    verdict on an iteration matrix, the diagonal part of [A], and the
    iteration matrix of each method. *)
Definition verdict (B : matrix F) : exn + bool :=
  match linalg_eigvals B with
  | None => inl LinAlgError
  | Some eigenvalues =>
      match eig_abs <$> eigenvalues with
      | [] => inl ValueError
      | a :: l =>
          let spectral_radius := foldl fmax a l in
          inr (negb (fleb eps (spectral_radius - f1)%F
                     || fleb (f1 - spectral_radius)%F eps))
      end
  end.

(** The verdict when the iteration matrix itself needed an inverse. *)
Definition verdict_on (B : option (matrix F)) : exn + bool :=
  match B with
  | None => inl LinAlgError
  | Some B => verdict B
  end.

(** [D] after [D = eye(n)] and [D[i, i] = A[i, i]] for every [i]. *)
Definition diagonal_part (A : matrix F) : matrix F :=
  foldl (fun D i => set_item2 D i i (entry A i i)) (eye (length A)) (seq 0 (length A)).

(** [-inv(D) (L + U)], [-inv(D + L) U] and
    [inv(D + w L) ((1 - w) D - w U)]. *)
Definition jacobi_matrix (A : matrix F) : option (matrix F) :=
  inverse ← linalg_inv (diagonal_part A);
  Some (mneg (dot_mm inverse (madd (tril_strict A) (triu_strict A)))).

Definition gauss_seidel_matrix (A : matrix F) : option (matrix F) :=
  inverse ← linalg_inv (madd (diagonal_part A) (tril_strict A));
  Some (mneg (dot_mm inverse (triu_strict A))).

Definition sor_matrix (w : F) (A : matrix F) : option (matrix F) :=
  inverse ← linalg_inv (madd (diagonal_part A) (mscale w (tril_strict A)));
  Some (dot_mm inverse (msub (mscale (f1 - w)%F (diagonal_part A))
                             (mscale w (triu_strict A)))).

(** The store in which a solver, called in [s], runs its check: the private
    copies of [A] and [b] have been allocated. *)
Definition entered (A : mref) (b : vref) (s : state F) : state F :=
  State (<[S (next s) := vecs s !!! b]> (vecs s)) (<[next s := mats s !!! A]> (mats s))
    (S (S (next s))) (stdout s).

(** What [check_symmetric_and_positive_definite_matrix] prints. *)
Definition diagnostic : string := "A must be symmetric and positive definite matrix".
End Vocabulary.

(** ** More vocabulary *)

Section Systems.
Context {F : Type} `{Scalar F} `{OfInt F}.

(** The entry [get_equation_set_2] writes into [A[i, j]]. *)
Definition hilbert (i j : nat) : F := (f1 / of_int (i + j + 1))%F.

(** The arrays of [get_equation_set_2] when the rows before [i] are
    complete and row [i] is written up to column [j]. *)
Definition hilbert_partial (n i j : nat) (Am : matrix F) (bv : vec F) : Prop :=
  square n Am /\ length bv = n /\
  (forall r c, r < n -> c < n -> r < i \/ (r = i /\ c < j) -> entry Am r c = hilbert r c) /\
  (forall r, r < i -> bv !!! r = sum_range 0 n (hilbert r)) /\
  (i < n -> bv !!! i = sum_range 0 j (hilbert i)) /\
  (forall r, i < r < n -> bv !!! r = f0).
End Systems.

Section Passes.
Context {F : Type} `{Scalar F} `{Linalg F}.

(** The store after a pass of a stationary solver that started in [s]: the
    copy [y] of the iterate is the new object [next s], the iterate [x]
    holds [xn], and nothing else has changed. *)
Definition swept (s : state F) (x : vref) (xn : vec F) (s' : state F) : Prop :=
  mats s' = mats s /\ next s' = S (next s) /\ stdout s' = stdout s /\
  vecs s' !!! x = xn /\ vecs s' !!! next s = vecs s !!! x /\
  forall r, r <> x -> r <> next s -> vecs s' !! r = vecs s !! r.

(** The value a pass writes into [x[i]], where the sum reads [rest j] for
    [x[j]], [j <> i]; for SOR, [xi] is the component it replaces. *)
Definition jacobi_value (n : nat) (A : matrix F) (b : vec F) (rest : nat -> F) (i : nat) : F :=
  ((b !!! i - sum_except n i (fun j => entry A i j * rest j)) / entry A i i)%F.

Definition sor_value (n : nat) (A : matrix F) (b : vec F) (w : F) (rest : nat -> F)
    (xi : F) (i : nat) : F :=
  ((f1 - w) * xi
   + w * (b !!! i - sum_except n i (fun j => entry A i j * rest j)) / entry A i i)%F.

(** The iterate as the update of component [i] finds it in a pass that
    writes in place: the components before [i] are new, the others old. *)
Definition mixed (i : nat) (xn xo : vec F) (j : nat) : F :=
  if Nat.ltb j i then xn !!! j else xo !!! j.

(** How one pass of each method takes the iterate [xo] to [xn]. *)
Definition jacobi_step (n : nat) (A : matrix F) (b xo xn : vec F) : Prop :=
  forall i, i < n -> xn !!! i = jacobi_value n A b (fun j => xo !!! j) i.
Definition gauss_seidel_step (n : nat) (A : matrix F) (b xo xn : vec F) : Prop :=
  forall i, i < n -> xn !!! i = jacobi_value n A b (mixed i xn xo) i.
Definition sor_step (w : F) (n : nat) (A : matrix F) (b xo xn : vec F) : Prop :=
  forall i, i < n -> xn !!! i = sor_value n A b w (mixed i xn xo) (xo !!! i) i.

(** The state of a pass after the components before [i] are written. *)
Definition sweeping (s : state F) (x : vref) (n i : nat) (new : vec F -> nat -> F)
    (s' : state F) : Prop :=
  let xv := vecs s !!! x in
  let xc := vecs s' !!! x in
  swept s x xc s' /\ length xc = length xv /\
  (forall i', i' < i -> xc !!! i' = new xc i') /\
  (forall i', i <= i' -> xc !!! i' = xv !!! i').

(** What a pass function guarantees: it returns the copy [y] it allocates,
    leaves the store [swept], and the new iterate is related to the old
    one by [R]. *)
Definition sweep_spec (sweep : mref -> vref -> vref -> nat -> M F vref)
    (R : nat -> matrix F -> vec F -> vec F -> vec F -> Prop) : Prop :=
  forall A b x n (s : state F),
    x < next s -> b < next s -> x <> b -> n <= length (vecs s !!! x) ->
    returns (sweep A b x n) s (fun y s' =>
      y = next s /\ swept s x (vecs s' !!! x) s' /\
      length (vecs s' !!! x) = length (vecs s !!! x) /\
      R n (mats s !!! A) (vecs s !!! b) (vecs s !!! x) (vecs s' !!! x)).

(** The shape the three stationary solvers share: the check on the private
    copy of [A], then passes until two successive iterates are within
    [eps]. *)
Definition stationary (check : mref -> M F bool)
    (sweep : mref -> vref -> vref -> nat -> M F vref)
    (fuel : nat) (A : mref) (b x0 : vref) : M F answer :=
  A <- copy_m A ;;
  b <- copy_v b ;;
  ok <- check A ;;
  if negb ok then ret Sentinel
  else
    n <- len_m A ;;
    x <- copy_v x0 ;;
    let cnt := 0 in
    cnt <- while_true fuel (fun cnt =>
             y <- sweep A b x n ;;
             let cnt := cnt + 1 in
             xv <- load_v x ;;
             yv <- load_v y ;;
             ret (cnt, fleb (linalg_norm (vsub xv yv)) eps)) cnt ;;
    ret (Solution x cnt).

(** One pass and the stopping test, as the loop body has them. *)
Definition pass (sweep : mref -> vref -> vref -> nat -> M F vref)
    (A : mref) (b x : vref) (n : nat) (cnt : nat) : M F (nat * bool) :=
  y <- sweep A b x n ;;
  let cnt := cnt + 1 in
  xv <- load_v x ;;
  yv <- load_v y ;;
  ret (cnt, fleb (linalg_norm (vsub xv yv)) eps).

(** The store the loop of a stationary solver starts in, when the check
    left [s1]: the iterate is the new object [next s1]. *)
Definition started (x0 : vref) (s1 : state F) : state F :=
  State (<[next s1 := vecs s1 !!! x0]> (vecs s1)) (mats s1) (S (next s1)) (stdout s1).

(** While a stationary solver called in [s] iterates: its copies of [A]
    and [b] are as the caller's were, and the iterate [x] is an object of
    its own with [n] components. *)
Definition iterating (s : state F) (A : mref) (b : vref) (n : nat) (x : vref)
    (sk : state F) : Prop :=
  mats sk !!! next s = mats s !!! A /\ vecs sk !!! S (next s) = vecs s !!! b /\
  S (next s) < x < next sk /\ length (vecs sk !!! x) = n.
End Passes.

Section Triangular.
Context {F : Type} `{Scalar F}.

(** [y] after the forward pass has written the components before [i]. *)
Definition forward (L : matrix F) (b y : vec F) (i : nat) : Prop :=
  forall k, k < i ->
    y !!! k = (b !!! k - sum_range 0 k (fun j => entry L k j * y !!! j))%F.

(** [x] after the backward pass has written the components from [i] on. *)
Definition backward (n : nat) (U : matrix F) (y x : vec F) (i : nat) : Prop :=
  forall k, i <= k < n ->
    x !!! k = ((y !!! k - sum_range (S k) n (fun j => entry U k j * x !!! j))
               / entry U k k)%F.

(** Row [r] of the system [M x = v]. *)
Definition row_holds (n : nat) (M : matrix F) (v x : vec F) (r : nat) : Prop :=
  sum_range 0 n (fun c => entry M r c * x !!! c)%F = v !!! r.

(** The entries below the diagonal that elimination has reached when it is
    about to treat the pair [(i, j)]: the columns before [i], and in column
    [i] the rows before [j]. *)
Definition reached (i j r c : nat) : Prop := c < i \/ (c = i /\ r < j).

Definition eliminated_below (n i j : nat) (M : matrix F) : Prop :=
  forall r c, c < r < n -> reached i j r c -> entry M r c = f0.

(** [l[[i, j]] = l[[j, i]]] *)
Definition swap_rows {X} `{Inhabited X} (i j : nat) (l : list X) : list X :=
  <[j := l !!! i]> (<[i := l !!! j]> l).

(** [row_j[i:n] = row_j[i:n] - m * row_i[i:n]] *)
Definition reduce_row (n i : nat) (m : F) (row_j row_i : vec F) : vec F :=
  set_slice i n row_j (vsub (slice i n row_j) (vscale m (slice i n row_i))).

(** Every solution of [M x = v] solves [A x = b]. *)
Definition refines (n : nat) (A : matrix F) (b : vec F) (M : matrix F) (v : vec F) : Prop :=
  forall x, length x = n ->
    (forall r, r < n -> row_holds n M v x r) -> forall r, r < n -> row_holds n A b x r.

(** What the elimination keeps: the shapes, and, as long as every entry it
    has reached is zero, that the working system refines the given one. *)
Definition eliminating (n : nat) (A : matrix F) (b : vec F) (i j : nat)
    (M : matrix F) (v : vec F) : Prop :=
  square n M /\ length v = n /\ (eliminated_below n i j M -> refines n A b M v).
End Triangular.

Section ConjugateGradientVocabulary.
Context {F : Type} `{Scalar F} `{Linalg F}.

(** What one pass of conjugate gradient computes from the contents of
    [A], [x], [r] and [p]: the step length, and the new [x], [r] and [p]. *)
Definition cg_alpha (Am : matrix F) (rv pv : vec F) : F :=
  (dot_vv rv rv / dot_vv (dot_vm pv Am) pv)%F.
Definition cg_x (Am : matrix F) (xv rv pv : vec F) : vec F :=
  vadd xv (vscale (cg_alpha Am rv pv) pv).
Definition cg_r (Am : matrix F) (rv pv : vec F) : vec F :=
  vsub rv (dot_mv (mscale (cg_alpha Am rv pv) Am) pv).
Definition cg_p (Am : matrix F) (rv pv : vec F) : vec F :=
  let rn := cg_r Am rv pv in
  vadd rn (vscale (dot_vv rn rn / dot_vv rv rv)%F pv).

(** The store after a pass that started in [s]: three new arrays. *)
Definition cg_swept (s : state F) (xn rn pn : vec F) : state F :=
  State (<[S (S (next s)) := pn]> (<[S (next s) := rn]> (<[next s := xn]> (vecs s))))
    (mats s) (S (S (S (next s)))) (stdout s).

(** One pass and the stopping test, as the loop body has them. *)
Definition cg_pass (A : mref) (st : vref * vref * vref * nat)
    : M F ((vref * vref * vref * nat) * bool) :=
  let '(x, r, p, cnt) := st in
  xrpy <- cg_sweep A (x, r, p) ;;
  let '(x, r, p, y) := xrpy in
  let cnt := cnt + 1 in
  xv <- load_v x ;;
  yv <- load_v y ;;
  ret ((x, r, p, cnt), fleb (linalg_norm (vsub xv yv)) eps).

(** The store in which the loop of [conjugate_gradient] starts, when the
    check left [s1]: the copy of [x0] and the first residual are new. *)
Definition cg_started (A : mref) (b x0 : vref) (s1 : state F) : state F :=
  let xv := vecs s1 !!! x0 in
  State (<[S (next s1) := vsub (vecs s1 !!! b) (dot_mv (mats s1 !!! A) xv)]>
           (<[next s1 := xv]> (vecs s1)))
    (mats s1) (S (S (next s1))) (stdout s1).
End ConjugateGradientVocabulary.

(** [x == 0 or numpy.isnan(x)] *)
Definition zero_or_nan (x : spec_float) : bool :=
  match x with S754_zero _ | S754_nan => true | _ => false end.

(** The loop variables of a call that does not come back: the step [p] is
    zero, or the iterate is NaN throughout. *)
Definition stuck (n : nat) (A : mref) (Am : matrix spec_float)
    (st : vref * vref * vref * nat) (s : state spec_float) : Prop :=
  let '(x, r, p, _) := st in
  x < next s /\ r < next s /\ p < next s /\ mats s !!! A = Am /\
  length (vecs s !!! x) = n /\ length (vecs s !!! r) = n /\ length (vecs s !!! p) = n /\
  ((forallb B64.is_zero (vecs s !!! r) = true /\ forallb B64.is_zero (vecs s !!! p) = true)
   \/ vecs s !!! x = replicate n S754_nan).

Section Output.
Context {F : Type} `{Scalar F}.

(** What a call that started in [s] and ended as [o] has printed: the lines
    [out x] when it returned [x], nothing when it raised. *)
Definition printed (s : state F) {X} (o : outcome F X) (out : X -> list string) : Prop :=
  match o with
  | Done x s' => stdout s' = stdout s ++ out x
  | Raised _ s' => stdout s' = stdout s
  | OutOfFuel => True
  end.

(** [prints m out]: whatever the store, [m] prints [out x] when it returns
    [x] and nothing when it raises; [silent m]: it never prints. *)
Definition prints {X} (m : M F X) (out : X -> list string) : Prop :=
  forall s, printed s (m s) out.
Definition silent {X} (m : M F X) : Prop := prints m (fun _ => []).

(** The line a check prints with the verdict [ok], and the lines a solver
    has printed when it returns [ans]. *)
Definition with_verdict (line : string) (ok : bool) : list string :=
  if ok then [] else [line].
Definition with_answer (line : string) (ans : answer) : list string :=
  match ans with Sentinel => [line] | Solution _ _ => [] end.

(** What [check_spectral_radius] prints when it rejects. *)
Definition not_convergent : string := "Spectral radius >= 1, not convergency".
End Output.

Section Results.
Context {F : Type} `{Scalar F}.

(** The array an iterative solver returns, if it returns one, was
    allocated by the call. *)
Definition private_answer (s : state F) (ans : answer) : Prop :=
  match ans with Sentinel => True | Solution x _ => private s x end.
End Results.

(** ** Reasoning about runs *)

Section Logic.
Context {F : Type} `{Scalar F}.

Lemma returns_done {X} (m : M F X) s Q :
  returns m s Q <-> exists x s', m s = Done x s' /\ Q x s'.
Proof.
  unfold returns. split.
  - destruct (m s) as [x s'| |]; [eauto | tauto | tauto].
  - intros (x & s' & -> & HQ). exact HQ.
Qed.

Lemma returns_mono {X} (m : M F X) s (Q Q' : X -> state F -> Prop) :
  returns m s Q -> (forall x s', Q x s' -> Q' x s') -> returns m s Q'.
Proof. unfold returns. destruct (m s); auto. Qed.

Lemma returns_ret {X} (x : X) s (Q : X -> state F -> Prop) :
  Q x s -> returns (ret x) s Q.
Proof. exact (fun HQ => HQ). Qed.

Lemma returns_bind {X Y} (m : M F X) (k : X -> M F Y) s Q :
  returns m s (fun x s' => returns (k x) s' Q) -> returns (bind m k) s Q.
Proof. unfold returns, bind. destruct (m s); auto. Qed.

Lemma returns_bind_inv {X Y} (m : M F X) (k : X -> M F Y) s Q :
  returns (bind m k) s Q -> returns m s (fun x s' => returns (k x) s' Q).
Proof. unfold returns, bind. destruct (m s); auto. Qed.

Lemma returns_load_v r s (Q : vec F -> state F -> Prop) :
  Q (vecs s !!! r) s -> returns (load_v r) s Q.
Proof. exact (fun HQ => HQ). Qed.

Lemma returns_load_m r s (Q : matrix F -> state F -> Prop) :
  Q (mats s !!! r) s -> returns (load_m r) s Q.
Proof. exact (fun HQ => HQ). Qed.

Lemma returns_store_v r v s (Q : unit -> state F -> Prop) :
  Q tt (State (<[r := v]> (vecs s)) (mats s) (next s) (stdout s)) ->
  returns (store_v r v) s Q.
Proof. exact (fun HQ => HQ). Qed.

Lemma returns_store_m r A s (Q : unit -> state F -> Prop) :
  Q tt (State (vecs s) (<[r := A]> (mats s)) (next s) (stdout s)) ->
  returns (store_m r A) s Q.
Proof. exact (fun HQ => HQ). Qed.

Lemma returns_alloc_v v s (Q : vref -> state F -> Prop) :
  Q (next s) (State (<[next s := v]> (vecs s)) (mats s) (S (next s)) (stdout s)) ->
  returns (alloc_v v) s Q.
Proof. exact (fun HQ => HQ). Qed.

Lemma returns_alloc_m A s (Q : mref -> state F -> Prop) :
  Q (next s) (State (vecs s) (<[next s := A]> (mats s)) (S (next s)) (stdout s)) ->
  returns (alloc_m A) s Q.
Proof. exact (fun HQ => HQ). Qed.

Lemma returns_print line s (Q : unit -> state F -> Prop) :
  Q tt (State (vecs s) (mats s) (next s) (stdout s ++ [line])) ->
  returns (print line) s Q.
Proof. exact (fun HQ => HQ). Qed.

Lemma returns_get1 r i s (Q : F -> state F -> Prop) :
  Q ((vecs s !!! r) !!! i) s -> returns (get1 r i) s Q.
Proof. exact (fun HQ => HQ). Qed.

Lemma returns_get2 r i j s (Q : F -> state F -> Prop) :
  Q (((mats s !!! r) !!! i) !!! j) s -> returns (get2 r i j) s Q.
Proof. exact (fun HQ => HQ). Qed.

Lemma returns_set1 r i a s (Q : unit -> state F -> Prop) :
  Q tt (State (<[r := <[i := a]> (vecs s !!! r)]> (vecs s)) (mats s) (next s) (stdout s)) ->
  returns (set1 r i a) s Q.
Proof. exact (fun HQ => HQ). Qed.

Lemma returns_set2 r i j a s (Q : unit -> state F -> Prop) :
  Q tt (State (vecs s) (<[r := set_item2 (mats s !!! r) i j a]> (mats s))
          (next s) (stdout s)) ->
  returns (set2 r i j a) s Q.
Proof. exact (fun HQ => HQ). Qed.

Lemma returns_len_m r s (Q : nat -> state F -> Prop) :
  Q (length (mats s !!! r)) s -> returns (len_m r) s Q.
Proof. exact (fun HQ => HQ). Qed.

Lemma returns_copy_v r s (Q : vref -> state F -> Prop) :
  Q (next s) (State (<[next s := vecs s !!! r]> (vecs s)) (mats s) (S (next s)) (stdout s)) ->
  returns (copy_v r) s Q.
Proof. exact (fun HQ => HQ). Qed.

Lemma returns_copy_m r s (Q : mref -> state F -> Prop) :
  Q (next s) (State (vecs s) (<[next s := mats s !!! r]> (mats s)) (S (next s)) (stdout s)) ->
  returns (copy_m r) s Q.
Proof. exact (fun HQ => HQ). Qed.

(** The loop rule: [I k] holds when [k] indices have been processed. *)
Lemma returns_for_each {X} (l : list nat) (body : nat -> X -> M F X)
    (I : nat -> X -> state F -> Prop) x s :
  I 0 x s ->
  (forall k i x s, l !! k = Some i -> I k x s -> returns (body i x) s (I (S k))) ->
  returns (for_each l body x) s (I (length l)).
Proof.
  revert I x s. induction l as [|i l IH]; intros I x s H0 Hstep.
  - exact H0.
  - simpl. apply returns_bind.
    eapply returns_mono; [exact (Hstep 0 i x s eq_refl H0)|].
    intros x' s' H1. apply (IH (fun k => I (S k))); [exact H1|].
    intros k j x'' s'' Hk. exact (Hstep (S k) j x'' s'' Hk).
Qed.

Lemma returns_for_range {X} (lo hi : nat) (body : nat -> X -> M F X)
    (I : nat -> X -> state F -> Prop) x s :
  lo <= hi ->
  I lo x s ->
  (forall i x s, lo <= i < hi -> I i x s -> returns (body i x) s (I (S i))) ->
  returns (for_each (range lo hi) body x) s (I hi).
Proof.
  intros Hle H0 Hstep.
  pose proof (returns_for_each (range lo hi) body (fun k => I (lo + k)) x s) as Hr.
  unfold range in *. rewrite length_seq in Hr.
  replace (lo + (hi - lo)) with hi in Hr by lia.
  apply Hr.
  - replace (lo + 0) with lo by lia. exact H0.
  - intros k i x' s' Hk HI. apply lookup_seq in Hk as [-> Hk].
    replace (lo + S k) with (S (lo + k)) by lia. apply Hstep; [lia | exact HI].
Qed.

Lemma returns_for_down {X} (n : nat) (body : nat -> X -> M F X)
    (I : nat -> X -> state F -> Prop) x s :
  I 0 x s ->
  (forall k x s, k < n -> I k x s -> returns (body (n - 1 - k) x) s (I (S k))) ->
  returns (for_each (range_down n) body x) s (I n).
Proof.
  intros H0 Hstep.
  pose proof (returns_for_each (range_down n) body I x s) as Hr.
  unfold range_down in *. rewrite length_reverse, length_seq in Hr.
  apply Hr; [exact H0|].
  intros k i x' s' Hk HI.
  assert (k < n) as Hlt.
  { apply lookup_lt_Some in Hk. rewrite length_reverse, length_seq in Hk. exact Hk. }
  rewrite reverse_lookup in Hk by (rewrite length_seq; exact Hlt).
  rewrite length_seq in Hk. apply lookup_seq in Hk as [-> _].
  replace (0 + (n - S k)) with (n - 1 - k) by lia.
  apply Hstep; [exact Hlt | exact HI].
Qed.
End Logic.

(** One step of a run: the next statement of the program is executed. *)
Ltac run_prim :=
  lazymatch goal with
  | |- returns (get1 _ _) _ _ => apply returns_get1
  | |- returns (get2 _ _ _) _ _ => apply returns_get2
  | |- returns (set1 _ _ _) _ _ => apply returns_set1
  | |- returns (set2 _ _ _ _) _ _ => apply returns_set2
  | |- returns (load_v _) _ _ => apply returns_load_v
  | |- returns (load_m _) _ _ => apply returns_load_m
  | |- returns (store_v _ _) _ _ => apply returns_store_v
  | |- returns (store_m _ _) _ _ => apply returns_store_m
  | |- returns (copy_v _) _ _ => apply returns_copy_v
  | |- returns (copy_m _) _ _ => apply returns_copy_m
  | |- returns (alloc_v _) _ _ => apply returns_alloc_v
  | |- returns (alloc_m _) _ _ => apply returns_alloc_m
  | |- returns (len_m _) _ _ => apply returns_len_m
  | |- returns (print _) _ _ => apply returns_print
  | |- returns (ret _) _ _ => apply returns_ret
  end.
Ltac run_step :=
  lazymatch goal with
  | |- returns (bind _ _) _ _ => apply returns_bind; run_prim
  | |- returns _ _ _ => run_prim
  end;
  cbv beta; cbn [vecs mats next stdout fst snd].
Ltac run := repeat run_step.

(** ** Lists as arrays *)

Lemma swapped_inserts {X} `{Inhabited X} (i j : nat) (l : list X) :
  i <> j -> i < length l -> j < length l ->
  swapped i j l (<[j := l !!! i]> (<[i := l !!! j]> l)).
Proof.
  intros Hij Hi Hj. repeat split.
  - rewrite list_lookup_insert_ne by congruence.
    rewrite list_lookup_insert_eq by exact Hi.
    symmetry. apply list_lookup_lookup_total_lt, Hj.
  - rewrite list_lookup_insert_eq by (rewrite length_insert; exact Hj).
    symmetry. apply list_lookup_lookup_total_lt, Hi.
  - intros k Hki Hkj. rewrite !list_lookup_insert_ne by congruence. reflexivity.
Qed.

(** ** Sums *)

Section Sums.
Context {F : Type} `{Scalar F}.

Lemma accum_app s0 l1 l2 (f : nat -> F) :
  accum s0 (l1 ++ l2) f = accum (accum s0 l1 f) l2 f.
Proof. unfold accum. apply foldl_app. Qed.

Lemma accum_snoc s0 l t (f : nat -> F) :
  accum s0 (l ++ [t]) f = (accum s0 l f + f t)%F.
Proof. rewrite accum_app. reflexivity. Qed.

Lemma accum_ext s0 l (f g : nat -> F) :
  (forall t, t ∈ l -> f t = g t) -> accum s0 l f = accum s0 l g.
Proof.
  revert s0. induction l as [|t l IH]; intros s0 Hfg; [reflexivity|].
  simpl. rewrite (Hfg t) by left. apply IH.
  intros t' Ht'. apply Hfg. right. exact Ht'.
Qed.

(** The loop [for j in l: if j != i: s += f(j)] over indices other than
    [i] adds every term. *)
Lemma skip_fold_notin (i : nat) l (f : nat -> F) s0 :
  i ∉ l ->
  foldl (fun s j => if negb (Nat.eqb j i) then (s + f j)%F else s) s0 l = accum s0 l f.
Proof.
  revert s0. induction l as [|j l IH]; intros s0 Hi; [reflexivity|].
  simpl. apply not_elem_of_cons in Hi as [Hne Hi].
  destruct (Nat.eqb_spec j i) as [->|_]; [congruence|]. simpl. apply IH, Hi.
Qed.

Lemma seq_split_at (n i : nat) :
  i < n -> seq 0 n = seq 0 i ++ i :: seq (S i) (n - S i).
Proof.
  intros Hi. replace n with (i + S (n - S i)) at 1 by lia.
  rewrite seq_app. reflexivity.
Qed.

Lemma skip_fold_range (n i : nat) (f : nat -> F) :
  i < n ->
  foldl (fun s j => if negb (Nat.eqb j i) then (s + f j)%F else s) f0 (seq 0 n)
  = sum_except n i f.
Proof.
  intros Hi. unfold sum_except. rewrite (seq_split_at n i Hi).
  rewrite foldl_app, accum_app. simpl. rewrite Nat.eqb_refl. simpl.
  rewrite !skip_fold_notin; [reflexivity| |].
  - rewrite elem_of_seq. lia.
  - rewrite elem_of_seq. lia.
Qed.

(** A loop that only reads the store computes a fold and leaves the store
    as it was. *)
Lemma returns_for_each_pure {X} l (body : nat -> X -> M F X) (g : nat -> X -> X) x s :
  (forall i x, i ∈ l -> body i x s = Done (g i x) s) ->
  returns (for_each l body x) s (fun x' s' => s' = s /\ x' = foldl (fun x i => g i x) x l).
Proof.
  revert x. induction l as [|i l IH]; intros x Hbody.
  - split; reflexivity.
  - simpl. apply returns_bind. unfold returns at 1. rewrite Hbody by left.
    apply IH. intros j x' Hj. apply Hbody. right. exact Hj.
Qed.
End Sums.

Lemma lookup_total_fmap_seq {X} `{Inhabited X} (f : nat -> X) (n i : nat) :
  i < n -> (f <$> seq 0 n) !!! i = f i.
Proof.
  intros Hi. apply list_lookup_total_correct.
  rewrite list_lookup_fmap, lookup_seq_lt by exact Hi. reflexivity.
Qed.

Section DirectSolvers.
Context {F : Type} `{Scalar F}.

(** C7.  The swap test of [pivot_gauss] for a pair [i < j] of rows: rows
    [i] and [j] of the working copies of [A] and [b] are exchanged exactly
    when [A[j, i] > A[i, i]] holds on the values as they are (no absolute
    value is taken); otherwise the store is left as it was. *)
Theorem pivot_swap_raw_comparison (A : mref) (b : vref) (n i j : nat) (s : state F) :
  linear_system s A b n -> i < j -> j < n ->
  returns (pivot_swap A b i j) s (fun _ s' =>
    if fltb (((mats s !!! A) !!! i) !!! i) (((mats s !!! A) !!! j) !!! i)
    then swapped i j (mats s !!! A) (mats s' !!! A) /\
         swapped i j (vecs s !!! b) (vecs s' !!! b)
    else s' = s).
Proof.
  intros [[HA _] Hb] Hij Hj. unfold pivot_swap. run.
  destruct (fltb _ _).
  - run. rewrite !lookup_total_insert_eq.
    split; apply swapped_inserts; lia.
  - run. destruct s; reflexivity.
Qed.
End DirectSolvers.

Section Sweeps.
Context {F : Type} `{Scalar F}.

(** C5.  One pass of the Jacobi loop on the iterate held in [x]: every
    component [i < n] becomes
    [(b[i] - sum over j <> i of A[i,j] * y[j]) / A[i,i]], where [y] is the
    whole iterate as it was when the pass began.  No component written
    during the pass enters the formula. *)
Theorem jacobi_sweep_simultaneous (A : mref) (b x : vref) (n : nat) (s : state F) :
  x < next s -> b < next s -> x <> b ->
  linear_system s A b n -> length (vecs s !!! x) = n ->
  returns (jacobi_sweep A b x n) s (fun y s' =>
    vecs s' !!! y = vecs s !!! x /\
    length (vecs s' !!! x) = length (vecs s !!! x) /\
    forall i, i < n ->
      (vecs s' !!! x) !!! i =
      (((vecs s !!! b) !!! i
        - sum_except n i (fun j => ((mats s !!! A) !!! i) !!! j * (vecs s !!! x) !!! j))
       / ((mats s !!! A) !!! i) !!! i)%F).
Proof.
  intros Hx Hb Hxb _ Hn. symmetry in Hn. apply Nat.eq_le_incl in Hn.
  unfold jacobi_sweep.
  set (Am := mats s !!! A). set (bv := vecs s !!! b). set (xv := vecs s !!! x).
  set (new i := ((bv !!! i - sum_except n i (fun j => (Am !!! i) !!! j * xv !!! j))
                 / (Am !!! i) !!! i)%F).
  run. apply returns_bind.
  pose (I := fun (i : nat) (_ : unit) (s' : state F) =>
    mats s' = mats s /\ vecs s' !!! next s = xv /\ vecs s' !!! b = bv /\
    length (vecs s' !!! x) = length xv /\
    forall i', i' < i -> (vecs s' !!! x) !!! i' = new i').
  eapply returns_mono; [apply (returns_for_range 0 n _ I); [lia| |]|].
  - unfold I. cbn [vecs mats]. repeat split.
    + apply lookup_total_insert_eq.
    + rewrite lookup_total_insert_ne by lia. reflexivity.
    + rewrite lookup_total_insert_ne by lia. reflexivity.
    + intros i' Hi'. lia.
  - intros i [] s' Hi (Hm & Hy & Hbv & Hlen & Hdone).
    apply returns_bind.
    eapply returns_mono;
      [apply (returns_for_each_pure _ _
                (fun j acc => if negb (Nat.eqb j i)
                              then (acc + (Am !!! i) !!! j * xv !!! j)%F else acc))|].
    { intros j acc _. destruct (negb (Nat.eqb j i)); [|reflexivity].
      cbv [bind get2 get1 load_m load_v ret]. rewrite Hm, Hy. reflexivity. }
    intros acc s'' [-> ->]. run. unfold I. cbn [vecs mats]. repeat split.
    + exact Hm.
    + rewrite lookup_total_insert_ne by lia. exact Hy.
    + rewrite lookup_total_insert_ne by congruence. exact Hbv.
    + rewrite lookup_total_insert_eq, length_insert. exact Hlen.
    + intros i' Hi'. rewrite lookup_total_insert_eq.
      destruct (decide (i' = i)) as [->|Hne].
      * rewrite list_lookup_total_insert_eq by (rewrite Hlen; unfold xv; lia).
        rewrite Hbv, Hm. unfold range. rewrite Nat.sub_0_r.
        rewrite skip_fold_range by lia. reflexivity.
      * rewrite list_lookup_total_insert_ne by congruence. apply Hdone. lia.
  - intros [] s' (Hm & Hy & Hbv & Hlen & Hdone). run. auto.
Qed.
(** C6.  One pass of the Gauss-Seidel loop on the iterate held in [x]:
    component [i < n] becomes [(b[i] - s) / A[i,i]] where [s] adds, in this
    order, [A[i,j] * x_new[j]] for [j < i] and [A[i,j] * x_old[j]] for
    [j > i]: the components before [i] are read as this pass has already
    written them, the components after [i] as the previous pass left
    them. *)
Theorem gauss_seidel_sweep_sequential (A : mref) (b x : vref) (n : nat) (s : state F) :
  x < next s -> b < next s -> x <> b ->
  linear_system s A b n -> length (vecs s !!! x) = n ->
  returns (gauss_seidel_sweep A b x n) s (fun y s' =>
    vecs s' !!! y = vecs s !!! x /\
    length (vecs s' !!! x) = length (vecs s !!! x) /\
    forall i, i < n ->
      (vecs s' !!! x) !!! i =
      (((vecs s !!! b) !!! i
        - accum (accum f0 (seq 0 i)
                   (fun j => ((mats s !!! A) !!! i) !!! j * (vecs s' !!! x) !!! j))
            (seq (S i) (n - S i))
            (fun j => ((mats s !!! A) !!! i) !!! j * (vecs s !!! x) !!! j))
       / ((mats s !!! A) !!! i) !!! i)%F).
Proof.
  intros Hx Hb Hxb _ Hn. symmetry in Hn. apply Nat.eq_le_incl in Hn.
  unfold gauss_seidel_sweep.
  set (Am := mats s !!! A). set (bv := vecs s !!! b). set (xv := vecs s !!! x).
  set (new (xc : vec F) i :=
         ((bv !!! i
           - accum (accum f0 (seq 0 i) (fun j => (Am !!! i) !!! j * xc !!! j))
               (seq (S i) (n - S i)) (fun j => (Am !!! i) !!! j * xv !!! j))
          / (Am !!! i) !!! i)%F).
  assert (forall (xc xc' : vec F) i,
             (forall j, j < i -> xc' !!! j = xc !!! j) -> new xc' i = new xc i) as Hnew.
  { intros xc xc' i Hsame. unfold new. do 3 f_equal.
    apply accum_ext. intros j Hj. apply elem_of_seq in Hj. rewrite Hsame by lia.
    reflexivity. }
  run. apply returns_bind.
  pose (I := fun (i : nat) (_ : unit) (s' : state F) =>
    mats s' = mats s /\ vecs s' !!! next s = xv /\ vecs s' !!! b = bv /\
    length (vecs s' !!! x) = length xv /\
    (forall i', i' < i -> (vecs s' !!! x) !!! i' = new (vecs s' !!! x) i') /\
    (forall i', i <= i' -> (vecs s' !!! x) !!! i' = xv !!! i')).
  eapply returns_mono; [apply (returns_for_range 0 n _ I); [lia| |]|].
  - unfold I. cbn [vecs mats]. repeat split.
    + apply lookup_total_insert_eq.
    + rewrite lookup_total_insert_ne by lia. reflexivity.
    + rewrite lookup_total_insert_ne by lia. reflexivity.
    + intros i' Hi'. lia.
    + intros i' _. rewrite lookup_total_insert_ne by lia. reflexivity.
  - intros i [] s' Hi (Hm & Hy & Hbv & Hlen & Hdone & Hrest).
    set (xc := vecs s' !!! x) in *.
    apply returns_bind.
    eapply returns_mono;
      [apply (returns_for_each_pure _ _
                (fun j acc => if negb (Nat.eqb j i)
                              then (acc + (Am !!! i) !!! j * xc !!! j)%F else acc))|].
    { intros j acc _. destruct (negb (Nat.eqb j i)); [|reflexivity].
      cbv [bind get2 get1 load_m load_v ret]. rewrite Hm. reflexivity. }
    intros acc s'' [-> ->]. run. fold xc.
    unfold range. rewrite Nat.sub_0_r, skip_fold_range by lia.
    rewrite Hbv, Hm. fold Am.
    set (v := ((bv !!! i - sum_except n i (fun j => (Am !!! i) !!! j * xc !!! j))
               / (Am !!! i) !!! i)%F).
    assert (v = new xc i) as Hv.
    { unfold v, new, sum_except. rewrite accum_app. do 2 f_equal.
      apply accum_ext. intros j Hj. apply elem_of_seq in Hj.
      rewrite Hrest by lia. reflexivity. }
    assert (i < length xc) as Hi' by (rewrite Hlen; unfold xv; lia).
    unfold I. cbn [vecs mats]. rewrite !lookup_total_insert_eq.
    repeat split.
    + rewrite lookup_total_insert_ne by lia. exact Hy.
    + rewrite lookup_total_insert_ne by congruence. exact Hbv.
    + rewrite length_insert. exact Hlen.
    + intros i' Hlt. destruct (decide (i' = i)) as [->|Hne].
      * rewrite list_lookup_total_insert_eq by exact Hi'. rewrite Hv.
        symmetry. apply Hnew. intros j Hj.
        rewrite list_lookup_total_insert_ne by lia. reflexivity.
      * rewrite list_lookup_total_insert_ne by congruence.
        rewrite Hdone by lia. symmetry. apply Hnew. intros j Hj.
        rewrite list_lookup_total_insert_ne by lia. reflexivity.
    + intros i' Hle. rewrite list_lookup_total_insert_ne by lia. apply Hrest. lia.
  - intros [] s' (Hm & Hy & Hbv & Hlen & Hdone & Hrest). run.
    split; [exact Hy|]. split; [exact Hlen|]. intros i Hi. apply Hdone, Hi.
Qed.
End Sweeps.

(** ** Doolittle factorisation *)

Section Doolittle.
Context {F : Type} `{Scalar F}.

Lemma sum_range_ext (r : nat) (f g : nat -> F) :
  (forall t, t < r -> f t = g t) -> sum_range 0 r f = sum_range 0 r g.
Proof.
  intros Hfg. unfold sum_range. apply accum_ext.
  intros t Ht. apply elem_of_seq in Ht. apply Hfg. lia.
Qed.

Lemma entry_set_item2_ne (A : matrix F) i j a i' j' :
  i' <> i \/ j' <> j -> entry (set_item2 A i j a) i' j' = entry A i' j'.
Proof.
  intros Hne. unfold set_item2.
  destruct (decide (i' = i)) as [->|Hi];
    [|rewrite list_lookup_total_insert_ne by congruence; reflexivity].
  destruct (decide (i < length A)) as [Hlt|Hge].
  - rewrite list_lookup_total_insert_eq by exact Hlt.
    rewrite list_lookup_total_insert_ne by (destruct Hne; congruence). reflexivity.
  - rewrite list_insert_ge by lia. reflexivity.
Qed.

Lemma entry_set_item2_eq n (A : matrix F) i j a :
  square n A -> i < n -> j < n -> entry (set_item2 A i j a) i j = a.
Proof.
  intros [Hlen Hrow] Hi Hj. unfold set_item2.
  rewrite list_lookup_total_insert_eq by lia.
  apply list_lookup_total_insert_eq. rewrite Hrow by exact Hi. exact Hj.
Qed.

Lemma square_set_item2 n (A : matrix F) i j a :
  square n A -> square n (set_item2 A i j a).
Proof.
  intros [Hlen Hrow]. unfold set_item2. split.
  - rewrite length_insert. exact Hlen.
  - intros i' Hi'. destruct (decide (i' = i)) as [->|Hne].
    + rewrite list_lookup_total_insert_eq by lia. rewrite length_insert. auto.
    + rewrite list_lookup_total_insert_ne by congruence. auto.
Qed.

Lemma square_eye n : square n (eye n).
Proof.
  unfold eye. split.
  - rewrite length_fmap, length_seq. reflexivity.
  - intros i Hi. rewrite lookup_total_fmap_seq by exact Hi.
    rewrite length_fmap, length_seq. reflexivity.
Qed.

Lemma entry_eye n i j :
  i < n -> j < n -> entry (eye n) i j = if Nat.eqb i j then f1 else f0.
Proof.
  intros Hi Hj. unfold eye.
  rewrite lookup_total_fmap_seq by exact Hi.
  rewrite lookup_total_fmap_seq by exact Hj. reflexivity.
Qed.

Lemma square_zeros2 n : square n (zeros2 n n).
Proof.
  unfold zeros2, zeros. split.
  - apply length_replicate.
  - intros i Hi. rewrite lookup_total_replicate_2 by exact Hi. apply length_replicate.
Qed.

Lemma entry_zeros2 n i j : i < n -> j < n -> entry (zeros2 n n) i j = f0.
Proof.
  intros Hi Hj. unfold zeros2, zeros.
  rewrite lookup_total_replicate_2 by exact Hi.
  apply lookup_total_replicate_2, Hj.
Qed.

Lemma lu_partial_init n (A : matrix F) : lu_partial n A 0 0 1 (eye n) (zeros2 n n).
Proof.
  split; [apply square_eye|]. split; [apply square_zeros2|]. repeat split.
  - intros r j Hc. lia.
  - intros r j Hr Hj _. apply entry_zeros2; assumption.
  - intros i c Hc. lia.
  - intros i c Hi Hc _. apply entry_eye; assumption.
Qed.

(** Writing [u[k, j]]. *)
Lemma lu_partial_u n (A : matrix F) k j L U :
  k <= j < n ->
  lu_partial n A k j (S k) L U ->
  lu_partial n A k (S j) (S k) L
    (set_item2 U k j (entry A k j - sum_range 0 k (fun t => entry L k t * entry U t j))%F).
Proof.
  intros Hj (HL & HU & HU1 & HU0 & HL1 & HL0).
  set (U' := set_item2 U k j _).
  assert (forall r c, r <> k \/ c <> j -> entry U' r c = entry U r c) as Hne
    by (intros; apply entry_set_item2_ne; assumption).
  split; [exact HL|]. split; [apply square_set_item2, HU|]. repeat split.
  - intros r c Hc.
    assert (sum_range 0 r (fun t => entry L r t * entry U' t c)
            = sum_range 0 r (fun t => entry L r t * entry U t c))%F as Hsum.
    { apply sum_range_ext. intros t Ht. rewrite Hne by lia. reflexivity. }
    rewrite Hsum. destruct (decide (r = k /\ c = j)) as [[-> ->]|Hrc].
    + unfold U'. rewrite (entry_set_item2_eq n) by (assumption || lia). reflexivity.
    + rewrite Hne by lia. apply HU1. lia.
  - intros r c Hr Hc Hz. rewrite Hne by lia. apply HU0; lia.
  - intros i c Hc.
    assert (sum_range 0 c (fun t => entry L i t * entry U' t c)
            = sum_range 0 c (fun t => entry L i t * entry U t c))%F as Hsum.
    { apply sum_range_ext. intros t Ht. rewrite Hne by lia. reflexivity. }
    rewrite Hsum, (Hne c c) by lia. apply HL1. lia.
  - exact HL0.
Qed.

(** Writing [l[i, k]]. *)
Lemma lu_partial_l n (A : matrix F) k i L U :
  k < i < n ->
  lu_partial n A k n i L U ->
  lu_partial n A k n (S i)
    (set_item2 L i k ((entry A i k - sum_range 0 k (fun t => entry L i t * entry U t k))
                      / entry U k k)%F) U.
Proof.
  intros Hi (HL & HU & HU1 & HU0 & HL1 & HL0).
  set (L' := set_item2 L i k _).
  assert (forall r c, r <> i \/ c <> k -> entry L' r c = entry L r c) as Hne
    by (intros; apply entry_set_item2_ne; assumption).
  split; [apply square_set_item2, HL|]. split; [exact HU|]. repeat split.
  - intros r c Hc.
    assert (sum_range 0 r (fun t => entry L' r t * entry U t c)
            = sum_range 0 r (fun t => entry L r t * entry U t c))%F as Hsum.
    { apply sum_range_ext. intros t Ht. rewrite Hne by lia. reflexivity. }
    rewrite Hsum. apply HU1. lia.
  - intros r c Hr Hc Hz. apply HU0; lia.
  - intros r c Hc.
    assert (sum_range 0 c (fun t => entry L' r t * entry U t c)
            = sum_range 0 c (fun t => entry L r t * entry U t c))%F as Hsum.
    { apply sum_range_ext. intros t Ht. rewrite Hne by lia. reflexivity. }
    rewrite Hsum. destruct (decide (r = i /\ c = k)) as [[-> ->]|Hrc].
    + unfold L'. rewrite (entry_set_item2_eq n) by (assumption || lia). reflexivity.
    + rewrite Hne by lia. apply HL1. lia.
  - intros r c Hr Hc Hz. rewrite Hne by lia. apply HL0; lia.
Qed.

(** The end of pass [k] is the start of pass [k + 1]. *)
Lemma lu_partial_next n (A : matrix F) k L U :
  lu_partial n A k n n L U -> S k <= n -> lu_partial n A (S k) (S k) (S (S k)) L U.
Proof.
  intros (HL & HU & HU1 & HU0 & HL1 & HL0) Hk.
  split; [exact HL|]. split; [exact HU|]. repeat split.
  - intros r j Hc. apply HU1. lia.
  - intros r j Hr Hj Hz. apply HU0; lia.
  - intros i c Hc. apply HL1. lia.
  - intros i c Hi Hc Hz. apply HL0; lia.
Qed.

Lemma lu_frame_lookup (s s' : state F) r :
  lu_frame s s' -> r < next s -> mats s' !!! r = mats s !!! r.
Proof.
  intros (_ & _ & _ & Hm) Hr. rewrite !lookup_total_alt, Hm by exact Hr. reflexivity.
Qed.

Lemma lu_frame_store_l (s s' : state F) (L : matrix F) :
  lu_frame s s' ->
  lu_frame s (State (vecs s') (<[next s := L]> (mats s')) (next s') (stdout s')).
Proof.
  intros (Hv & Hn & Ho & Hm). repeat split; try assumption.
  intros r Hr. cbn [mats]. rewrite lookup_insert_ne by lia. apply Hm, Hr.
Qed.

Lemma lu_frame_store_u (s s' : state F) (U : matrix F) :
  lu_frame s s' ->
  lu_frame s (State (vecs s') (<[S (next s) := U]> (mats s')) (next s') (stdout s')).
Proof.
  intros (Hv & Hn & Ho & Hm). repeat split; try assumption.
  intros r Hr. cbn [mats]. rewrite lookup_insert_ne by lia. apply Hm, Hr.
Qed.

(** [lu_factor] returns; its factors are the two objects it allocates, and
    when it returns all [n] passes of the recurrence are complete. *)
Lemma lu_factor_runs (A : mref) (n : nat) (s : state F) :
  A < next s ->
  returns (lu_factor A n) s (fun lu s' =>
    lu = (next s, S (next s)) /\ lu_frame s s' /\
    lu_partial n (mats s !!! A) n n (S n) (mats s' !!! lu.1) (mats s' !!! lu.2)).
Proof.
  intros HA. unfold lu_factor. set (Am := mats s !!! A).
  set (l := next s). set (u := S (next s)).
  run. apply returns_bind.
  pose (I := fun (k : nat) (_ : unit) (s' : state F) =>
    lu_frame s s' /\ lu_partial n Am k k (S k) (mats s' !!! l) (mats s' !!! u)).
  eapply returns_mono; [apply (returns_for_range 0 n _ I); [lia| |]|].
  - split.
    + repeat split. intros r Hr. cbn [mats]. rewrite !lookup_insert_ne by lia.
      reflexivity.
    + cbn [mats]. rewrite lookup_total_insert_eq.
      rewrite lookup_total_insert_ne by lia. rewrite lookup_total_insert_eq.
      apply lu_partial_init.
  - intros k [] s1 Hk [Hfr HP]. apply returns_bind.
    (* the row [k] of [u] *)
    pose (Iu := fun (j : nat) (_ : unit) (s' : state F) =>
      lu_frame s s' /\ lu_partial n Am k j (S k) (mats s' !!! l) (mats s' !!! u)).
    eapply returns_mono; [apply (returns_for_range k n _ Iu); [lia| |]|].
    + split; assumption.
    + intros j [] s2 Hj [Hfr2 HP2]. apply returns_bind.
      eapply returns_mono;
        [apply (returns_for_each_pure _ _
                  (fun t acc => (acc + entry (mats s2 !!! l) k t
                                       * entry (mats s2 !!! u) t j)%F));
         intros; reflexivity|].
      intros acc s3 [-> ->]. run. split.
      * apply lu_frame_store_u, Hfr2.
      * cbn [mats]. rewrite lookup_total_insert_eq.
        rewrite lookup_total_insert_ne by (unfold l, u; lia).
        rewrite (lu_frame_lookup s s2 A Hfr2 HA).
        apply (lu_partial_u n Am k j); [lia | exact HP2].
    + (* the column [k] of [l] *)
      intros [] s2 [Hfr2 HP2].
      pose (Il := fun (i : nat) (_ : unit) (s' : state F) =>
        lu_frame s s' /\ lu_partial n Am k n i (mats s' !!! l) (mats s' !!! u)).
      eapply returns_mono; [apply (returns_for_range (k + 1) n _ Il); [lia| |]|].
      * split; [exact Hfr2|]. replace (k + 1) with (S k) by lia. exact HP2.
      * intros i [] s3 Hi [Hfr3 HP3]. apply returns_bind.
        eapply returns_mono;
          [apply (returns_for_each_pure _ _
                    (fun t acc => (acc + entry (mats s3 !!! l) i t
                                         * entry (mats s3 !!! u) t k)%F));
           intros; reflexivity|].
        intros acc s4 [-> ->]. run. split.
        -- apply lu_frame_store_l, Hfr3.
        -- cbn [mats]. rewrite lookup_total_insert_eq.
           rewrite lookup_total_insert_ne by (unfold l, u; lia).
           rewrite (lu_frame_lookup s s3 A Hfr3 HA).
           apply (lu_partial_l n Am k i); [lia | exact HP3].
      * intros [] s3 [Hfr3 HP3]. split; [exact Hfr3|].
        apply lu_partial_next; [exact HP3 | lia].
  - intros [] s1 [Hfr HP]. run. auto.
Qed.
End Doolittle.

(** ** Exact arithmetic *)

Section Exact.
Context {F : Type} `{ExactField F}.

Add Field exact_arith : exact_field.

Lemma sum_range_S (m : nat) (f : nat -> F) :
  sum_range 0 (S m) f = (sum_range 0 m f + f m)%F.
Proof.
  unfold sum_range. rewrite !Nat.sub_0_r, seq_S. apply accum_snoc.
Qed.

Lemma sum_range_zero_tail (m n : nat) (f : nat -> F) :
  m <= n -> (forall t, m <= t < n -> f t = f0) -> sum_range 0 n f = sum_range 0 m f.
Proof.
  intros Hle. induction Hle as [|n Hle IH]; intros Hz; [reflexivity|].
  rewrite sum_range_S, IH by (intros t Ht; apply Hz; lia).
  rewrite Hz by lia. ring.
Qed.

Lemma accum_fmap_S s0 l (f : nat -> F) :
  accum s0 (S <$> l) f = accum s0 l (fun t => f (S t)).
Proof. revert s0. induction l as [|t l IH]; intros s0; [reflexivity|]. simpl. apply IH. Qed.

Lemma dot_vv_accum (u v : vec F) s0 :
  length u = length v ->
  foldl (fun s p => s + p.1 * p.2)%F s0 (zip u v)
  = accum s0 (seq 0 (length u)) (fun t => u !!! t * v !!! t)%F.
Proof.
  revert v s0. induction u as [|a u IH]; intros [|b v] s0 Hlen; try discriminate.
  - reflexivity.
  - simpl in Hlen. injection Hlen as Hlen.
    change (foldl (fun s p => s + p.1 * p.2)%F (s0 + a * b)%F (zip u v)
            = accum (s0 + a * b)%F (seq 1 (length u))
                (fun t => (a :: u) !!! t * (b :: v) !!! t)%F).
    rewrite IH by exact Hlen. rewrite <- fmap_S_seq, accum_fmap_S. reflexivity.
Qed.

(** An entry of [dot(L, U)] is the sum over [t < n] of [L[i,t] * U[t,j]]. *)
Lemma entry_dot_mm n (L U : matrix F) i j :
  square n L -> square n U -> i < n -> j < n ->
  entry (dot_mm L U) i j = sum_range 0 n (fun t => entry L i t * entry U t j)%F.
Proof.
  intros [HL HLrow] [HU HUrow] Hi Hj. unfold dot_mm.
  rewrite (list_lookup_total_fmap _ L i) by lia.
  unfold dot_vm, ncols. rewrite (HUrow 0) by lia.
  rewrite lookup_total_fmap_seq by exact Hj.
  unfold dot_vv, column. rewrite dot_vv_accum by (rewrite length_fmap, HLrow; lia).
  rewrite HLrow by exact Hi. unfold sum_range. rewrite Nat.sub_0_r.
  apply accum_ext. intros t Ht. apply elem_of_seq in Ht. f_equal.
  apply (list_lookup_total_fmap _ U t). lia.
Qed.

(** When the recurrence is complete and no pivot is zero, [L * U = A]. *)
Lemma lu_partial_product n (A L U : matrix F) i j :
  lu_partial n A n n (S n) L U ->
  (forall k, k < n -> entry U k k <> f0) ->
  i < n -> j < n ->
  sum_range 0 n (fun t => entry L i t * entry U t j)%F = entry A i j.
Proof.
  intros (HL & HU & HU1 & HU0 & HL1 & HL0) Hpivot Hi Hj.
  set (f := fun t => (entry L i t * entry U t j)%F).
  destruct (le_lt_dec i j) as [Hij|Hji].
  - rewrite (sum_range_zero_tail (S i) n) by
      first [ lia
            | intros t Ht; unfold f; rewrite (HL0 i t) by lia;
              destruct (Nat.eqb_spec i t); [lia | ring] ].
    rewrite sum_range_S. unfold f at 2.
    rewrite (HL0 i i), Nat.eqb_refl, (HU1 i j) by lia. fold f. ring.
  - rewrite (sum_range_zero_tail (S j) n) by
      first [ lia | intros t Ht; unfold f; rewrite (HU0 t j) by lia; ring ].
    rewrite sum_range_S. unfold f at 2.
    rewrite (HL1 i j) by lia. fold f. field. apply Hpivot, Hj.
Qed.
(** C8.  For a square [A], [lu_factor] returns factors [L] and [U] with: [L]
    unit lower triangular, [U] upper triangular, both following the
    Doolittle recurrence, and, when every pivot [U[k,k]] is nonzero, the
    product [L * U] equal to [A] entry by entry. *)
Theorem lu_factor_doolittle (A : mref) (n : nat) (s : state F) :
  A < next s -> square n (mats s !!! A) ->
  returns (lu_factor A n) s (fun lu s' =>
    let L := mats s' !!! lu.1 in
    let U := mats s' !!! lu.2 in
    (forall i j, i < n -> j < n -> i <= j ->
       entry L i j = if Nat.eqb i j then f1 else f0) /\
    (forall i j, i < n -> j < n -> j < i -> entry U i j = f0) /\
    (forall k j, k <= j < n ->
       entry U k j
       = (entry (mats s !!! A) k j
          - sum_range 0 k (fun t => entry L k t * entry U t j))%F) /\
    (forall i k, k < i < n ->
       entry L i k
       = ((entry (mats s !!! A) i k
           - sum_range 0 k (fun t => entry L i t * entry U t k)) / entry U k k)%F) /\
    ((forall k, k < n -> entry U k k <> f0) ->
     forall i j, i < n -> j < n ->
       entry (dot_mm L U) i j = entry (mats s !!! A) i j)).
Proof.
  intros HA _. eapply returns_mono; [apply (lu_factor_runs A n s HA)|].
  intros [l u] s' (_ & _ & HP). cbn [fst snd] in *. cbv zeta.
  pose proof HP as (HL & HU & HU1 & HU0 & HL1 & HL0).
  split; [|split; [|split; [|split]]].
  - intros i j Hi Hj Hij. apply HL0; lia.
  - intros i j Hi Hj Hji. apply HU0; lia.
  - intros k j Hkj. apply HU1. lia.
  - intros i k Hki. apply HL1. lia.
  - intros Hpivot i j Hi Hj. rewrite (entry_dot_mm n) by assumption.
    apply (lu_partial_product n _ _ _ i j HP Hpivot Hi Hj).
Qed.
End Exact.

Section ExactAnalyser.
Context {F : Type} `{ExactField F} `{Linalg F}.

Add Field exact_arith' : exact_field.

Lemma fleb_cancel_r (x y z : F) : fleb x y = fleb (x + z)%F (y + z)%F.
Proof.
  destruct (fleb x y) eqn:Hxy.
  - symmetry. apply fleb_add_r, Hxy.
  - destruct (fleb (x + z)%F (y + z)%F) eqn:Hz; [|reflexivity].
    apply (fleb_add_r _ _ (- z)%F) in Hz.
    replace (x + z + - z)%F with x in Hz by ring.
    replace (y + z + - z)%F with y in Hz by ring. congruence.
Qed.

Lemma fmax_exact (m a : F) : fmax m a = if fleb a m then m else a.
Proof.
  unfold fmax. rewrite !(proj2 (feqb_eq _ _) eq_refl), fltb_fleb. simpl.
  destruct (fleb a m); reflexivity.
Qed.

Lemma fleb_fmax_l (m a : F) : fleb m (fmax m a) = true.
Proof.
  rewrite fmax_exact. destruct (fleb a m) eqn:Ham; [apply fleb_refl|].
  destruct (fleb_total m a) as [Hma|Hma]; congruence.
Qed.

Lemma fleb_fmax_r (m a : F) : fleb a (fmax m a) = true.
Proof. rewrite fmax_exact. destruct (fleb a m) eqn:Ham; [exact Ham | apply fleb_refl]. Qed.

(** [abs(x).max()] is an entry of [x] that no entry exceeds. *)
Lemma foldl_fmax_max (l : list F) (a : F) :
  foldl fmax a l ∈ a :: l /\ forall x, x ∈ a :: l -> fleb x (foldl fmax a l) = true.
Proof.
  revert a. induction l as [|b l IH]; intros a.
  - split; [left|]. intros x Hx%list_elem_of_singleton. subst. apply fleb_refl.
  - simpl. destruct (IH (fmax a b)) as [Hin Hmax]. split.
    + apply elem_of_cons in Hin as [->|Hin].
      * rewrite fmax_exact. destruct (fleb b a); [left | right; left].
      * right; right; exact Hin.
    + intros x Hx. apply elem_of_cons in Hx as [->|Hx].
      * apply (fleb_trans _ (fmax a b)); [apply fleb_fmax_l | apply Hmax; left].
      * apply elem_of_cons in Hx as [->|Hx].
        -- apply (fleb_trans _ (fmax a b)); [apply fleb_fmax_r | apply Hmax; left].
        -- apply Hmax. right. exact Hx.
Qed.

(** The rejection test is a comparison of the radius with [1 - eps]. *)
Lemma reject_exact (r : F) :
  fleb eps (r - f1)%F || fleb (f1 - r)%F eps = fleb (f1 - eps)%F r.
Proof.
  assert (fleb (f1 - r)%F eps = fleb (f1 - eps)%F r) as ->.
  { rewrite (fleb_cancel_r (f1 - r) eps (r - eps))%F.
    replace (f1 - r + (r - eps))%F with (f1 - eps)%F by ring.
    replace (eps + (r - eps))%F with r by ring. reflexivity. }
  destruct (fleb (f1 - eps)%F r) eqn:Hr; [apply orb_true_r|].
  rewrite orb_false_r. destruct (fleb eps (r - f1)%F) eqn:Hup; [|reflexivity].
  assert (fleb f0 eps = true) as Hpos.
  { pose proof eps_pos as Hp. rewrite fltb_fleb in Hp.
    destruct (fleb_total f0 eps) as [Hle|Hle]; [exact Hle|].
    rewrite Hle in Hp. discriminate. }
  rewrite <- Hr. symmetry.
  apply (fleb_trans _ (eps + f1)%F).
  - rewrite (fleb_cancel_r _ _ (eps - f1)%F).
    replace (f1 - eps + (eps - f1))%F with f0 by ring.
    replace (eps + f1 + (eps - f1))%F with (eps + eps)%F by ring.
    apply (fleb_trans _ eps); [exact Hpos|].
    rewrite (fleb_cancel_r _ _ (- eps)%F).
    replace (eps + - eps)%F with f0 by ring.
    replace (eps + eps + - eps)%F with eps by ring. exact Hpos.
  - rewrite (fleb_cancel_r _ _ (- f1)%F).
    replace (eps + f1 + - f1)%F with eps by ring.
    replace (r + - f1)%F with (r - f1)%F by ring. exact Hup.
Qed.

(** C1.  When [eigvals] returns the eigenvalues of [B],
    [check_spectral_radius] takes the largest of their absolute values as
    the spectral radius and returns [True] unless
    [spectral_radius - 1 >= eps] or [1 - spectral_radius <= eps]; in exact
    arithmetic that is: it returns [True] exactly when
    [spectral_radius < 1 - eps]. *)
Theorem check_spectral_radius_verdict (B : mref) (s : state F)
    (eigenvalues : list eigenvalue) :
  linalg_eigvals (mats s !!! B) = Some eigenvalues ->
  eigenvalues <> [] ->
  exists spectral_radius : F,
    (spectral_radius ∈ eig_abs <$> eigenvalues /\
     forall e, e ∈ eigenvalues -> fleb (eig_abs e) spectral_radius = true) /\
    returns (check_spectral_radius B) s (fun ok _ =>
      ok = negb (fleb eps (spectral_radius - f1)%F || fleb (f1 - spectral_radius)%F eps) /\
      ok = fltb spectral_radius (f1 - eps)%F).
Proof.
  intros Heig Hne.
  destruct (eig_abs <$> eigenvalues) as [|a l] eqn:Habs.
  { apply fmap_nil_inv in Habs. contradiction. }
  destruct (foldl_fmax_max l a) as [Hin Hmax].
  exists (foldl fmax a l). split; [split|].
  - exact Hin.
  - intros e He. apply Hmax. rewrite <- Habs. apply list_elem_of_fmap_2, He.
  - unfold check_spectral_radius. run.
    rewrite Heig. apply returns_bind. apply returns_ret. cbv beta.
    apply returns_bind. unfold norm_inf. rewrite Habs. apply returns_ret. cbv beta.
    rewrite fltb_fleb, <- reject_exact.
    destruct (fleb eps _ || fleb _ eps); run; auto.
Qed.
End ExactAnalyser.

(** ** The [while True] loops *)

Section Loops.
Context {F : Type} `{Scalar F}.

Lemma bind_done_inv {X Y} (m : M F X) (k : X -> M F Y) s y s' :
  bind m k s = Done y s' -> exists x s1, m s = Done x s1 /\ k x s1 = Done y s'.
Proof. unfold bind. destruct (m s) as [x s1| |]; [eauto | discriminate | discriminate]. Qed.

Lemma bind_done {X Y} (m : M F X) (k : X -> M F Y) s x s1 :
  m s = Done x s1 -> bind m k s = k x s1.
Proof. unfold bind. intros ->. reflexivity. Qed.

Lemma bind_out_of_fuel {X Y} (m : M F X) (k : X -> M F Y) s :
  m s = OutOfFuel -> bind m k s = OutOfFuel.
Proof. unfold bind. intros ->. reflexivity. Qed.

(** A loop that returns did so after some number [k >= 1] of passes:
    [k] units of fuel are enough, fewer are not, and a counter that every
    pass increments has grown by [k]. *)
Lemma while_true_passes {X} (body : X -> M F (X * bool)) (ctr : X -> nat) :
  (forall x s r s', body x s = Done r s' -> ctr r.1 = S (ctr x)) ->
  forall fuel x s x' s',
    while_true fuel body x s = Done x' s' ->
    exists k, 1 <= k <= fuel /\ ctr x' = ctr x + k /\
              while_true k body x s = Done x' s' /\
              forall f, f < k -> while_true f body x s = OutOfFuel.
Proof.
  intros Hctr. induction fuel as [|fuel IH]; intros x s x' s' Hrun; [discriminate|].
  simpl in Hrun. apply bind_done_inv in Hrun as ([x1 stop] & s1 & Hbody & Hrun).
  pose proof (Hctr _ _ _ _ Hbody) as Hc. cbn [fst snd] in *. destruct stop.
  - injection Hrun as -> ->. exists 1. repeat split; try lia.
    + simpl. rewrite (bind_done _ _ _ _ _ Hbody). reflexivity.
    + intros f Hf. replace f with 0 by lia. reflexivity.
  - apply IH in Hrun as (k & Hk & Hck & Hrun & Hless). exists (S k).
    repeat split; try lia.
    + simpl. rewrite (bind_done _ _ _ _ _ Hbody). exact Hrun.
    + intros [|f] Hf; [reflexivity|]. simpl.
      rewrite (bind_done _ _ _ _ _ Hbody). apply Hless. lia.
Qed.
End Loops.

(** Peels the statements that precede the loop off a run that returned. *)
Ltac peel H :=
  repeat (let x := fresh "x" in let s := fresh "s" in let E := fresh "E" in
          apply bind_done_inv in H as (x & s & E & H)).
(** Replays statements whose outcome is a hypothesis. *)
Ltac replay := repeat (erewrite bind_done by eassumption).

Section Counting.
Context {F : Type} `{Scalar F} `{Linalg F}.

(** The proof for the three stationary methods: the statements before the
    loop do not depend on the fuel, and the loop's variable is the counter. *)
Local Ltac stationary_count Hrun :=
  let E := fresh "E" in
  apply bind_done_inv in Hrun as (?A' & ?s1 & ?E1 & Hrun);
  apply bind_done_inv in Hrun as (?b' & ?s2 & ?E2 & Hrun);
  apply bind_done_inv in Hrun as ([|] & ?s3 & ?E3 & Hrun);
  cbn [negb] in Hrun; [|discriminate];
  apply bind_done_inv in Hrun as (?n & ?s4 & ?E4 & Hrun);
  apply bind_done_inv in Hrun as (?x' & ?s5 & ?E5 & Hrun);
  apply bind_done_inv in Hrun as (?c & ?s6 & E & Hrun);
  injection Hrun as -> -> ->;
  eapply (while_true_passes _ (fun c => c)) in E as (?k & ?Hk & Hc & ?Hrun & Hless);
  [ cbn in Hc; subst; split; [lia|]; split;
    [ replay; cbn [negb]; replay; reflexivity
    | intros f Hf; replay; cbn [negb]; replay; apply bind_out_of_fuel, Hless, Hf ]
  | clear; intros c s r s' Hb; peel Hb; injection Hb as <- _; cbn; lia ].

Lemma jacobi_count fuel A b x0 s x cnt s' :
  jacobi fuel A b x0 s = Done (Solution x cnt) s' ->
  1 <= cnt <= fuel /\ after_passes (fun f => jacobi f A b x0) s x cnt s' cnt.
Proof. unfold after_passes, jacobi. intros Hrun. stationary_count Hrun. Qed.

Lemma gauss_seidel_count fuel A b x0 s x cnt s' :
  gauss_seidel fuel A b x0 s = Done (Solution x cnt) s' ->
  1 <= cnt <= fuel /\ after_passes (fun f => gauss_seidel f A b x0) s x cnt s' cnt.
Proof. unfold after_passes, gauss_seidel. intros Hrun. stationary_count Hrun. Qed.

Lemma successive_over_relaxation_count fuel A b w x0 s x cnt s' :
  successive_over_relaxation fuel A b w x0 s = Done (Solution x cnt) s' ->
  1 <= cnt <= fuel /\
  after_passes (fun f => successive_over_relaxation f A b w x0) s x cnt s' cnt.
Proof.
  unfold after_passes, successive_over_relaxation. intros Hrun. stationary_count Hrun.
Qed.

Lemma conjugate_gradient_count fuel A b x0 s x cnt s' :
  conjugate_gradient fuel A b x0 s = Done (Solution x cnt) s' ->
  2 <= cnt <= S fuel /\
  after_passes (fun f => conjugate_gradient f A b x0) s x cnt s' (cnt - 1).
Proof.
  unfold after_passes, conjugate_gradient. intros Hrun.
  apply bind_done_inv in Hrun as (A' & s1 & E1 & Hrun).
  apply bind_done_inv in Hrun as (b' & s2 & E2 & Hrun).
  apply bind_done_inv in Hrun as ([|] & s3 & E3 & Hrun);
    cbn [negb] in Hrun; [|discriminate].
  apply bind_done_inv in Hrun as (n & s4 & E4 & Hrun).
  apply bind_done_inv in Hrun as (x' & s5 & E5 & Hrun).
  apply bind_done_inv in Hrun as (bv & s6 & E6 & Hrun).
  apply bind_done_inv in Hrun as (Am & s7 & E7 & Hrun).
  apply bind_done_inv in Hrun as (xv & s8 & E8 & Hrun).
  apply bind_done_inv in Hrun as (r & s9 & E9 & Hrun).
  apply bind_done_inv in Hrun as ([[[x1 r1] p1] c] & s10 & E10 & Hrun).
  injection Hrun as -> -> ->.
  eapply (while_true_passes _ snd) in E10 as (k & Hk & Hc & Hrun & Hless).
  2:{ clear. intros [[[x r] p] c] s res s' Hb.
      apply bind_done_inv in Hb as ([[[x2 r2] p2] y] & s1 & _ & Hb).
      peel Hb. injection Hb as <- _. cbn. lia. }
  cbn in Hc. subst cnt. replace (S k - 1) with k by lia. split; [lia|]. split.
  - replay. cbn [negb]. replay. reflexivity.
  - intros f Hf. replay. cbn [negb]. replay. apply bind_out_of_fuel, Hless, Hf.
Qed.

(** C10.  A call of [jacobi], [gauss_seidel] or
    [successive_over_relaxation] that returns [x, cnt] made exactly [cnt]
    passes of its loop (at least one); a call of [conjugate_gradient] that
    returns [x, cnt] made exactly [cnt - 1] passes (at least one, so
    [cnt >= 2]): its counter starts at 1, theirs at 0. *)
Theorem iteration_counts (fuel : nat) (A : mref) (b : vref) (w : F) (x0 : vref)
    (n : nat) (s : state F) (x : vref) (cnt : nat) (s' : state F) :
  linear_system s A b n -> length (vecs s !!! x0) = n ->
  (jacobi fuel A b x0 s = Done (Solution x cnt) s' ->
   1 <= cnt /\ after_passes (fun f => jacobi f A b x0) s x cnt s' cnt) /\
  (gauss_seidel fuel A b x0 s = Done (Solution x cnt) s' ->
   1 <= cnt /\ after_passes (fun f => gauss_seidel f A b x0) s x cnt s' cnt) /\
  (successive_over_relaxation fuel A b w x0 s = Done (Solution x cnt) s' ->
   1 <= cnt /\
   after_passes (fun f => successive_over_relaxation f A b w x0) s x cnt s' cnt) /\
  (conjugate_gradient fuel A b x0 s = Done (Solution x cnt) s' ->
   2 <= cnt /\
   after_passes (fun f => conjugate_gradient f A b x0) s x cnt s' (cnt - 1)).
Proof.
  intros _ _. split; [|split; [|split]]; intros Hrun.
  - apply jacobi_count in Hrun as [Hc Hp]. split; [lia | exact Hp].
  - apply gauss_seidel_count in Hrun as [Hc Hp]. split; [lia | exact Hp].
  - apply successive_over_relaxation_count in Hrun as [Hc Hp]. split; [lia | exact Hp].
  - apply conjugate_gradient_count in Hrun as [Hc Hp]. split; [lia | exact Hp].
Qed.
End Counting.

(** ** What a call leaves unchanged *)

Section Frame.
Context {F : Type} `{Scalar F} `{Linalg F}.

Lemma unchanged_refl (s : state F) : unchanged s s.
Proof. split; [lia | auto]. Qed.

Lemma keeps_ret (s0 : state F) {X} (x : X) (P : X -> Prop) : P x -> keeps s0 (ret x) P.
Proof. intros HP s Hs. split; assumption. Qed.

Lemma keeps_bind (s0 : state F) {X Y} (m : M F X) (k : X -> M F Y) (P : X -> Prop) (Q : Y -> Prop) :
  keeps s0 m P -> (forall x, P x -> keeps s0 (k x) Q) -> keeps s0 (bind m k) Q.
Proof.
  intros Hm Hk s Hs. unfold bind. specialize (Hm s Hs).
  destruct (m s) as [x s'|e s'|]; [|exact Hm|exact I].
  destruct Hm as [Hs' HP]. apply (Hk x HP s' Hs').
Qed.

Lemma keeps_weaken (s0 : state F) {X} (m : M F X) (P Q : X -> Prop) :
  keeps s0 m P -> (forall x, P x -> Q x) -> keeps s0 m Q.
Proof.
  intros Hm HPQ s Hs. specialize (Hm s Hs).
  destruct (m s); [destruct Hm; split; auto | exact Hm | exact I].
Qed.

Lemma keeps_raise (s0 : state F) {X} e (P : X -> Prop) : keeps s0 (raise e) P.
Proof. intros s Hs. exact Hs. Qed.

Lemma keeps_out_of_fuel (s0 : state F) {X} (P : X -> Prop) : keeps s0 out_of_fuel P.
Proof. intros s Hs. exact I. Qed.

Lemma keeps_linalg (s0 : state F) {X} (r : option X) : keeps s0 (linalg r) (fun _ => True).
Proof. destruct r; [apply keeps_ret; exact I | apply keeps_raise]. Qed.

Lemma keeps_load_v (s0 : state F) r : keeps s0 (load_v r) (fun _ => True).
Proof. intros s Hs. split; [exact Hs | exact I]. Qed.

Lemma keeps_load_m (s0 : state F) r : keeps s0 (load_m r) (fun _ => True).
Proof. intros s Hs. split; [exact Hs | exact I]. Qed.

Lemma keeps_print (s0 : state F) line : keeps s0 (print line) (fun _ => True).
Proof. intros s Hs. split; [exact Hs | exact I]. Qed.

Lemma keeps_alloc_v (s0 : state F) v : keeps s0 (alloc_v v) (private s0).
Proof.
  intros s [Hn Hs]. split; [split|]; cbn [next vecs mats].
  - lia.
  - intros r Hr. rewrite lookup_insert_ne by lia. apply Hs, Hr.
  - exact Hn.
Qed.

Lemma keeps_alloc_m (s0 : state F) A : keeps s0 (alloc_m A) (private s0).
Proof.
  intros s [Hn Hs]. split; [split|]; cbn [next vecs mats].
  - lia.
  - intros r Hr. rewrite lookup_insert_ne by lia. apply Hs, Hr.
  - exact Hn.
Qed.

Lemma keeps_store_v (s0 : state F) r v : private s0 r -> keeps s0 (store_v r v) (fun _ => True).
Proof.
  intros Hr s [Hn Hs]. split; [split|exact I]; cbn [next vecs mats].
  - exact Hn.
  - intros r' Hr'. unfold private in Hr. rewrite lookup_insert_ne by lia. apply Hs, Hr'.
Qed.

Lemma keeps_store_m (s0 : state F) r A : private s0 r -> keeps s0 (store_m r A) (fun _ => True).
Proof.
  intros Hr s [Hn Hs]. split; [split|exact I]; cbn [next vecs mats].
  - exact Hn.
  - intros r' Hr'. unfold private in Hr. rewrite lookup_insert_ne by lia. apply Hs, Hr'.
Qed.

Lemma keeps_copy_v (s0 : state F) r : keeps s0 (copy_v r) (private s0).
Proof. eapply keeps_bind; [apply keeps_load_v|]. intros v _. apply keeps_alloc_v. Qed.

Lemma keeps_copy_m (s0 : state F) r : keeps s0 (copy_m r) (private s0).
Proof. eapply keeps_bind; [apply keeps_load_m|]. intros v _. apply keeps_alloc_m. Qed.

Lemma keeps_get1 (s0 : state F) r i : keeps s0 (get1 r i) (fun _ => True).
Proof.
  eapply keeps_bind; [apply keeps_load_v|]. intros v _. apply keeps_ret. exact I.
Qed.

Lemma keeps_get2 (s0 : state F) r i j : keeps s0 (get2 r i j) (fun _ => True).
Proof.
  eapply keeps_bind; [apply keeps_load_m|]. intros v _. apply keeps_ret. exact I.
Qed.

Lemma keeps_len_m (s0 : state F) r : keeps s0 (len_m r) (fun _ => True).
Proof.
  eapply keeps_bind; [apply keeps_load_m|]. intros v _. apply keeps_ret. exact I.
Qed.

Lemma keeps_set1 (s0 : state F) r i a : private s0 r -> keeps s0 (set1 r i a) (fun _ => True).
Proof.
  intros Hr. eapply keeps_bind; [apply keeps_load_v|]. intros v _.
  apply keeps_store_v, Hr.
Qed.

Lemma keeps_set2 (s0 : state F) r i j a : private s0 r -> keeps s0 (set2 r i j a) (fun _ => True).
Proof.
  intros Hr. eapply keeps_bind; [apply keeps_load_m|]. intros v _.
  apply keeps_store_m, Hr.
Qed.

Lemma keeps_for_each (s0 : state F) {X} l (body : nat -> X -> M F X) x :
  (forall i x, keeps s0 (body i x) (fun _ => True)) ->
  keeps s0 (for_each l body x) (fun _ => True).
Proof.
  intros Hbody. revert x. induction l as [|i l IH]; intros x.
  - apply keeps_ret. exact I.
  - simpl. eapply keeps_bind; [apply Hbody|]. intros x' _. apply IH.
Qed.

Lemma keeps_for (s0 : state F) l (body : nat -> M F unit) :
  (forall i, keeps s0 (body i) (fun _ => True)) -> keeps s0 (for_ l body) (fun _ => True).
Proof. intros Hbody. apply keeps_for_each. intros i _. apply Hbody. Qed.

Lemma keeps_while_true (s0 : state F) {X} fuel (body : X -> M F (X * bool)) x :
  (forall x, keeps s0 (body x) (fun _ => True)) ->
  keeps s0 (while_true fuel body x) (fun _ => True).
Proof.
  intros Hbody. revert x. induction fuel as [|fuel IH]; intros x.
  - apply keeps_out_of_fuel.
  - simpl. eapply keeps_bind; [apply Hbody|]. intros [x' stop] _.
    destruct stop; [apply keeps_ret; exact I | apply IH].
Qed.
End Frame.

(** Walks through a program, statement by statement; what is left are the
    side conditions that the arrays written in place are private. *)
Ltac frame_step :=
  lazymatch goal with
  | |- keeps _ (bind _ _) _ => eapply keeps_bind; [|intros ? ?]
  | |- keeps _ (ret _) _ => apply keeps_ret
  | |- keeps _ (raise _) _ => apply keeps_raise
  | |- keeps _ (linalg _) _ => apply keeps_linalg
  | |- keeps _ (load_v _) _ => apply keeps_load_v
  | |- keeps _ (load_m _) _ => apply keeps_load_m
  | |- keeps _ (print _) _ => apply keeps_print
  | |- keeps _ (alloc_v _) _ => apply keeps_alloc_v
  | |- keeps _ (alloc_m _) _ => apply keeps_alloc_m
  | |- keeps _ (copy_v _) _ => apply keeps_copy_v
  | |- keeps _ (copy_m _) _ => apply keeps_copy_m
  | |- keeps _ (store_v _ _) _ => apply keeps_store_v
  | |- keeps _ (store_m _ _) _ => apply keeps_store_m
  | |- keeps _ (get1 _ _) _ => apply keeps_get1
  | |- keeps _ (get2 _ _ _) _ => apply keeps_get2
  | |- keeps _ (len_m _) _ => apply keeps_len_m
  | |- keeps _ (set1 _ _ _) _ => apply keeps_set1
  | |- keeps _ (set2 _ _ _ _) _ => apply keeps_set2
  | |- keeps _ (for_each _ _ _) _ => apply keeps_for_each; intros ? ?
  | |- keeps _ (for_ _ _) _ => apply keeps_for; intros ?
  | |- keeps _ (while_true _ _ _) _ => apply keeps_while_true; intros ?
  | |- keeps _ (let _ := _ in _) _ => cbv zeta
  | |- keeps _ (if ?c then _ else _) _ => destruct c
  | |- keeps _ (match ?p with pair _ _ => _ end) _ => destruct p
  | |- True => exact I
  | |- private _ _ => assumption
  end.
Ltac frame := repeat frame_step.

Section CallerArrays.
Context {F : Type} `{Scalar F} `{Linalg F}.

Lemma keeps_pivot_gauss (s0 : state F) A b : keeps s0 (pivot_gauss A b) (fun _ => True).
Proof. unfold pivot_gauss, pivot_swap, pivot_eliminate, back_substitute. frame. Qed.

Lemma keeps_lu_factor (s0 : state F) A n : keeps s0 (lu_factor A n) (fun _ => True).
Proof. unfold lu_factor. frame. Qed.

Lemma keeps_lu_solve (s0 : state F) l u b n : keeps s0 (lu_solve l u b n) (fun _ => True).
Proof. unfold lu_solve. frame. Qed.

Lemma keeps_lu_decomposition_doolittle (s0 : state F) A b :
  keeps s0 (lu_decomposition_doolittle A b) (fun _ => True).
Proof.
  unfold lu_decomposition_doolittle. frame.
  - apply keeps_lu_factor.
  - apply keeps_lu_solve.
Qed.

Lemma keeps_norm_inf (s0 : state F) eigenvalues : keeps s0 (norm_inf eigenvalues) (fun _ => True).
Proof. unfold norm_inf. destruct (eig_abs <$> _); frame. Qed.

Lemma keeps_check_spectral_radius (s0 : state F) B :
  keeps s0 (check_spectral_radius B) (fun _ => True).
Proof. unfold check_spectral_radius. frame. apply keeps_norm_inf. all: frame. Qed.

Lemma keeps_check_jacobi_convergency (s0 : state F) A :
  keeps s0 (check_jacobi_convergency A) (fun _ => True).
Proof. unfold check_jacobi_convergency. frame. apply keeps_check_spectral_radius. Qed.

Lemma keeps_check_gauss_seidel_convergency (s0 : state F) A :
  keeps s0 (check_gauss_seidel_convergency A) (fun _ => True).
Proof. unfold check_gauss_seidel_convergency. frame. apply keeps_check_spectral_radius. Qed.

Lemma keeps_check_successive_over_relaxation_convergency (s0 : state F) A w :
  keeps s0 (check_successive_over_relaxation_convergency A w) (fun _ => True).
Proof.
  unfold check_successive_over_relaxation_convergency. frame.
  apply keeps_check_spectral_radius.
Qed.

Lemma keeps_check_symmetric_and_positive_definite_matrix (s0 : state F) A :
  keeps s0 (check_symmetric_and_positive_definite_matrix A) (fun _ => True).
Proof. unfold check_symmetric_and_positive_definite_matrix. frame. Qed.

Lemma keeps_jacobi_sweep (s0 : state F) A b x n :
  private s0 x -> keeps s0 (jacobi_sweep A b x n) (fun _ => True).
Proof. intros Hx. unfold jacobi_sweep. frame. Qed.

Lemma keeps_gauss_seidel_sweep (s0 : state F) A b x n :
  private s0 x -> keeps s0 (gauss_seidel_sweep A b x n) (fun _ => True).
Proof. intros Hx. unfold gauss_seidel_sweep. frame. Qed.

Lemma keeps_sor_sweep (s0 : state F) A b w x n :
  private s0 x -> keeps s0 (sor_sweep A b w x n) (fun _ => True).
Proof. intros Hx. unfold sor_sweep. frame. Qed.

Lemma keeps_cg_sweep (s0 : state F) A xrp : keeps s0 (cg_sweep A xrp) (fun _ => True).
Proof. unfold cg_sweep. frame. Qed.

Lemma keeps_jacobi (s0 : state F) fuel A b x0 : keeps s0 (jacobi fuel A b x0) (fun _ => True).
Proof.
  unfold jacobi. frame.
  - apply keeps_check_jacobi_convergency.
  - apply keeps_jacobi_sweep. assumption.
Qed.

Lemma keeps_gauss_seidel (s0 : state F) fuel A b x0 :
  keeps s0 (gauss_seidel fuel A b x0) (fun _ => True).
Proof.
  unfold gauss_seidel. frame.
  - apply keeps_check_gauss_seidel_convergency.
  - apply keeps_gauss_seidel_sweep. assumption.
Qed.

Lemma keeps_successive_over_relaxation (s0 : state F) fuel A b w x0 :
  keeps s0 (successive_over_relaxation fuel A b w x0) (fun _ => True).
Proof.
  unfold successive_over_relaxation. frame.
  - apply keeps_check_successive_over_relaxation_convergency.
  - apply keeps_sor_sweep. assumption.
Qed.

Lemma keeps_conjugate_gradient (s0 : state F) fuel A b x0 :
  keeps s0 (conjugate_gradient fuel A b x0) (fun _ => True).
Proof.
  unfold conjugate_gradient. frame.
  - apply keeps_check_symmetric_and_positive_definite_matrix.
  - apply keeps_cg_sweep.
Qed.

Lemma keeps_leaves_unchanged {X} (m : M F X) s :
  keeps s m (fun _ => True) -> leaves_unchanged s (m s).
Proof.
  intros Hm. specialize (Hm s (unchanged_refl s)). unfold leaves_unchanged.
  destruct (m s); [apply Hm | exact Hm | exact I].
Qed.

(** C9.  Every solver leaves every array that existed when it was called,
    the caller's [A], [b] and [x0] among them, with the content it had:
    all the writes of a call go to arrays the call allocated itself. *)
Theorem solvers_leave_arguments_unchanged (fuel : nat) (A : mref) (b : vref) (w : F)
    (x0 : vref) (s : state F) :
  leaves_unchanged s (pivot_gauss A b s) /\
  leaves_unchanged s (lu_decomposition_doolittle A b s) /\
  leaves_unchanged s (jacobi fuel A b x0 s) /\
  leaves_unchanged s (gauss_seidel fuel A b x0 s) /\
  leaves_unchanged s (successive_over_relaxation fuel A b w x0 s) /\
  leaves_unchanged s (conjugate_gradient fuel A b x0 s).
Proof.
  repeat split; apply keeps_leaves_unchanged.
  - apply keeps_pivot_gauss.
  - apply keeps_lu_decomposition_doolittle.
  - apply keeps_jacobi.
  - apply keeps_gauss_seidel.
  - apply keeps_successive_over_relaxation.
  - apply keeps_conjugate_gradient.
Qed.
End CallerArrays.

(** ** The convergence verdicts *)

Section Verdicts.
Context {F : Type} `{Scalar F} `{Linalg F}.

Lemma ends_with_bind {X Y} (m : M F X) (k : X -> M F Y) s v :
  returns m s (fun x s' => ends_with (k x) s' v) -> ends_with (bind m k) s v.
Proof. unfold returns, ends_with, bind. destruct (m s); [auto | tauto | tauto]. Qed.

Lemma ends_check_spectral_radius B s :
  ends_with (check_spectral_radius B) s (verdict (mats s !!! B)).
Proof.
  unfold ends_with, check_spectral_radius, verdict, norm_inf, bind, load_m, linalg.
  destruct (linalg_eigvals (mats s !!! B)) as [eigenvalues|]; [|reflexivity].
  cbn. destruct (eig_abs <$> eigenvalues) as [|a l]; [reflexivity|].
  cbn. destruct (fleb eps _ || fleb _ eps); reflexivity.
Qed.

(** Lines 103-108, 150-155 and 198-203: the loop that copies the diagonal of
    [A] into [D] leaves every other object as it was. *)
Lemma fill_diagonal_runs (A D : mref) (n : nat) (s : state F) :
  A <> D ->
  returns (for_ (range 0 n) (fun i => aii <- get2 A i i ;; set2 D i i aii)) s
    (fun _ s' =>
       mats s' !!! D
       = foldl (fun D i => set_item2 D i i (entry (mats s !!! A) i i))
           (mats s !!! D) (seq 0 n) /\
       forall r, r <> D -> mats s' !!! r = mats s !!! r).
Proof.
  intros HAD.
  pose (I := fun (i : nat) (_ : unit) (s' : state F) =>
    mats s' !!! D
    = foldl (fun D i => set_item2 D i i (entry (mats s !!! A) i i))
        (mats s !!! D) (seq 0 i) /\
    forall r, r <> D -> mats s' !!! r = mats s !!! r).
  apply (returns_for_range 0 n _ I); [lia|split; reflexivity|].
  intros i [] s' Hi [HD Hrest]. run. unfold I. cbn [mats]. split.
  - rewrite lookup_total_insert_eq, seq_S, foldl_app, HD, (Hrest A HAD). reflexivity.
  - intros r Hr. rewrite lookup_total_insert_ne by congruence. apply Hrest, Hr.
Qed.
End Verdicts.

Ltac run_step ::=
  lazymatch goal with
  | |- returns (bind _ _) _ _ => apply returns_bind; run_prim
  | |- ends_with (bind _ _) _ _ => apply ends_with_bind; run_prim
  | |- returns (let _ := _ in _) _ _ => cbv zeta
  | |- returns _ _ _ => run_prim
  end;
  cbv beta; cbn [vecs mats next stdout fst snd].

(** Reads of the store after a sequence of writes. *)
Ltac lookups :=
  repeat (rewrite lookup_total_insert_eq || rewrite lookup_total_insert_ne by lia).

Section NotConvergent.
Context {F : Type} `{Scalar F} `{Linalg F}.

(** The splitting of [A] and the inverse are computed; what remains is the
    verdict on the iteration matrix. *)
Local Ltac analyse HA :=
  run; apply ends_with_bind;
  (eapply returns_mono; [apply fill_diagonal_runs; lia|]);
  intros [] ?s' [HD Hrest]; cbn [mats] in *; run;
  rewrite HD, !Hrest by lia; lookups;
  match goal with
  | |- ends_with (bind (linalg ?r) _) _ _ => destruct r as [inverse|]
  end; [|reflexivity];
  apply ends_with_bind; apply returns_ret; cbv beta; run;
  match goal with
  | |- ends_with (check_spectral_radius ?B) ?S _ =>
      pose proof (ends_check_spectral_radius B S) as Hv;
      cbn [mats] in Hv; rewrite lookup_total_insert_eq in Hv; exact Hv
  end.

Lemma ends_check_jacobi_convergency (A : mref) (s : state F) :
  A < next s ->
  ends_with (check_jacobi_convergency A) s (verdict_on (jacobi_matrix (mats s !!! A))).
Proof.
  intros HA. unfold check_jacobi_convergency, jacobi_matrix, diagonal_part. analyse HA.
Qed.

Lemma ends_check_gauss_seidel_convergency (A : mref) (s : state F) :
  A < next s ->
  ends_with (check_gauss_seidel_convergency A) s
    (verdict_on (gauss_seidel_matrix (mats s !!! A))).
Proof.
  intros HA. unfold check_gauss_seidel_convergency, gauss_seidel_matrix, diagonal_part.
  analyse HA.
Qed.

Lemma ends_check_successive_over_relaxation_convergency (A : mref) (w : F) (s : state F) :
  A < next s ->
  ends_with (check_successive_over_relaxation_convergency A w) s
    (verdict_on (sor_matrix w (mats s !!! A))).
Proof.
  intros HA.
  unfold check_successive_over_relaxation_convergency, sor_matrix, diagonal_part.
  analyse HA.
Qed.
Lemma returns_ends_with {X} (m : M F X) s (x : X) v :
  returns m s (fun y _ => y = x) -> ends_with m s v -> v = inr x.
Proof. unfold returns, ends_with. destruct (m s); [intros -> ->; reflexivity | tauto | tauto]. Qed.

Lemma ends_with_done {X} (m : M F X) s (x : X) :
  ends_with m s (inr x) -> exists s', m s = Done x s'.
Proof.
  unfold ends_with. destruct (m s) as [y s'| |]; [|discriminate|tauto].
  intros [= ->]. eauto.
Qed.

(** A solver whose check, run on its private copy, returns [False] returns
    the sentinel from the store the check left. *)
Local Ltac refused Hc :=
  erewrite (bind_done (copy_m _)) by reflexivity;
  erewrite (bind_done (copy_v _)) by reflexivity;
  etransitivity; [apply (bind_done _ _ _ _ _ Hc) | reflexivity].

Lemma jacobi_refused A b s s' :
  check_jacobi_convergency (next s) (entered A b s) = Done false s' ->
  forall fuel x0, jacobi fuel A b x0 s = Done Sentinel s'.
Proof. intros Hc fuel x0. unfold jacobi. refused Hc. Qed.

Lemma gauss_seidel_refused A b s s' :
  check_gauss_seidel_convergency (next s) (entered A b s) = Done false s' ->
  forall fuel x0, gauss_seidel fuel A b x0 s = Done Sentinel s'.
Proof. intros Hc fuel x0. unfold gauss_seidel. refused Hc. Qed.

Lemma successive_over_relaxation_refused A b w s s' :
  check_successive_over_relaxation_convergency (next s) w (entered A b s) = Done false s' ->
  forall fuel x0, successive_over_relaxation fuel A b w x0 s = Done Sentinel s'.
Proof. intros Hc fuel x0. unfold successive_over_relaxation. refused Hc. Qed.

(** The check on the private copy returns what it returns on the caller's
    array: both hold the same content. *)
Local Ltac on_copy Hcheck ends_check :=
  match type of Hcheck with
  | returns (?check ?A) ?s _ =>
      match goal with
      | |- exists s', check (next s) (entered A ?b s) = Done false s' =>
          apply ends_with_done;
          rewrite <- (returns_ends_with _ _ _ _ Hcheck (ends_check A s ltac:(assumption)));
          let Hv := fresh "Hv" in
          pose proof (ends_check (next s) (entered A b s)) as Hv;
          cbn [entered mats next] in Hv; rewrite lookup_total_insert_eq in Hv;
          apply Hv; lia
      end
  end.

(** C3.  When the convergence check of a method returns [False] on the
    caller's [A], the solver returns the sentinel, and it does so from one
    and the same store whatever the fuel (none is needed: no pass of the
    loop is made) and whatever [x0] (it is not looked at); in that store
    every array of the caller is as it was. *)
Theorem sentinel_when_not_convergent (A : mref) (b : vref) (w : F) (n : nat)
    (s : state F) :
  A < next s -> linear_system s A b n ->
  (returns (check_jacobi_convergency A) s (fun ok _ => ok = false) ->
   exists s', unchanged s s' /\
     forall fuel x0, jacobi fuel A b x0 s = Done Sentinel s') /\
  (returns (check_gauss_seidel_convergency A) s (fun ok _ => ok = false) ->
   exists s', unchanged s s' /\
     forall fuel x0, gauss_seidel fuel A b x0 s = Done Sentinel s') /\
  (returns (check_successive_over_relaxation_convergency A w) s (fun ok _ => ok = false) ->
   exists s', unchanged s s' /\
     forall fuel x0, successive_over_relaxation fuel A b w x0 s = Done Sentinel s').
Proof.
  intros HA _. split; [|split]; intros Hcheck.
  - assert (exists s', check_jacobi_convergency (next s) (entered A b s) = Done false s')
      as [s' Hc] by on_copy Hcheck ends_check_jacobi_convergency.
    exists s'. split; [|apply jacobi_refused, Hc].
    pose proof (keeps_leaves_unchanged _ s (keeps_jacobi s 0 A b 0)) as Hk.
    rewrite (jacobi_refused _ _ _ _ Hc) in Hk. exact Hk.
  - assert (exists s',
              check_gauss_seidel_convergency (next s) (entered A b s) = Done false s')
      as [s' Hc] by on_copy Hcheck ends_check_gauss_seidel_convergency.
    exists s'. split; [|apply gauss_seidel_refused, Hc].
    pose proof (keeps_leaves_unchanged _ s (keeps_gauss_seidel s 0 A b 0)) as Hk.
    rewrite (gauss_seidel_refused _ _ _ _ Hc) in Hk. exact Hk.
  - assert (exists s',
              check_successive_over_relaxation_convergency (next s) w (entered A b s)
              = Done false s') as [s' Hc].
    { apply ends_with_done.
      rewrite <- (returns_ends_with _ _ _ _ Hcheck
                    (ends_check_successive_over_relaxation_convergency A w s HA)).
      pose proof (ends_check_successive_over_relaxation_convergency (next s) w
                    (entered A b s)) as Hv.
      cbn [entered mats next] in Hv. rewrite lookup_total_insert_eq in Hv.
      apply Hv. lia. }
    exists s'. split; [|apply successive_over_relaxation_refused, Hc].
    pose proof (keeps_leaves_unchanged _ s
                  (keeps_successive_over_relaxation s 0 A b w 0)) as Hk.
    rewrite (successive_over_relaxation_refused _ _ _ _ _ Hc) in Hk. exact Hk.
Qed.
End NotConvergent.

(** ** The pre-flight check of conjugate gradient *)

Lemma forallb_zip_lookup {X} `{Inhabited X} (f : X -> X -> bool) (u v : list X) (n : nat) :
  length u = n -> length v = n ->
  forallb (fun q => f q.1 q.2) (zip u v) = true <->
  forall i, i < n -> f (u !!! i) (v !!! i) = true.
Proof.
  revert v n. induction u as [|a u IH]; intros [|b v] n Hu Hv; simpl in *; try lia.
  - split; [intros _ i Hi; lia | reflexivity].
  - destruct n as [|n]; [lia|]. rewrite andb_true_iff, (IH v n) by lia. split.
    + intros [Hab Hrest] [|i] Hi; [exact Hab | apply Hrest; lia].
    + intros Hall. split; [apply (Hall 0); lia | intros i Hi; apply (Hall (S i)); lia].
Qed.

Section Preflight.
Context {F : Type} `{Scalar F} `{Linalg F}.

Lemma ncols_square n (A : matrix F) : square n A -> ncols A = n.
Proof.
  intros [Hlen Hrow]. unfold ncols. destruct n as [|n]; [|apply Hrow; lia].
  apply nil_length_inv in Hlen. subst. reflexivity.
Qed.

Lemma all_equal_transpose n (A : matrix F) :
  square n A -> all_equal (transpose A) A = true <-> symmetric n A.
Proof.
  intros HA. pose proof HA as [Hlen Hrow]. unfold all_equal, transpose, symmetric.
  rewrite (ncols_square n A HA).
  rewrite (forallb_zip_lookup
             (fun r1 r2 : vec F => forallb (fun q => feqb q.1 q.2) (zip r1 r2)) _ _ n)
    by (rewrite ?length_fmap, ?length_seq; lia).
  assert (forall i, i < n -> length (column A i) = n) as Hcol
    by (intros; unfold column; rewrite length_fmap; exact Hlen).
  assert (forall i j, j < n -> column A i !!! j = entry A j i) as Hentry
    by (intros; unfold column; apply (list_lookup_total_fmap _ A j); lia).
  split; [intros Hall i j Hi Hj | intros Hall i Hi].
  - specialize (Hall i Hi).
    rewrite lookup_total_fmap_seq in Hall by exact Hi.
    rewrite (forallb_zip_lookup feqb _ _ n) in Hall by auto.
    specialize (Hall j Hj). rewrite Hentry in Hall by exact Hj. exact Hall.
  - rewrite lookup_total_fmap_seq by exact Hi.
    rewrite (forallb_zip_lookup feqb _ _ n) by auto.
    intros j Hj. rewrite Hentry by exact Hj. apply Hall; assumption.
Qed.

(** The outcome of the check, by cases. *)
Lemma check_symmetric_and_positive_definite_matrix_runs (A : mref) (s : state F) :
  check_symmetric_and_positive_definite_matrix A s =
  let printed := State (vecs s) (mats s) (next s) (stdout s ++ [diagnostic]) in
  if negb (all_equal (transpose (mats s !!! A)) (mats s !!! A)) then Done false printed
  else match linalg_eigvals (mats s !!! A) with
       | None => Raised LinAlgError s
       | Some values => if existsb eig_neg values then Done false printed else Done true s
       end.
Proof.
  unfold check_symmetric_and_positive_definite_matrix, bind, load_m, linalg. cbv zeta.
  destruct (negb _); [reflexivity|].
  destruct (linalg_eigvals _) as [values|]; [|reflexivity].
  cbn. destruct (existsb eig_neg values); reflexivity.
Qed.

(** C4.  [conjugate_gradient] on a square [A]: when [A] is not symmetric,
    or is symmetric with an eigenvalue below zero, the call returns the
    sentinel after printing the diagnostic, whatever the fuel (no pass of
    the loop is made); when [A] is symmetric and no eigenvalue is below
    zero, the call enters its loop (without fuel it is still running) and
    never returns the sentinel. *)
Theorem conjugate_gradient_preflight (fuel : nat) (A : mref) (b x0 : vref)
    (s : state F) (n : nat) :
  linear_system s A b n -> length (vecs s !!! x0) = n ->
  let refused := fun (ans : answer) (s' : state F) =>
    ans = Sentinel /\ stdout s' = stdout s ++ [diagnostic] in
  (~ symmetric n (mats s !!! A) ->
   returns (conjugate_gradient fuel A b x0) s refused) /\
  (forall values,
     symmetric n (mats s !!! A) -> linalg_eigvals (mats s !!! A) = Some values ->
     ((exists v, v ∈ values /\ eig_neg v = true) ->
      returns (conjugate_gradient fuel A b x0) s refused) /\
     ((forall v, v ∈ values -> eig_neg v = false) ->
      conjugate_gradient 0 A b x0 s = OutOfFuel /\
      forall ans s', conjugate_gradient fuel A b x0 s = Done ans s' ->
                     exists x cnt, ans = Solution x cnt)).
Proof.
  intros [Hsq _] _ refused.
  pose proof (check_symmetric_and_positive_definite_matrix_runs (next s) (entered A b s))
    as Hcheck.
  cbn [entered mats vecs next stdout] in Hcheck. cbv zeta in Hcheck.
  rewrite lookup_total_insert_eq in Hcheck.
  assert (forall f s1,
            check_symmetric_and_positive_definite_matrix (next s) (entered A b s)
            = Done false s1 ->
            conjugate_gradient f A b x0 s = Done Sentinel s1) as Hrefused.
  { intros f s1 Hc. unfold conjugate_gradient.
    erewrite (bind_done (copy_m A)) by reflexivity.
    erewrite (bind_done (copy_v b)) by reflexivity.
    etransitivity; [apply (bind_done _ _ _ _ _ Hc) | reflexivity]. }
  split; [|intros values Hsym Heig; split].
  - intros Hnot. destruct (all_equal _ _) eqn:Hall.
    { apply (all_equal_transpose n _ Hsq) in Hall. contradiction. }
    cbn [negb] in Hcheck. unfold returns. rewrite (Hrefused fuel _ Hcheck).
    split; reflexivity.
  - intros (v & Hv & Hneg).
    apply (all_equal_transpose n _ Hsq) in Hsym. rewrite Hsym, Heig in Hcheck.
    cbn [negb] in Hcheck.
    assert (existsb eig_neg values = true) as Hex.
    { apply existsb_exists. exists v. split; [apply list_elem_of_In, Hv | exact Hneg]. }
    rewrite Hex in Hcheck. unfold returns. rewrite (Hrefused fuel _ Hcheck).
    split; reflexivity.
  - intros Hnone.
    apply (all_equal_transpose n _ Hsq) in Hsym. rewrite Hsym, Heig in Hcheck.
    cbn [negb] in Hcheck.
    assert (existsb eig_neg values = false) as Hex.
    { apply not_true_is_false. intros (v & Hv & Hneg)%existsb_exists.
      apply list_elem_of_In in Hv. rewrite (Hnone v Hv) in Hneg. discriminate. }
    rewrite Hex in Hcheck. split.
    + unfold conjugate_gradient.
      erewrite (bind_done (copy_m A)) by reflexivity.
      erewrite (bind_done (copy_v b)) by reflexivity.
      etransitivity; [apply (bind_done _ _ _ _ _ Hcheck) | reflexivity].
    + intros ans s'. unfold conjugate_gradient. intros Hrun.
      apply bind_done_inv in Hrun as (A' & s1 & [= <- <-] & Hrun).
      apply bind_done_inv in Hrun as (b' & s2 & [= <- <-] & Hrun).
      apply bind_done_inv in Hrun as (ok & s3 & E3 & Hrun).
      pose proof (eq_trans (eq_sym Hcheck) E3) as [= <- <-].
      cbn [negb] in Hrun. peel Hrun.
      match type of Hrun with
      | (let '(_, _) := ?st in _) _ = _ => destruct st as [[[xn rn] pn] cnt]
      end.
      injection Hrun as <- _. eauto.
Qed.
End Preflight.

(** ** Division by the pivots *)

Section Pivots.
Context {F : Type} `{Scalar F}.

Lemma pivot_swap_length (A : mref) (b : vref) (i j : nat) (s : state F) :
  returns (pivot_swap A b i j) s (fun _ s' =>
    next s' = next s /\ length (vecs s' !!! b) = length (vecs s !!! b)).
Proof.
  unfold pivot_swap. run. destruct (fltb _ _); run; [|auto].
  rewrite lookup_total_insert_eq, !length_insert. auto.
Qed.

Lemma pivot_eliminate_length (A : mref) (b : vref) (n i j : nat) (s : state F) :
  returns (pivot_eliminate A b n i j) s (fun _ s' =>
    next s' = next s /\ length (vecs s' !!! b) = length (vecs s !!! b)).
Proof.
  unfold pivot_eliminate. run. destruct (negb _); run; [|auto].
  rewrite lookup_total_insert_eq, length_insert. auto.
Qed.

(** Forward elimination returns and keeps the length of [b]. *)
Lemma elimination_length (A : mref) (b : vref) (n : nat) (s : state F) :
  returns (for_ (range 0 (n - 1)) (fun i =>
             for_ (range (i + 1) n) (fun j =>
               pivot_swap A b i j ;; pivot_eliminate A b n i j))) s
    (fun _ s' => next s' = next s /\ length (vecs s' !!! b) = length (vecs s !!! b)).
Proof.
  pose (I := fun (_ : nat) (_ : unit) (s' : state F) =>
    next s' = next s /\ length (vecs s' !!! b) = length (vecs s !!! b)).
  apply (returns_for_range 0 (n - 1) _ I); [lia | split; reflexivity |].
  intros i [] s1 Hi [Hn1 Hl1].
  destruct (le_lt_dec (i + 1) n) as [Hle|Hgt].
  - apply (returns_for_range (i + 1) n _ (fun _ => I i)); [exact Hle | split; assumption |].
    intros j [] s2 Hj [Hn2 Hl2]. apply returns_bind.
    eapply returns_mono; [apply pivot_swap_length|]. intros [] s3 [Hn3 Hl3].
    eapply returns_mono; [apply pivot_eliminate_length|]. intros [] s4 [Hn4 Hl4].
    split; congruence.
  - lia.
Qed.

(** After back-substitution every component [k < n] of [b] is a quotient
    by the pivot [A[k, k]]; [A] is not written. *)
Lemma back_substitute_quotients (A : mref) (b : vref) (n : nat) (s : state F) :
  returns (back_substitute A b n) s (fun _ s' =>
    mats s' = mats s /\ next s' = next s /\
    forall k, k < n -> k < length (vecs s !!! b) ->
      exists num, (vecs s' !!! b) !!! k = (num / entry (mats s !!! A) k k)%F).
Proof.
  unfold back_substitute.
  pose (I := fun (c : nat) (_ : unit) (s' : state F) =>
    mats s' = mats s /\ next s' = next s /\
    length (vecs s' !!! b) = length (vecs s !!! b) /\
    forall k, n - c <= k < n -> k < length (vecs s !!! b) ->
      exists num, (vecs s' !!! b) !!! k = (num / entry (mats s !!! A) k k)%F).
  eapply returns_mono; [apply (returns_for_down n _ I)|].
  - repeat split. intros k Hk. lia.
  - intros c [] s' Hc (Hm & Hn & Hlen & Hdone). run. unfold I. cbn [vecs mats next].
    rewrite lookup_total_insert_eq, length_insert. repeat split; try assumption.
    intros k Hk Hkb. destruct (decide (k = n - 1 - c)) as [->|Hne].
    + rewrite list_lookup_total_insert_eq by lia. rewrite Hm. eauto.
    + rewrite list_lookup_total_insert_ne by congruence. apply Hdone; lia.
  - intros [] s' (Hm & Hn & Hlen & Hdone). repeat split; try assumption.
    intros k Hk Hkb. apply Hdone; lia.
Qed.

(** The same for the backward pass of [lu_solve] and the pivots [u[k, k]]. *)
Lemma lu_solve_quotients (l u : mref) (b : vref) (n : nat) (s : state F) :
  returns (lu_solve l u b n) s (fun x s' =>
    mats s' = mats s /\
    forall k, k < n ->
      exists num, (vecs s' !!! x) !!! k = (num / entry (mats s !!! u) k k)%F).
Proof.
  unfold lu_solve. run. apply returns_bind.
  eapply returns_mono;
    [apply (returns_for_range 0 n _ (fun _ _ s' => mats s' = mats s)); [lia|reflexivity|]|].
  { intros i [] s1 Hi Hm. apply returns_bind.
    eapply returns_mono;
      [apply (returns_for_each_pure _ _
                (fun j acc => (acc + entry (mats s1 !!! l) i j
                                     * (vecs s1 !!! next s) !!! j)%F));
       intros; reflexivity|].
    intros acc s2 [-> ->]. run. exact Hm. }
  intros [] s1 Hm1. run. apply returns_bind.
  set (x := next s1).
  pose (I := fun (c : nat) (_ : unit) (s' : state F) =>
    mats s' = mats s /\ length (vecs s' !!! x) = n /\
    forall k, n - c <= k < n ->
      exists num, (vecs s' !!! x) !!! k = (num / entry (mats s !!! u) k k)%F).
  eapply returns_mono; [apply (returns_for_down n _ I)|].
  - unfold I. cbn [vecs mats]. rewrite lookup_total_insert_eq. repeat split.
    + exact Hm1.
    + apply length_replicate.
    + intros k Hk. lia.
  - intros c [] s2 Hc (Hm & Hlen & Hdone). apply returns_bind.
    eapply returns_mono;
      [apply (returns_for_each_pure _ _
                (fun j acc => (acc + entry (mats s2 !!! u) (n - 1 - c)%nat j
                                     * (vecs s2 !!! x) !!! j)%F));
       intros; reflexivity|].
    intros acc s3 [-> ->]. run. unfold I. cbn [vecs mats].
    rewrite lookup_total_insert_eq, length_insert. repeat split; try assumption.
    intros k Hk. destruct (decide (k = n - 1 - c)) as [->|Hne].
    + rewrite list_lookup_total_insert_eq by lia. rewrite Hm. eauto.
    + rewrite list_lookup_total_insert_ne by congruence. apply Hdone; lia.
  - intros [] s2 (Hm & Hlen & Hdone). run. split; [exact Hm|].
    intros k Hk. apply Hdone; lia.
Qed.
End Pivots.

(** ** The rationals are an exact arithmetic *)

Lemma rational_exact : @ExactField Qc rational.
Proof.
  split; cbv [rational f0 f1 fadd fsub fmul fdiv fopp feqb fltb fleb eps].
  - destruct Qcft as [HR H10 Hdiv Hinv]. split.
    + exact HR.
    + exact H10.
    + intros p q. rewrite (Hdiv 1%Qc q), Hdiv, Qcmult_1_l. reflexivity.
    + intros p Hp. rewrite (Hdiv 1%Qc p), Qcmult_1_l. apply Hinv, Hp.
  - intros x y. rewrite Qeq_bool_iff. split; [apply Qc_is_canon | intros ->; reflexivity].
  - intros x. apply Qle_bool_iff, Qle_refl.
  - intros x y z. rewrite !Qle_bool_iff. apply Qle_trans.
  - intros x y. rewrite !Qle_bool_iff.
    destruct (Qlt_le_dec x y) as [Hlt|Hle]; [left; apply Qlt_le_weak, Hlt | right; exact Hle].
  - reflexivity.
  - intros x y z. rewrite !Qle_bool_iff. intros Hxy.
    unfold Qcplus, Q2Qc. cbn [this]. rewrite !Qred_correct.
    apply Qplus_le_compat; [exact Hxy | apply Qle_refl].
  - reflexivity.
Qed.

(** ** Zero pivots in binary64 *)

Section Binary64.
Local Existing Instance binary64.

(** A quotient by [0.0] or [-0.0] is an infinity or NaN. *)
Lemma division_by_zero (x z : spec_float) :
  B64.is_zero z = true -> B64.is_inf_or_nan (x / z)%F = true.
Proof. destruct z; try discriminate. intros _. destruct x; reflexivity. Qed.

(** C2, as the code has it.  Neither direct solver raises: on an [n] by
    [n] system both return, and wherever the
    pivot of the backward substitution is zero, [A[k, k]] of the
    eliminated working copy for [pivot_gauss] and [u[k, k]] for
    [lu_decomposition_doolittle], component [k] of the returned vector is
    an infinity or NaN.  (The working copy of [A] is the first object a
    call allocates, the factor [u] the fourth.) *)
Theorem zero_pivot_returns_inf_or_nan (A : mref) (b : vref) (n : nat)
    (s : state spec_float) :
  linear_system s A b n ->
  returns (pivot_gauss A b) s (fun x s' =>
    forall k, k < n ->
      B64.is_zero (entry (mats s' !!! next s) k k) = true ->
      B64.is_inf_or_nan ((vecs s' !!! x) !!! k) = true) /\
  returns (lu_decomposition_doolittle A b) s (fun x s' =>
    forall k, k < n ->
      B64.is_zero (entry (mats s' !!! (next s + 3)) k k) = true ->
      B64.is_inf_or_nan ((vecs s' !!! x) !!! k) = true).
Proof.
  intros [[<- _] Hlen]. split.
  - unfold pivot_gauss. run. rewrite lookup_total_insert_eq. apply returns_bind.
    eapply returns_mono; [apply elimination_length|].
    intros [] s1 [Hn1 Hl1]. cbn [vecs next] in Hn1, Hl1.
    rewrite lookup_total_insert_eq in Hl1. apply returns_bind.
    eapply returns_mono; [apply back_substitute_quotients|].
    intros [] s2 (Hm2 & Hn2 & Hq). run. intros k Hk Hz.
    destruct (Hq k Hk) as [num Hnum]; [lia|]. rewrite Hnum.
    apply division_by_zero. rewrite <- Hm2. exact Hz.
  - unfold lu_decomposition_doolittle. run. rewrite lookup_total_insert_eq.
    apply returns_bind.
    eapply returns_mono; [apply lu_factor_runs; cbn [next]; lia|].
    intros [l u] s1 ([= -> ->] & _ & _). cbn [fst snd next].
    eapply returns_mono; [apply lu_solve_quotients|].
    intros x s2 [Hm2 Hq] k Hk Hz.
    destruct (Hq k Hk) as [num Hnum]. rewrite Hnum.
    apply division_by_zero. rewrite <- Hm2.
    replace (S (S (S (next s)))) with (next s + 3) by lia. exact Hz.
Qed.
End Binary64.

(** ** Linear algebra in exact arithmetic *)

Section Algebra.
Context {F : Type} `{ExactField F}.

Add Field exact_algebra : exact_field.

Lemma accum_shift (s0 : F) l (f : nat -> F) :
  accum s0 l f = (s0 + accum f0 l f)%F.
Proof.
  revert s0. induction l as [|t l IH]; intros s0; simpl.
  - ring.
  - rewrite (IH (s0 + f t)%F), (IH (f0 + f t)%F). ring.
Qed.

Lemma accum_add (l : list nat) (f g : nat -> F) :
  accum f0 l (fun t => f t + g t)%F = (accum f0 l f + accum f0 l g)%F.
Proof.
  induction l as [|t l IH] using rev_ind; [simpl; ring|].
  rewrite !accum_snoc, IH. ring.
Qed.

Lemma accum_scale (a : F) (l : list nat) (f : nat -> F) :
  accum f0 l (fun t => a * f t)%F = (a * accum f0 l f)%F.
Proof.
  induction l as [|t l IH] using rev_ind; [simpl; ring|].
  rewrite !accum_snoc, IH. ring.
Qed.

Lemma accum_zero (l : list nat) (f : nat -> F) :
  (forall t, t ∈ l -> f t = f0) -> accum f0 l f = f0.
Proof.
  induction l as [|t l IH] using rev_ind; intros Hz; [reflexivity|].
  rewrite accum_snoc, IH by (intros t' Ht'; apply Hz, elem_of_app; left; exact Ht').
  rewrite (Hz t) by (apply elem_of_app; right; left). ring.
Qed.

Lemma accum_swap (l1 l2 : list nat) (f : nat -> nat -> F) :
  accum f0 l1 (fun i => accum f0 l2 (fun j => f i j))
  = accum f0 l2 (fun j => accum f0 l1 (fun i => f i j)).
Proof.
  induction l1 as [|i l1 IH] using rev_ind.
  - simpl. symmetry. apply accum_zero. reflexivity.
  - rewrite accum_snoc, IH. rewrite <- accum_add. apply accum_ext.
    intros j _. rewrite accum_snoc. reflexivity.
Qed.

(** [sum_range] by parts. *)
Lemma sum_range_split (lo mid hi : nat) (f : nat -> F) :
  lo <= mid <= hi ->
  sum_range lo hi f = (sum_range lo mid f + sum_range mid hi f)%F.
Proof.
  intros Hm. unfold sum_range.
  replace (hi - lo) with ((mid - lo) + (hi - mid)) by lia.
  rewrite seq_app, accum_app, accum_shift.
  replace (lo + (mid - lo)) with mid by lia. reflexivity.
Qed.

Lemma sum_range_one (i : nat) (f : nat -> F) : sum_range i (S i) f = f i.
Proof.
  unfold sum_range. replace (S i - i) with 1 by lia. simpl. ring.
Qed.

Lemma sum_range_at (n i : nat) (f : nat -> F) :
  i < n ->
  sum_range 0 n f = (sum_range 0 i f + f i + sum_range (S i) n f)%F.
Proof.
  intros Hi. rewrite (sum_range_split 0 i n) by lia.
  rewrite (sum_range_split i (S i) n) by lia. rewrite sum_range_one. ring.
Qed.

Lemma sum_except_at (n i : nat) (f : nat -> F) :
  i < n -> sum_range 0 n f = (sum_except n i f + f i)%F.
Proof.
  intros Hi. rewrite (sum_range_at n i) by exact Hi. unfold sum_except.
  rewrite accum_app, accum_shift. unfold sum_range. rewrite Nat.sub_0_r. ring.
Qed.

Lemma sum_range_ext_in (lo hi : nat) (f g : nat -> F) :
  (forall t, lo <= t < hi -> f t = g t) -> sum_range lo hi f = sum_range lo hi g.
Proof.
  intros Hfg. unfold sum_range. apply accum_ext.
  intros t Ht. apply elem_of_seq in Ht. apply Hfg. lia.
Qed.

Lemma sum_range_zero (lo hi : nat) (f : nat -> F) :
  (forall t, lo <= t < hi -> f t = f0) -> sum_range lo hi f = f0.
Proof.
  intros Hz. unfold sum_range. apply accum_zero.
  intros t Ht. apply elem_of_seq in Ht. apply Hz. lia.
Qed.

Lemma sum_range_add (lo hi : nat) (f g : nat -> F) :
  sum_range lo hi (fun t => f t + g t)%F = (sum_range lo hi f + sum_range lo hi g)%F.
Proof. apply accum_add. Qed.

Lemma sum_range_scale (a : F) (lo hi : nat) (f : nat -> F) :
  sum_range lo hi (fun t => a * f t)%F = (a * sum_range lo hi f)%F.
Proof. apply accum_scale. Qed.

Lemma sum_range_swap (n m : nat) (f : nat -> nat -> F) :
  sum_range 0 n (fun i => sum_range 0 m (fun j => f i j))
  = sum_range 0 m (fun j => sum_range 0 n (fun i => f i j)).
Proof. apply accum_swap. Qed.

(** [dot] of two vectors of length [n], and an entry of [dot(A, v)]. *)
Lemma dot_vv_sum (n : nat) (u v : vec F) :
  length u = n -> length v = n ->
  dot_vv u v = sum_range 0 n (fun t => u !!! t * v !!! t)%F.
Proof.
  intros Hu Hv. unfold dot_vv. rewrite dot_vv_accum by congruence.
  unfold sum_range. rewrite Hu, Nat.sub_0_r. reflexivity.
Qed.

Lemma entry_dot_mv (n : nat) (A : matrix F) (v : vec F) (i : nat) :
  square n A -> length v = n -> i < n ->
  dot_mv A v !!! i = sum_range 0 n (fun t => entry A i t * v !!! t)%F.
Proof.
  intros [HA Hrow] Hv Hi. unfold dot_mv.
  rewrite (list_lookup_total_fmap _ A i) by lia.
  apply dot_vv_sum; [apply Hrow, Hi | exact Hv].
Qed.

Lemma length_dot_mv (A : matrix F) (v : vec F) : length (dot_mv A v) = length A.
Proof. unfold dot_mv. apply length_fmap. Qed.

(** Two arrays of length [n] with the same components are equal. *)
Lemma vec_eq (n : nat) (u v : vec F) :
  length u = n -> length v = n -> (forall i, i < n -> u !!! i = v !!! i) -> u = v.
Proof.
  intros Hu Hv Huv. apply list_eq_same_length with n; [exact Hv | exact Hu |].
  intros i x y Hi Hx Hy. apply list_lookup_total_correct in Hx, Hy.
  rewrite <- Hx, <- Hy. apply Huv, Hi.
Qed.

(** That [x] solves the system, row by row. *)
Lemma solves_rows (n : nat) (A : matrix F) (x b : vec F) :
  square n A -> length x = n -> length b = n ->
  dot_mv A x = b <->
  forall i, i < n -> sum_range 0 n (fun t => entry A i t * x !!! t)%F = b !!! i.
Proof.
  intros HA Hx Hb. split.
  - intros <- i Hi. symmetry. apply entry_dot_mv; assumption.
  - intros Hrows. apply (vec_eq n); [rewrite length_dot_mv; apply HA | exact Hb|].
    intros i Hi. rewrite (entry_dot_mv n) by assumption. apply Hrows, Hi.
Qed.
End Algebra.

(** ** The generated system *)

Section GeneratorRuns.
Context {F : Type} `{Scalar F} `{OfInt F}.

Lemma get_equation_set_2_runs (n : nat) (s : state F) :
  returns (get_equation_set_2 n) s (fun Ab s' =>
    Ab = (next s, S (next s)) /\
    next s' = S (S (next s)) /\ stdout s' = stdout s /\
    (forall r, r <> S (next s) -> vecs s' !! r = vecs s !! r) /\
    (forall r, r <> next s -> mats s' !! r = mats s !! r) /\
    hilbert_partial n n 0 (mats s' !!! Ab.1) (vecs s' !!! Ab.2)).
Proof.
  unfold get_equation_set_2. run. apply returns_bind.
  pose (I := fun (i j : nat) (_ : unit) (s' : state F) =>
    next s' = S (S (next s)) /\ stdout s' = stdout s /\
    (forall r, r <> S (next s) -> vecs s' !! r = vecs s !! r) /\
    (forall r, r <> next s -> mats s' !! r = mats s !! r) /\
    hilbert_partial n i j (mats s' !!! next s) (vecs s' !!! S (next s))).
  eapply returns_mono; [apply (returns_for_range 0 n _ (fun i => I i 0)); [lia| |]|].
  - unfold I. cbn [vecs mats next stdout]. repeat split.
    + intros r Hr. rewrite lookup_insert_ne by congruence. reflexivity.
    + intros r Hr. rewrite lookup_insert_ne by congruence. reflexivity.
    + rewrite lookup_total_insert_eq. apply square_eye.
    + rewrite lookup_total_insert_eq. apply square_eye. 
    + rewrite lookup_total_insert_eq. apply length_replicate.
    + intros r c Hr Hc Hrc. lia.
    + intros r Hr. lia.
    + intros Hn. rewrite lookup_total_insert_eq. apply lookup_total_replicate_2. exact Hn.
    + intros r Hr. rewrite lookup_total_insert_eq. apply lookup_total_replicate_2. lia.
  - intros i [] s1 Hi HI.
    eapply returns_mono; [apply (returns_for_range 0 n _ (I i)); [lia|exact HI|]|].
    + intros j [] s2 Hj (Hn & Ho & Hv & Hm & (HA & Hb & Hent & Hdone & Hcur & Hrest)).
      run. unfold I. cbn [vecs mats next stdout]. rewrite !lookup_total_insert_eq.
      split; [exact Hn|]. split; [exact Ho|].
      split; [intros r Hr; rewrite lookup_insert_ne by congruence; apply Hv, Hr|].
      split; [intros r Hr; rewrite lookup_insert_ne by congruence; apply Hm, Hr|].
      split; [apply square_set_item2, HA|].
      split; [rewrite length_insert; exact Hb|].
      split; [|split; [|split]].
      * intros r c Hr Hc Hrc. destruct (decide (r = i /\ c = j)) as [[-> ->]|Hne].
        -- apply (entry_set_item2_eq n); [exact HA | lia | lia].
        -- rewrite entry_set_item2_ne by lia. apply Hent; lia.
      * intros r Hr. rewrite list_lookup_total_insert_ne by lia. apply Hdone, Hr.
      * intros _. rewrite list_lookup_total_insert_eq by lia.
        rewrite (entry_set_item2_eq n) by (assumption || lia).
        rewrite sum_range_S, Hcur by lia. reflexivity.
      * intros r Hr. rewrite list_lookup_total_insert_ne by lia. apply Hrest, Hr.
    + intros [] s2 (Hn & Ho & Hv & Hm & (HA & Hb & Hent & Hdone & Hcur & Hrest)).
      unfold I. do 6 (split; [assumption|]). split; [|split; [|split]].
      * intros r c Hr Hc Hrc. apply Hent; lia.
      * intros r Hr. destruct (decide (r = i)) as [->|Hne]; [apply Hcur; lia | apply Hdone; lia].
      * intros Hlt. unfold sum_range. simpl. apply Hrest. lia.
      * intros r Hr. apply Hrest. lia.
  - intros [] s1 (Hn & Ho & Hv & Hm & HP). run.
    do 5 (split; [first [reflexivity | assumption]|]). exact HP.
Qed.
End GeneratorRuns.

Section GeneratorFacts.
Context {F : Type} `{Scalar F} `{OfInt F}.

(** X1.  [get_equation_set_2(n)] returns two new arrays and touches nothing
    else: an [n] by [n] matrix [A] with [A[i, j] = 1 / (i + j + 1)] (the
    ones [eye] put on the diagonal are overwritten), which is symmetric,
    and a vector [b] of length [n] whose component [i] is the sum of row
    [i], added up from column 0. *)
Theorem get_equation_set_2_hilbert (n : nat) (s : state F) :
  returns (get_equation_set_2 n) s (fun Ab s' =>
    let A := mats s' !!! Ab.1 in
    let b := vecs s' !!! Ab.2 in
    private s Ab.1 /\ private s Ab.2 /\ unchanged s s' /\ stdout s' = stdout s /\
    linear_system s' Ab.1 Ab.2 n /\
    (forall i j, i < n -> j < n -> entry A i j = (f1 / of_int (i + j + 1))%F) /\
    (forall i j, i < n -> j < n -> entry A j i = entry A i j) /\
    (forall i, i < n -> b !!! i = sum_range 0 n (fun j => f1 / of_int (i + j + 1))%F)).
Proof.
  eapply returns_mono; [apply get_equation_set_2_runs|].
  intros [A b] s' ([= -> ->] & Hn & Ho & Hv & Hm & (HA & Hb & Hent & Hdone & _ & _)).
  cbn [fst snd]. cbv zeta. unfold private.
  split; [lia|]. split; [lia|]. split; [|split; [exact Ho|]].
  { split; [lia|]. intros r Hr. split; [apply Hv | apply Hm]; lia. }
  split; [split; assumption|]. split; [|split].
  - intros i j Hi Hj. apply Hent; lia.
  - intros i j Hi Hj. rewrite !Hent by lia. unfold hilbert.
    replace (j + i + 1) with (i + j + 1) by lia. reflexivity.
  - intros i Hi. apply Hdone, Hi.
Qed.
End GeneratorFacts.

Section GeneratorExact.
Context {F : Type} `{ExactField F} `{OfInt F}.
Add Field generator_exact : exact_field.

(** X2.  In exact arithmetic the system [get_equation_set_2(n)] returns has
    the vector of ones as a solution: [dot(A, ones(n)) = b]. *)
Theorem get_equation_set_2_solution (n : nat) (s : state F) :
  returns (get_equation_set_2 n) s (fun Ab s' =>
    dot_mv (mats s' !!! Ab.1) (replicate n f1) = vecs s' !!! Ab.2).
Proof.
  eapply returns_mono; [apply get_equation_set_2_runs|].
  intros [A b] s' (_ & _ & _ & _ & _ & (HA & Hb & Hent & Hdone & _ & _)).
  cbn [fst snd]. apply (solves_rows n); [exact HA | apply length_replicate | exact Hb |].
  intros i Hi. rewrite Hdone by exact Hi. apply sum_range_ext_in.
  intros t Ht. rewrite Hent, lookup_total_replicate_2 by lia. unfold hilbert. ring.
Qed.
End GeneratorExact.

Section SweepRuns.
Context {F : Type} `{Scalar F}.

Lemma sum_except_ext (n i : nat) (f g : nat -> F) :
  (forall j, j <> i -> f j = g j) -> sum_except n i f = sum_except n i g.
Proof.
  intros Hfg. unfold sum_except. apply accum_ext. intros j Hj.
  apply elem_of_app in Hj as [Hj|Hj]; apply elem_of_seq in Hj; apply Hfg; lia.
Qed.


Lemma sweeping_start (s : state F) (x : vref) n new :
  x < next s ->
  sweeping s x n 0 new
    (State (<[next s := vecs s !!! x]> (vecs s)) (mats s) (S (next s)) (stdout s)).
Proof.
  intros Hx. unfold sweeping, swept. cbn [vecs mats next stdout].
  rewrite lookup_total_insert_eq, lookup_total_insert_ne by lia.
  repeat split; try reflexivity.
  - intros r Hr Hr'. rewrite lookup_insert_ne by congruence. reflexivity.
  - intros i' Hi'. lia.
Qed.

(** Writing component [i]: the value written may depend on the components
    before [i] of the current iterate only. *)
Lemma sweeping_step (s s' : state F) (x : vref) n i new (a : F) :
  x < next s -> i < n -> n <= length (vecs s !!! x) ->
  sweeping s x n i new s' ->
  a = new (vecs s' !!! x) i ->
  (forall (xc xc' : vec F) k,
      (forall j, j < k -> xc' !!! j = xc !!! j) -> new xc' k = new xc k) ->
  sweeping s x n (S i) new
    (State (<[x := <[i := a]> (vecs s' !!! x)]> (vecs s')) (mats s') (next s') (stdout s')).
Proof.
  intros Hx Hi Hn ((Hm & Hnx & Ho & _ & Hy & Hfr) & Hlen & Hdone & Hrest) Ha Hnew.
  unfold sweeping, swept. cbn [vecs mats next stdout]. cbv zeta.
  rewrite !lookup_total_insert_eq.
  rewrite lookup_total_insert_ne by lia. rewrite length_insert.
  repeat split; try assumption.
  - intros r Hr Hr'. rewrite lookup_insert_ne by congruence. apply Hfr; assumption.
  - intros i' Hlt. destruct (decide (i' = i)) as [->|Hne].
    + rewrite list_lookup_total_insert_eq by lia. rewrite Ha.
      symmetry. apply Hnew. intros j Hj.
      rewrite list_lookup_total_insert_ne by lia. reflexivity.
    + rewrite list_lookup_total_insert_ne by congruence.
      rewrite Hdone by lia. symmetry. apply Hnew. intros j Hj.
      rewrite list_lookup_total_insert_ne by lia. reflexivity.
  - intros i' Hle. rewrite list_lookup_total_insert_ne by lia. apply Hrest. lia.
Qed.

Lemma mixed_stable (n : nat) i (xc xc' xo : vec F) (f : nat -> F) :
  (forall j, j < i -> xc' !!! j = xc !!! j) ->
  sum_except n i (fun j => f j * mixed i xc' xo j)%F
  = sum_except n i (fun j => f j * mixed i xc xo j)%F.
Proof.
  intros Hsame. apply sum_except_ext. intros j _. unfold mixed.
  destruct (Nat.ltb_spec j i); [rewrite Hsame by lia|]; reflexivity.
Qed.

(** One pass of the Jacobi loop. *)
Lemma jacobi_sweep_runs (A : mref) (b x : vref) (n : nat) (s : state F) :
  x < next s -> b < next s -> x <> b -> n <= length (vecs s !!! x) ->
  returns (jacobi_sweep A b x n) s (fun y s' =>
    y = next s /\ swept s x (vecs s' !!! x) s' /\
    length (vecs s' !!! x) = length (vecs s !!! x) /\
    jacobi_step n (mats s !!! A) (vecs s !!! b) (vecs s !!! x) (vecs s' !!! x) /\
    (forall i, n <= i -> (vecs s' !!! x) !!! i = (vecs s !!! x) !!! i)).
Proof.
  intros Hx Hb Hxb Hn. unfold jacobi_sweep.
  set (new := fun (_ : vec F) i =>
    jacobi_value n (mats s !!! A) (vecs s !!! b) (fun j => (vecs s !!! x) !!! j) i).
  run. apply returns_bind.
  eapply returns_mono;
    [apply (returns_for_range 0 n _ (fun i _ s' => sweeping s x n i new s')); [lia| |]|].
  - apply sweeping_start, Hx.
  - intros i [] s' Hi HI. pose proof HI as ((Hm & Hnx & Ho & _ & Hy & Hfr) & _).
    apply returns_bind.
    eapply returns_mono;
      [apply (returns_for_each_pure _ _
                (fun j acc => if negb (Nat.eqb j i)
                              then (acc + entry (mats s !!! A) i j * (vecs s !!! x) !!! j)%F
                              else acc))|].
    { intros j acc _. destruct (negb (Nat.eqb j i)); [|reflexivity].
      cbv [bind get2 get1 load_m load_v ret]. rewrite Hm, Hy. reflexivity. }
    intros acc s'' [-> ->]. run.
    apply (sweeping_step s s' x n i new); try assumption; [lia| |reflexivity].
    unfold new, jacobi_value. unfold range. rewrite Nat.sub_0_r, skip_fold_range by lia.
    rewrite Hm. rewrite (lookup_total_alt (vecs s') b), Hfr, <- lookup_total_alt by lia.
    reflexivity.
  - intros [] s' (Hsw & Hlen & Hdone & Hrest). run.
    split; [reflexivity|]. split; [exact Hsw|]. split; [exact Hlen|].
    split; [exact Hdone | exact Hrest].
Qed.

(** One pass of the Gauss-Seidel loop. *)
Lemma gauss_seidel_sweep_runs (A : mref) (b x : vref) (n : nat) (s : state F) :
  x < next s -> b < next s -> x <> b -> n <= length (vecs s !!! x) ->
  returns (gauss_seidel_sweep A b x n) s (fun y s' =>
    y = next s /\ swept s x (vecs s' !!! x) s' /\
    length (vecs s' !!! x) = length (vecs s !!! x) /\
    gauss_seidel_step n (mats s !!! A) (vecs s !!! b) (vecs s !!! x) (vecs s' !!! x) /\
    (forall i, n <= i -> (vecs s' !!! x) !!! i = (vecs s !!! x) !!! i)).
Proof.
  intros Hx Hb Hxb Hn. unfold gauss_seidel_sweep.
  set (new := fun (xc : vec F) i =>
    jacobi_value n (mats s !!! A) (vecs s !!! b) (mixed i xc (vecs s !!! x)) i).
  run. apply returns_bind.
  eapply returns_mono;
    [apply (returns_for_range 0 n _ (fun i _ s' => sweeping s x n i new s')); [lia| |]|].
  - apply sweeping_start, Hx.
  - intros i [] s' Hi HI.
    pose proof HI as ((Hm & Hnx & Ho & _ & Hy & Hfr) & Hlen & Hdone & Hrest).
    cbv zeta in Hrest.
    apply returns_bind.
    eapply returns_mono;
      [apply (returns_for_each_pure _ _
                (fun j acc => if negb (Nat.eqb j i)
                              then (acc + entry (mats s !!! A) i j * (vecs s' !!! x) !!! j)%F
                              else acc))|].
    { intros j acc _. destruct (negb (Nat.eqb j i)); [|reflexivity].
      cbv [bind get2 get1 load_m load_v ret]. rewrite Hm. reflexivity. }
    intros acc s'' [-> ->]. run.
    apply (sweeping_step s s' x n i new); try assumption; [lia| |].
    + unfold new, jacobi_value. unfold range. rewrite Nat.sub_0_r, skip_fold_range by lia.
      rewrite Hm. rewrite (lookup_total_alt (vecs s') b), Hfr, <- lookup_total_alt by lia.
      do 2 f_equal. apply sum_except_ext. intros j Hj. unfold mixed.
      destruct (Nat.ltb_spec j i); [reflexivity|]. rewrite Hrest by lia. reflexivity.
    + intros xc xc' k Hsame. unfold new, jacobi_value. do 2 f_equal.
      apply mixed_stable, Hsame.
  - intros [] s' (Hsw & Hlen & Hdone & Hrest). run.
    split; [reflexivity|]. split; [exact Hsw|]. split; [exact Hlen|].
    split; [exact Hdone | exact Hrest].
Qed.

(** One pass of the SOR loop. *)
Lemma sor_sweep_runs (A : mref) (b : vref) (w : F) (x : vref) (n : nat) (s : state F) :
  x < next s -> b < next s -> x <> b -> n <= length (vecs s !!! x) ->
  returns (sor_sweep A b w x n) s (fun y s' =>
    y = next s /\ swept s x (vecs s' !!! x) s' /\
    length (vecs s' !!! x) = length (vecs s !!! x) /\
    sor_step w n (mats s !!! A) (vecs s !!! b) (vecs s !!! x) (vecs s' !!! x) /\
    (forall i, n <= i -> (vecs s' !!! x) !!! i = (vecs s !!! x) !!! i)).
Proof.
  intros Hx Hb Hxb Hn. unfold sor_sweep.
  set (new := fun (xc : vec F) i =>
    sor_value n (mats s !!! A) (vecs s !!! b) w (mixed i xc (vecs s !!! x))
      ((vecs s !!! x) !!! i) i).
  run. apply returns_bind.
  eapply returns_mono;
    [apply (returns_for_range 0 n _ (fun i _ s' => sweeping s x n i new s')); [lia| |]|].
  - apply sweeping_start, Hx.
  - intros i [] s' Hi HI.
    pose proof HI as ((Hm & Hnx & Ho & _ & Hy & Hfr) & Hlen & Hdone & Hrest).
    cbv zeta in Hrest.
    apply returns_bind.
    eapply returns_mono;
      [apply (returns_for_each_pure _ _
                (fun j acc => if negb (Nat.eqb j i)
                              then (acc + entry (mats s !!! A) i j * (vecs s' !!! x) !!! j)%F
                              else acc))|].
    { intros j acc _. destruct (negb (Nat.eqb j i)); [|reflexivity].
      cbv [bind get2 get1 load_m load_v ret]. rewrite Hm. reflexivity. }
    intros acc s'' [-> ->]. run.
    apply (sweeping_step s s' x n i new); try assumption; [lia| |].
    + unfold new, sor_value. unfold range. rewrite Nat.sub_0_r, skip_fold_range by lia.
      rewrite Hm. rewrite (lookup_total_alt (vecs s') b), Hfr, <- lookup_total_alt by lia.
      rewrite (Hrest i) by lia.
      do 4 f_equal. apply sum_except_ext. intros j Hj. unfold mixed.
      destruct (Nat.ltb_spec j i); [reflexivity|]. rewrite Hrest by lia. reflexivity.
    + intros xc xc' k Hsame. unfold new, sor_value. do 4 f_equal.
      apply mixed_stable, Hsame.
  - intros [] s' (Hsw & Hlen & Hdone & Hrest). run.
    split; [reflexivity|]. split; [exact Hsw|]. split; [exact Hlen|].
    split; [exact Hdone | exact Hrest].
Qed.
End SweepRuns.

Section SweepExact.
Context {F : Type} `{ExactField F}.
Add Field sweep_exact : exact_field.

Lemma quotient_iff (a b e v : F) :
  a <> f0 -> v = ((b - e) / a)%F <-> (e + a * v)%F = b.
Proof.
  intros Ha. split.
  - intros ->. field. exact Ha.
  - intros <-. field. exact Ha.
Qed.

Lemma relaxed_of_solution (w a b e v : F) :
  a <> f0 -> (e + a * v)%F = b -> v = ((f1 - w) * v + w * (b - e) / a)%F.
Proof. intros Ha <-. field. exact Ha. Qed.

Lemma solution_of_relaxed (w a b e v : F) :
  w <> f0 -> a <> f0 ->
  v = ((f1 - w) * v + w * (b - e) / a)%F -> (e + a * v)%F = b.
Proof.
  intros Hw Ha Hv. apply quotient_iff; [exact Ha|].
  transitivity ((w * v) / w)%F; [field; exact Hw|].
  transitivity (((f1 - w) * v + w * (b - e) / a - (f1 - w) * v) / w)%F.
  - rewrite <- Hv. field. exact Hw.
  - field. split; assumption.
Qed.

(** A row of the system, split at the diagonal. *)
Lemma row_at_diagonal (n : nat) (A : matrix F) (x : vec F) (i : nat) :
  i < n ->
  sum_range 0 n (fun t => entry A i t * x !!! t)%F
  = (sum_except n i (fun j => entry A i j * x !!! j) + entry A i i * x !!! i)%F.
Proof. intros Hi. apply (sum_except_at n i). exact Hi. Qed.

Lemma mixed_same (i : nat) (x : vec F) (j : nat) : mixed i x x j = x !!! j.
Proof. unfold mixed. destruct (Nat.ltb j i); reflexivity. Qed.

Lemma mixed_agree (i : nat) (xn xo : vec F) (j : nat) :
  (forall k, k < i -> xn !!! k = xo !!! k) -> mixed i xn xo j = xo !!! j.
Proof.
  intros Hsame. unfold mixed. destruct (Nat.ltb_spec j i); [apply Hsame; lia | reflexivity].
Qed.

(** The system, row by row, as the value each method would write. *)
Lemma solves_jacobi_value (n : nat) (A : matrix F) (b x : vec F) :
  square n A -> length b = n -> length x = n ->
  (forall i, i < n -> entry A i i <> f0) ->
  dot_mv A x = b <->
  forall i, i < n -> x !!! i = jacobi_value n A b (fun j => x !!! j) i.
Proof.
  intros HA Hb Hx Hdiag. rewrite (solves_rows n) by assumption.
  split; intros Hall i Hi.
  - apply quotient_iff; [apply Hdiag, Hi|].
    rewrite <- (Hall i Hi), row_at_diagonal by exact Hi. reflexivity.
  - rewrite row_at_diagonal by exact Hi.
    apply quotient_iff; [apply Hdiag, Hi | apply Hall, Hi].
Qed.

Lemma jacobi_value_ext (n : nat) (A : matrix F) (b : vec F) (f g : nat -> F) i :
  (forall j, j <> i -> f j = g j) -> jacobi_value n A b f i = jacobi_value n A b g i.
Proof.
  intros Hfg. unfold jacobi_value. do 2 f_equal. apply sum_except_ext.
  intros j Hj. rewrite Hfg by exact Hj. reflexivity.
Qed.

Lemma sor_value_ext (n : nat) (A : matrix F) (b : vec F) w (f g : nat -> F) xi i :
  (forall j, j <> i -> f j = g j) -> sor_value n A b w f xi i = sor_value n A b w g xi i.
Proof.
  intros Hfg. unfold sor_value. do 4 f_equal. apply sum_except_ext.
  intros j Hj. rewrite Hfg by exact Hj. reflexivity.
Qed.

Lemma sor_value_relaxes (n : nat) (A : matrix F) (b : vec F) w rest xi i :
  sor_value n A b w rest xi i
  = ((f1 - w) * xi + w * (b !!! i - sum_except n i (fun j => entry A i j * rest j))
                     / entry A i i)%F.
Proof. reflexivity. Qed.

(** A solution is left as it is by a pass of each method. *)
Lemma jacobi_step_of_solution (n : nat) (A : matrix F) (b xo xn : vec F) :
  square n A -> length b = n -> length xo = n -> length xn = n ->
  (forall i, i < n -> entry A i i <> f0) ->
  dot_mv A xo = b -> jacobi_step n A b xo xn -> xn = xo.
Proof.
  intros HA Hb Hxo Hxn Hdiag Hsol Hstep.
  pose proof (proj1 (solves_jacobi_value n A b xo HA Hb Hxo Hdiag) Hsol) as Hval.
  apply (vec_eq n); [exact Hxn | exact Hxo |].
  intros i Hi. rewrite (Hstep i Hi), (Hval i Hi). reflexivity.
Qed.

Lemma gauss_seidel_step_of_solution (n : nat) (A : matrix F) (b xo xn : vec F) :
  square n A -> length b = n -> length xo = n -> length xn = n ->
  (forall i, i < n -> entry A i i <> f0) ->
  dot_mv A xo = b -> gauss_seidel_step n A b xo xn -> xn = xo.
Proof.
  intros HA Hb Hxo Hxn Hdiag Hsol Hstep.
  pose proof (proj1 (solves_jacobi_value n A b xo HA Hb Hxo Hdiag) Hsol) as Hval.
  apply (vec_eq n); [exact Hxn | exact Hxo |].
  intros i. induction i as [i IH] using lt_wf_ind. intros Hi.
  rewrite (Hstep i Hi), (Hval i Hi). apply jacobi_value_ext.
  intros j _. apply mixed_agree. intros k Hk. apply IH; lia.
Qed.

Lemma sor_step_of_solution (w : F) (n : nat) (A : matrix F) (b xo xn : vec F) :
  square n A -> length b = n -> length xo = n -> length xn = n ->
  (forall i, i < n -> entry A i i <> f0) ->
  dot_mv A xo = b -> sor_step w n A b xo xn -> xn = xo.
Proof.
  intros HA Hb Hxo Hxn Hdiag Hsol Hstep.
  rewrite (solves_rows n) in Hsol by assumption.
  apply (vec_eq n); [exact Hxn | exact Hxo |].
  intros i. induction i as [i IH] using lt_wf_ind. intros Hi.
  rewrite (Hstep i Hi).
  rewrite (sor_value_ext n A b w _ (fun j => xo !!! j))
    by (intros j _; apply mixed_agree; intros k Hk; apply IH; lia).
  rewrite sor_value_relaxes. symmetry.
  apply relaxed_of_solution; [apply Hdiag, Hi|].
  rewrite <- (Hsol i Hi), row_at_diagonal by exact Hi. reflexivity.
Qed.

(** An iterate that a pass leaves as it is solves the system. *)
Lemma solution_of_jacobi_step (n : nat) (A : matrix F) (b x : vec F) :
  square n A -> length b = n -> length x = n ->
  (forall i, i < n -> entry A i i <> f0) ->
  jacobi_step n A b x x -> dot_mv A x = b.
Proof.
  intros HA Hb Hx Hdiag Hstep. apply (solves_jacobi_value n); assumption.
Qed.

Lemma solution_of_gauss_seidel_step (n : nat) (A : matrix F) (b x : vec F) :
  square n A -> length b = n -> length x = n ->
  (forall i, i < n -> entry A i i <> f0) ->
  gauss_seidel_step n A b x x -> dot_mv A x = b.
Proof.
  intros HA Hb Hx Hdiag Hstep. apply (solves_jacobi_value n); try assumption.
  intros i Hi. rewrite (Hstep i Hi) at 1. apply jacobi_value_ext.
  intros j _. apply mixed_same.
Qed.

Lemma solution_of_sor_step (w : F) (n : nat) (A : matrix F) (b x : vec F) :
  square n A -> length b = n -> length x = n ->
  w <> f0 -> (forall i, i < n -> entry A i i <> f0) ->
  sor_step w n A b x x -> dot_mv A x = b.
Proof.
  intros HA Hb Hx Hw Hdiag Hstep. apply (solves_rows n); try assumption.
  intros i Hi. rewrite row_at_diagonal by exact Hi.
  apply (solution_of_relaxed w); [exact Hw | apply Hdiag, Hi|].
  rewrite (Hstep i Hi) at 1.
  rewrite (sor_value_ext n A b w _ (fun j => x !!! j)) by (intros j _; apply mixed_same).
  apply sor_value_relaxes.
Qed.

(** X5.  In exact arithmetic, with a nonzero diagonal: one pass of the
    Jacobi loop leaves the iterate as it was exactly when the iterate
    solves the system. *)
Theorem jacobi_sweep_fixed_point (A : mref) (b x : vref) (n : nat) (s : state F) :
  x < next s -> b < next s -> x <> b ->
  linear_system s A b n -> length (vecs s !!! x) = n ->
  (forall i, i < n -> entry (mats s !!! A) i i <> f0) ->
  returns (jacobi_sweep A b x n) s (fun _ s' =>
    vecs s' !!! x = vecs s !!! x <->
    dot_mv (mats s !!! A) (vecs s !!! x) = vecs s !!! b).
Proof.
  intros Hx Hb Hxb [HA Hbn] Hxn Hdiag.
  eapply returns_mono; [apply jacobi_sweep_runs; [assumption..|lia]|].
  intros y s' (_ & _ & Hlen & Hstep & _). cbv beta. split.
  - intros Heq. rewrite Heq in Hstep. apply (solution_of_jacobi_step n); assumption.
  - intros Hsol. apply (jacobi_step_of_solution n (mats s !!! A) (vecs s !!! b));
      try assumption. lia.
Qed.

(** X6.  The same for one pass of the Gauss-Seidel loop. *)
Theorem gauss_seidel_sweep_fixed_point (A : mref) (b x : vref) (n : nat) (s : state F) :
  x < next s -> b < next s -> x <> b ->
  linear_system s A b n -> length (vecs s !!! x) = n ->
  (forall i, i < n -> entry (mats s !!! A) i i <> f0) ->
  returns (gauss_seidel_sweep A b x n) s (fun _ s' =>
    vecs s' !!! x = vecs s !!! x <->
    dot_mv (mats s !!! A) (vecs s !!! x) = vecs s !!! b).
Proof.
  intros Hx Hb Hxb [HA Hbn] Hxn Hdiag.
  eapply returns_mono; [apply gauss_seidel_sweep_runs; [assumption..|lia]|].
  intros y s' (_ & _ & Hlen & Hstep & _). cbv beta. split.
  - intros Heq. rewrite Heq in Hstep. apply (solution_of_gauss_seidel_step n); assumption.
  - intros Hsol. apply (gauss_seidel_step_of_solution n (mats s !!! A) (vecs s !!! b));
      try assumption. lia.
Qed.

(** X7.  The same for one pass of the SOR loop, for a relaxation factor
    [w] other than zero. *)
Theorem sor_sweep_fixed_point (A : mref) (b : vref) (w : F) (x : vref) (n : nat)
    (s : state F) :
  x < next s -> b < next s -> x <> b ->
  linear_system s A b n -> length (vecs s !!! x) = n ->
  w <> f0 -> (forall i, i < n -> entry (mats s !!! A) i i <> f0) ->
  returns (sor_sweep A b w x n) s (fun _ s' =>
    vecs s' !!! x = vecs s !!! x <->
    dot_mv (mats s !!! A) (vecs s !!! x) = vecs s !!! b).
Proof.
  intros Hx Hb Hxb [HA Hbn] Hxn Hw Hdiag.
  eapply returns_mono; [apply sor_sweep_runs; [assumption..|lia]|].
  intros y s' (_ & _ & Hlen & Hstep & _). cbv beta. split.
  - intros Heq. rewrite Heq in Hstep. apply (solution_of_sor_step w n); assumption.
  - intros Hsol. apply (sor_step_of_solution w n (mats s !!! A) (vecs s !!! b));
      try assumption. lia.
Qed.
End SweepExact.

Section Substitution.
Context {F : Type} `{Scalar F}.


Lemma forward_step (L : matrix F) (b y : vec F) (i : nat) :
  i < length y -> forward L b y i ->
  forward L b (<[i := (b !!! i - sum_range 0 i (fun j => entry L i j * y !!! j))%F]> y) (S i).
Proof.
  intros Hi Hdone k Hk.
  assert (forall m, m <= i ->
            sum_range 0 m (fun j => entry L k j * <[i := (b !!! i - sum_range 0 i (fun j => entry L i j * y !!! j))%F]> y !!! j)%F
            = sum_range 0 m (fun j => entry L k j * y !!! j)%F) as Hsum.
  { intros m Hm. apply sum_range_ext_in. intros t Ht.
    rewrite list_lookup_total_insert_ne by lia. reflexivity. }
  destruct (decide (k = i)) as [->|Hne].
  - rewrite list_lookup_total_insert_eq by exact Hi. rewrite Hsum by lia. reflexivity.
  - rewrite list_lookup_total_insert_ne by congruence. rewrite Hsum by lia.
    apply Hdone. lia.
Qed.

Lemma backward_step (n : nat) (U : matrix F) (y x : vec F) (i : nat) :
  i < n -> n <= length x -> backward n U y x (S i) ->
  backward n U y
    (<[i := ((y !!! i - sum_range (S i) n (fun j => entry U i j * x !!! j))
             / entry U i i)%F]> x) i.
Proof.
  intros Hi Hn Hdone k Hk.
  assert (forall m, i <= m ->
            sum_range (S m) n (fun j => entry U k j * <[i := ((y !!! i - sum_range (S i) n (fun j => entry U i j * x !!! j)) / entry U i i)%F]> x !!! j)%F
            = sum_range (S m) n (fun j => entry U k j * x !!! j)%F) as Hsum.
  { intros m Hm. apply sum_range_ext_in. intros t Ht.
    rewrite list_lookup_total_insert_ne by lia. reflexivity. }
  destruct (decide (k = i)) as [->|Hne].
  - rewrite list_lookup_total_insert_eq by lia. rewrite Hsum by lia. reflexivity.
  - rewrite list_lookup_total_insert_ne by congruence. rewrite Hsum by lia.
    apply Hdone. lia.
Qed.

(** [lu_solve] returns a new array [x]; with [y] the other array it
    allocates, [y] is the result of the forward and [x] of the backward
    substitution. *)
Lemma lu_solve_runs (l u : mref) (b : vref) (n : nat) (s : state F) :
  b < next s ->
  returns (lu_solve l u b n) s (fun x s' =>
    x = S (next s) /\ mats s' = mats s /\ next s' = S (S (next s)) /\
    stdout s' = stdout s /\
    (forall r, r < next s -> vecs s' !! r = vecs s !! r) /\
    length (vecs s' !!! x) = n /\ length (vecs s' !!! next s) = n /\
    forward (mats s !!! l) (vecs s !!! b) (vecs s' !!! next s) n /\
    backward n (mats s !!! u) (vecs s' !!! next s) (vecs s' !!! x) 0).
Proof.
  intros Hb. unfold lu_solve. run. apply returns_bind.
  set (y := next s).
  pose (I := fun (i : nat) (_ : unit) (s' : state F) =>
    mats s' = mats s /\ next s' = S (next s) /\ stdout s' = stdout s /\
    (forall r, r < next s -> vecs s' !! r = vecs s !! r) /\
    length (vecs s' !!! y) = n /\
    forward (mats s !!! l) (vecs s !!! b) (vecs s' !!! y) i).
  eapply returns_mono; [apply (returns_for_range 0 n _ I); [lia| |]|].
  - unfold I, y. cbn [vecs mats next stdout]. rewrite lookup_total_insert_eq.
    do 3 (split; [reflexivity|]).
    split; [intros r Hr; rewrite lookup_insert_ne by lia; reflexivity|].
    split; [apply length_replicate|]. intros k Hk. lia.
  - intros i [] s1 Hi (Hm & Hnx & Ho & Hfr & Hlen & Hdone). apply returns_bind.
    eapply returns_mono;
      [apply (returns_for_each_pure _ _
                (fun j acc => (acc + entry (mats s1 !!! l) i j
                                     * (vecs s1 !!! y) !!! j)%F));
       intros; reflexivity|].
    intros acc s2 [-> ->]. run. unfold I. cbn [vecs mats next stdout].
    rewrite lookup_total_insert_eq, length_insert.
    do 3 (split; [assumption|]).
    split; [intros r Hr; rewrite lookup_insert_ne by (unfold y; lia); apply Hfr, Hr|].
    split; [exact Hlen|].
    rewrite Hm. rewrite (lookup_total_alt (vecs s1) b), Hfr, <- lookup_total_alt by exact Hb.
    apply forward_step; [lia | exact Hdone].
  - intros [] s1 (Hm1 & Hnx1 & Ho1 & Hfr1 & Hlen1 & Hfw). run. apply returns_bind.
    rewrite Hnx1. set (x := S (next s)).
    pose (J := fun (c : nat) (_ : unit) (s' : state F) =>
      mats s' = mats s /\ next s' = S (S (next s)) /\ stdout s' = stdout s /\
      (forall r, r < next s -> vecs s' !! r = vecs s !! r) /\
      vecs s' !!! y = vecs s1 !!! y /\
      length (vecs s' !!! x) = n /\
      backward n (mats s !!! u) (vecs s1 !!! y) (vecs s' !!! x) (n - c)).
    eapply returns_mono; [apply (returns_for_down n _ J)|].
    + unfold J, x, y. cbn [vecs mats next stdout]. rewrite lookup_total_insert_eq.
      split; [exact Hm1|]. split; [reflexivity|]. split; [exact Ho1|].
      split; [intros r Hr; rewrite lookup_insert_ne by lia; apply Hfr1, Hr|].
      split; [rewrite lookup_total_insert_ne by lia; reflexivity|].
      split; [apply length_replicate|]. intros k Hk. lia.
    + intros c [] s2 Hc (Hm & Hnx & Ho & Hfr & Hy & Hlen & Hdone). apply returns_bind.
      eapply returns_mono;
        [apply (returns_for_each_pure _ _
                  (fun j acc => (acc + entry (mats s2 !!! u) (n - 1 - c)%nat j
                                       * (vecs s2 !!! x) !!! j)%F));
         intros; reflexivity|].
      intros acc s3 [-> ->]. run. unfold J. cbn [vecs mats next stdout].
      rewrite lookup_total_insert_eq, length_insert.
      do 3 (split; [assumption|]).
      split; [intros r Hr; rewrite lookup_insert_ne by (unfold x; lia); apply Hfr, Hr|].
      split; [rewrite lookup_total_insert_ne by (unfold x, y; lia); exact Hy|].
      split; [exact Hlen|].
      rewrite Hm, Hy. unfold range.
      replace (n - (n - 1 - c + 1)) with (n - S (n - 1 - c)) by lia.
      replace (n - 1 - c + 1) with (S (n - 1 - c)) by lia.
      replace (n - S c) with (n - 1 - c) by lia.
      apply (backward_step n); [lia | lia |].
      replace (S (n - 1 - c)) with (n - c) by lia. exact Hdone.
    + intros [] s2 (Hm & Hnx & Ho & Hfr & Hy & Hlen & Hdone). run.
      split; [reflexivity|]. do 4 (split; [assumption|]).
      split; [exact Hlen|]. split; [rewrite Hy; exact Hlen1|].
      rewrite Hy. split; [exact Hfw|].
      replace (n - n) with 0 in Hdone by lia. exact Hdone.
Qed.
End Substitution.

Section DoolittleSolves.
Context {F : Type} `{ExactField F}.
Add Field doolittle_exact : exact_field.

(** A unit lower triangular system solved forwards. *)
Lemma forward_solves (n : nat) (L : matrix F) (b y : vec F) (i : nat) :
  (forall r c, r < n -> c < n -> r <= c -> entry L r c = if Nat.eqb r c then f1 else f0) ->
  forward L b y n -> i < n ->
  sum_range 0 n (fun t => entry L i t * y !!! t)%F = b !!! i.
Proof.
  intros HL Hfw Hi. rewrite (sum_range_at n i) by exact Hi.
  rewrite (sum_range_zero (S i) n) by
    (intros t Ht; rewrite HL by lia; destruct (Nat.eqb_spec i t); [lia | ring]).
  rewrite (HL i i), Nat.eqb_refl by lia. rewrite (Hfw i Hi). ring.
Qed.

(** An upper triangular system with nonzero diagonal solved backwards. *)
Lemma backward_solves (n : nat) (U : matrix F) (y x : vec F) (i : nat) :
  (forall r c, r < n -> c < n -> c < r -> entry U r c = f0) ->
  (forall k, k < n -> entry U k k <> f0) ->
  backward n U y x 0 -> i < n ->
  sum_range 0 n (fun t => entry U i t * x !!! t)%F = y !!! i.
Proof.
  intros HU Hpivot Hbw Hi. rewrite (sum_range_at n i) by exact Hi.
  rewrite (sum_range_zero 0 i) by (intros t Ht; rewrite HU by lia; ring).
  rewrite (Hbw i) at 1 by lia. field. apply Hpivot, Hi.
Qed.

(** [A x = L (U x)] when [A = L U]. *)
Lemma product_solves (n : nat) (A L U : matrix F) (b y x : vec F) (i : nat) :
  (forall r c, r < n -> c < n ->
     sum_range 0 n (fun t => entry L r t * entry U t c)%F = entry A r c) ->
  (forall r, r < n -> sum_range 0 n (fun t => entry U r t * x !!! t)%F = y !!! r) ->
  (forall r, r < n -> sum_range 0 n (fun t => entry L r t * y !!! t)%F = b !!! r) ->
  i < n ->
  sum_range 0 n (fun j => entry A i j * x !!! j)%F = b !!! i.
Proof.
  intros HLU HUx HLy Hi. rewrite <- (HLy i Hi).
  transitivity (sum_range 0 n (fun j =>
                  sum_range 0 n (fun t => entry L i t * (entry U t j * x !!! j)))%F).
  { apply sum_range_ext_in. intros j Hj. rewrite <- (HLU i j) by lia.
    transitivity (x !!! j * sum_range 0 n (fun t => entry L i t * entry U t j))%F;
      [ring|].
    rewrite <- sum_range_scale. apply sum_range_ext_in. intros t _. ring. }
  rewrite sum_range_swap. apply sum_range_ext_in. intros t Ht.
  rewrite sum_range_scale, HUx by lia. reflexivity.
Qed.

(** X4.  In exact arithmetic, on an [n] by [n] system: if no pivot
    [u[k, k]] is zero ([u] is the fourth object the call allocates), the
    vector [lu_decomposition_doolittle] returns solves the system,
    [dot(A, x) = b]. *)
Theorem lu_decomposition_doolittle_solves (A : mref) (b : vref) (n : nat) (s : state F) :
  linear_system s A b n ->
  returns (lu_decomposition_doolittle A b) s (fun x s' =>
    (forall k, k < n -> entry (mats s' !!! (next s + 3)) k k <> f0) ->
    dot_mv (mats s !!! A) (vecs s' !!! x) = vecs s !!! b).
Proof.
  intros [HA Hb]. pose proof HA as [HAlen _].
  unfold lu_decomposition_doolittle. run. rewrite lookup_total_insert_eq, HAlen.
  apply returns_bind.
  eapply returns_mono; [apply lu_factor_runs; cbn [next]; lia|].
  intros [l u] s1 ([= -> ->] & Hfr & HP). cbn [fst snd next mats vecs] in *.
  rewrite lookup_total_insert_eq in HP.
  pose proof Hfr as (Hv1 & Hn1 & _ & _).
  eapply returns_mono; [apply lu_solve_runs; rewrite Hn1; cbn [next]; lia|].
  intros x s2 (-> & Hm2 & _ & _ & _ & Hlx & Hly & Hfw & Hbw) Hpivot.
  rewrite Hn1 in *. cbn [next vecs] in *.
  replace (next s + 3) with (S (S (S (next s)))) in Hpivot by lia.
  rewrite Hm2 in Hpivot.
  rewrite Hv1 in Hfw. cbn [vecs] in Hfw. rewrite lookup_total_insert_eq in Hfw.
  pose proof HP as (HL & HU & HU1 & HU0 & HL1 & HL0).
  apply (solves_rows n); [exact HA | exact Hlx | exact Hb |].
  intros i Hi.
  apply (product_solves n _ (mats s1 !!! S (S (next s))) (mats s1 !!! S (S (S (next s))))
           _ (vecs s2 !!! S (S (S (S (next s))))));
    [| | |exact Hi].
  - intros r c Hr Hc. apply (lu_partial_product n _ _ _ r c HP Hpivot Hr Hc).
  - intros r Hr. apply (backward_solves n); try assumption.
    intros r' c' Hr' Hc' Hlt. apply HU0; lia.
  - intros r Hr. apply (forward_solves n); try assumption.
    intros r' c' Hr' Hc' Hle. apply HL0; lia.
Qed.
End DoolittleSolves.

Section EliminationShapes.
Context {F : Type} `{Scalar F}.

Lemma swap_rows_lookup {X} `{Inhabited X} (i j : nat) (l : list X) (r : nat) :
  i < length l -> j < length l -> i <> j ->
  swap_rows i j l !!! r = if Nat.eqb r i then l !!! j else if Nat.eqb r j then l !!! i else l !!! r.
Proof.
  intros Hi Hj Hij. unfold swap_rows.
  destruct (Nat.eqb_spec r i) as [->|Hri].
  - rewrite list_lookup_total_insert_ne by congruence.
    apply list_lookup_total_insert_eq. exact Hi.
  - destruct (Nat.eqb_spec r j) as [->|Hrj].
    + apply list_lookup_total_insert_eq. rewrite length_insert. exact Hj.
    + rewrite !list_lookup_total_insert_ne by congruence. reflexivity.
Qed.

Lemma length_swap_rows {X} `{Inhabited X} (i j : nat) (l : list X) :
  length (swap_rows i j l) = length l.
Proof. unfold swap_rows. rewrite !length_insert. reflexivity. Qed.

Lemma square_swap_rows (n i j : nat) (M : matrix F) :
  i < n -> j < n -> i <> j -> square n M -> square n (swap_rows i j M).
Proof.
  intros Hi Hj Hij [Hlen Hrow]. split; [rewrite length_swap_rows; exact Hlen|].
  intros r Hr. rewrite swap_rows_lookup by lia.
  destruct (Nat.eqb r i); [|destruct (Nat.eqb r j)]; apply Hrow; assumption.
Qed.

Lemma length_reduce_row (n i : nat) (m : F) (row_j row_i : vec F) :
  i <= n -> length row_j = n -> length row_i = n ->
  length (reduce_row n i m row_j row_i) = n.
Proof.
  intros Hi Hj Hi'. unfold reduce_row, set_slice, slice, vsub, vscale.
  rewrite !length_app, length_take, length_zip_with, length_fmap, !length_take, !length_drop.
  lia.
Qed.

Lemma reduce_row_lookup (n i : nat) (m : F) (row_j row_i : vec F) (c : nat) :
  i <= n -> length row_j = n -> length row_i = n -> c < n ->
  reduce_row n i m row_j row_i !!! c
  = if Nat.ltb c i then row_j !!! c else (row_j !!! c - m * row_i !!! c)%F.
Proof.
  intros Hi Hj Hi' Hc. unfold reduce_row, set_slice, slice, vsub, vscale.
  destruct (Nat.ltb_spec c i) as [Hlt|Hge].
  - rewrite lookup_total_app_l by (rewrite length_take; lia).
    apply lookup_total_take_lt. exact Hlt.
  - rewrite lookup_total_app_r by (rewrite length_take; lia).
    rewrite length_take, Nat.min_l by lia.
    rewrite lookup_total_app_l by
      (rewrite length_zip_with, length_fmap, !length_take, !length_drop; lia).
    rewrite (lookup_total_zip_with fsub (take (n - i) (drop i row_j))
               (fmul m <$> take (n - i) (drop i row_i)) (c - i))
      by (rewrite ?length_fmap, !length_take, !length_drop; lia).
    rewrite (list_lookup_total_fmap (fmul m) (take (n - i) (drop i row_i)) (c - i))
      by (rewrite !length_take, !length_drop; lia).
    rewrite !lookup_total_take_lt, !lookup_total_drop by lia.
    replace (i + (c - i)) with c by lia. reflexivity.
Qed.
End EliminationShapes.

Section EliminationRuns.
Context {F : Type} `{Scalar F}.

Lemma accum_fmap (g : nat -> nat) s0 l (f : nat -> F) :
  accum s0 (g <$> l) f = accum s0 l (fun t => f (g t)).
Proof. revert s0. induction l as [|t l IH]; intros s0; [reflexivity|]. simpl. apply IH. Qed.

(** [dot(u[lo:n], v[lo:n])] *)
Lemma dot_vv_slices (n lo : nat) (u v : vec F) :
  length u = n -> length v = n -> lo <= n ->
  dot_vv (slice lo n u) (slice lo n v) = sum_range lo n (fun t => u !!! t * v !!! t)%F.
Proof.
  intros Hu Hv Hlo. unfold dot_vv, slice.
  rewrite dot_vv_accum by (rewrite !length_take, !length_drop; lia).
  rewrite length_take, length_drop, Hu, Nat.min_l by lia.
  unfold sum_range.
  replace (seq lo (n - lo)) with (Nat.add lo <$> seq 0 (n - lo))
    by (rewrite fmap_add_seq; f_equal; lia).
  rewrite accum_fmap.
  apply accum_ext. intros t Ht. apply elem_of_seq in Ht.
  rewrite !lookup_total_take_lt, !lookup_total_drop by lia. reflexivity.
Qed.

(** The pair [(i, j)] of [pivot_gauss]: what holds of the working copies
    before the swap test holds after the elimination, if the swap and the
    row reduction keep it. *)
Lemma pivot_pair_runs (A : mref) (b : vref) (n i j : nat) (s : state F)
    (P Q : matrix F -> vec F -> Prop) :
  (forall M v, P M v -> P (swap_rows i j M) (swap_rows i j v)) ->
  (forall M v, P M v -> feqb (entry M j i) f0 = true -> Q M v) ->
  (forall M v, P M v -> feqb (entry M j i) f0 = false ->
     let m := (entry M j i / entry M i i)%F in
     Q (<[j := reduce_row n i m (M !!! j) (M !!! i)]> M)
       (<[j := (v !!! j - m * v !!! i)%F]> v)) ->
  P (mats s !!! A) (vecs s !!! b) ->
  returns (pivot_swap A b i j ;; pivot_eliminate A b n i j) s (fun _ s' =>
    Q (mats s' !!! A) (vecs s' !!! b) /\
    next s' = next s /\ stdout s' = stdout s /\
    (forall r, r <> A -> mats s' !! r = mats s !! r) /\
    (forall r, r <> b -> vecs s' !! r = vecs s !! r)).
Proof.
  intros Hswap Hkeep Hred HP.
  assert (forall s1 : state F,
            P (mats s1 !!! A) (vecs s1 !!! b) ->
            next s1 = next s /\ stdout s1 = stdout s /\
            (forall r, r <> A -> mats s1 !! r = mats s !! r) /\
            (forall r, r <> b -> vecs s1 !! r = vecs s !! r) ->
            returns (pivot_eliminate A b n i j) s1 (fun _ s' =>
              Q (mats s' !!! A) (vecs s' !!! b) /\
              next s' = next s /\ stdout s' = stdout s /\
              (forall r, r <> A -> mats s' !! r = mats s !! r) /\
              (forall r, r <> b -> vecs s' !! r = vecs s !! r))) as Helim.
  { intros s1 HP1 (Hn1 & Ho1 & Hm1 & Hv1). unfold pivot_eliminate. run.
    destruct (feqb _ f0) eqn:Hz; cbn [negb].
    - run. split; [apply Hkeep; assumption|]. auto.
    - run. rewrite !lookup_total_insert_eq. split; [apply Hred; assumption|].
      split; [exact Hn1|]. split; [exact Ho1|]. split.
      + intros r Hr. rewrite lookup_insert_ne by congruence. apply Hm1, Hr.
      + intros r Hr. rewrite lookup_insert_ne by congruence. apply Hv1, Hr. }
  apply returns_bind. unfold pivot_swap. run. destruct (fltb _ _).
  - run. apply Helim; cbn [mats vecs next stdout].
    + rewrite !lookup_total_insert_eq. apply Hswap, HP.
    + split; [reflexivity|]. split; [reflexivity|]. split.
      * intros r Hr. rewrite lookup_insert_ne by congruence. reflexivity.
      * intros r Hr. rewrite lookup_insert_ne by congruence. reflexivity.
  - run. apply Helim; [exact HP | auto].
Qed.

(** The elimination loops of [pivot_gauss], for a property [P i j] of the
    working copies that is kept by the swap and by the row reduction of
    every pair [(i, j)]. *)
Lemma elimination_runs (A : mref) (b : vref) (n : nat) (s : state F)
    (P : nat -> nat -> matrix F -> vec F -> Prop) :
  (forall i j M v, i < j < n -> P i j M v -> P i j (swap_rows i j M) (swap_rows i j v)) ->
  (forall i j M v, i < j < n -> P i j M v -> feqb (entry M j i) f0 = true ->
     P i (S j) M v) ->
  (forall i j M v, i < j < n -> P i j M v -> feqb (entry M j i) f0 = false ->
     let m := (entry M j i / entry M i i)%F in
     P i (S j) (<[j := reduce_row n i m (M !!! j) (M !!! i)]> M)
       (<[j := (v !!! j - m * v !!! i)%F]> v)) ->
  (forall i M v, S i < n -> P i n M v -> P (S i) (S (S i)) M v) ->
  P 0 1 (mats s !!! A) (vecs s !!! b) ->
  returns (for_ (range 0 (n - 1)) (fun i =>
             for_ (range (i + 1) n) (fun j =>
               pivot_swap A b i j ;; pivot_eliminate A b n i j))) s
    (fun _ s' =>
       P (n - 1) (S (n - 1)) (mats s' !!! A) (vecs s' !!! b) /\
       next s' = next s /\ stdout s' = stdout s /\
       (forall r, r <> A -> mats s' !! r = mats s !! r) /\
       (forall r, r <> b -> vecs s' !! r = vecs s !! r)).
Proof.
  intros Hswap Hkeep Hred Hnext Hstart.
  pose (I := fun (i j : nat) (_ : unit) (s' : state F) =>
    P i j (mats s' !!! A) (vecs s' !!! b) /\
    next s' = next s /\ stdout s' = stdout s /\
    (forall r, r <> A -> mats s' !! r = mats s !! r) /\
    (forall r, r <> b -> vecs s' !! r = vecs s !! r)).
  apply (returns_for_range 0 (n - 1) _ (fun i => I i (S i))); [lia | |].
  - unfold I. auto.
  - intros i [] s1 Hi HI.
    eapply returns_mono; [apply (returns_for_range (i + 1) n _ (I i)); [lia| |]|].
    + replace (i + 1) with (S i) by lia. exact HI.
    + intros j [] s2 Hj (HP & Hn2 & Ho2 & Hm2 & Hv2).
      eapply returns_mono;
        [apply (pivot_pair_runs A b n i j s2 (P i j) (P i (S j)));
         [intros; apply Hswap; [lia | assumption]
         |intros; apply Hkeep; [lia | assumption..]
         |intros; apply Hred; [lia | assumption..]
         |exact HP]|].
      intros [] s3 (HQ & Hn3 & Ho3 & Hm3 & Hv3). unfold I.
      split; [exact HQ|]. split; [congruence|]. split; [congruence|]. split.
      * intros r Hr. rewrite Hm3 by exact Hr. apply Hm2, Hr.
      * intros r Hr. rewrite Hv3 by exact Hr. apply Hv2, Hr.
    + intros [] s2 (HP & Hrest). split; [|exact Hrest].
      apply Hnext; [lia | exact HP].
Qed.

(** The backward pass of [pivot_gauss] overwrites [b] with the solution of
    the triangular system. *)
Lemma back_substitute_runs (A : mref) (b : vref) (n : nat) (s : state F) :
  square n (mats s !!! A) -> length (vecs s !!! b) = n ->
  returns (back_substitute A b n) s (fun _ s' =>
    mats s' = mats s /\ next s' = next s /\ stdout s' = stdout s /\
    (forall r, r <> b -> vecs s' !! r = vecs s !! r) /\
    length (vecs s' !!! b) = n /\
    backward n (mats s !!! A) (vecs s !!! b) (vecs s' !!! b) 0).
Proof.
  intros [HAlen HArow] Hb. unfold back_substitute.
  pose (I := fun (c : nat) (_ : unit) (s' : state F) =>
    mats s' = mats s /\ next s' = next s /\ stdout s' = stdout s /\
    (forall r, r <> b -> vecs s' !! r = vecs s !! r) /\
    length (vecs s' !!! b) = n /\
    (forall k, k < n - c -> (vecs s' !!! b) !!! k = (vecs s !!! b) !!! k) /\
    backward n (mats s !!! A) (vecs s !!! b) (vecs s' !!! b) (n - c)).
  eapply returns_mono; [apply (returns_for_down n _ I)|].
  - unfold I. do 5 (split; [first [reflexivity | assumption]|]).
    split; [reflexivity|]. intros k Hk. lia.
  - intros c [] s1 Hc (Hm & Hn & Ho & Hfr & Hlen & Hold & Hdone). run.
    unfold I. cbn [vecs mats next stdout].
    rewrite lookup_total_insert_eq, length_insert.
    do 3 (split; [assumption|]).
    split; [intros r Hr; rewrite lookup_insert_ne by congruence; apply Hfr, Hr|].
    split; [exact Hlen|]. split.
    + intros k Hk. rewrite list_lookup_total_insert_ne by lia. apply Hold. lia.
    + rewrite Hm, (Hold (n - 1 - c)) by lia.
      rewrite (dot_vv_slices n) by (first [apply HArow; lia | exact Hlen | lia]).
      replace (n - 1 - c + 1) with (S (n - 1 - c)) by lia.
      replace (n - S c) with (n - 1 - c) by lia.
      apply (backward_step n); [lia | lia |].
      replace (S (n - 1 - c)) with (n - c) by lia. exact Hdone.
  - intros [] s1 (Hm & Hn & Ho & Hfr & Hlen & _ & Hdone).
    do 5 (split; [assumption|]). replace (n - n) with 0 in Hdone by lia. exact Hdone.
Qed.
End EliminationRuns.

Section GaussSolves.
Context {F : Type} `{ExactField F}.
Add Field gauss_exact : exact_field.


Lemma eliminated_below_swap n i j (M : matrix F) :
  i < j < n -> square n M ->
  eliminated_below n i j (swap_rows i j M) -> eliminated_below n i j M.
Proof.
  intros Hij [HMlen _] Hzero r c Hrc Hreach.
  destruct (decide (r = i)) as [->|Hri]; [|destruct (decide (r = j)) as [->|Hrj]].
  - specialize (Hzero j c). rewrite swap_rows_lookup in Hzero by lia.
    destruct (Nat.eqb_spec j i); [lia|]. rewrite Nat.eqb_refl in Hzero.
    apply Hzero; [lia|]. left. lia.
  - specialize (Hzero i c). rewrite swap_rows_lookup in Hzero by lia.
    rewrite Nat.eqb_refl in Hzero.
    assert (c < i) by (destruct Hreach as [?|[-> ?]]; lia).
    apply Hzero; [lia|]. left. assumption.
  - specialize (Hzero r c). rewrite swap_rows_lookup in Hzero by lia.
    destruct (Nat.eqb_spec r i); [lia|]. destruct (Nat.eqb_spec r j); [lia|].
    apply Hzero; assumption.
Qed.

Lemma row_holds_swap n i j (M : matrix F) (v x : vec F) r :
  i < j < n -> square n M -> length v = n -> r < n ->
  (forall r', r' < n -> row_holds n (swap_rows i j M) (swap_rows i j v) x r') ->
  row_holds n M v x r.
Proof.
  intros Hij [HMlen _] Hv Hr Hrows.
  assert (forall r', r' < n ->
            row_holds n (swap_rows i j M) (swap_rows i j v) x r' ->
            row_holds n M v x (if Nat.eqb r' i then j else if Nat.eqb r' j then i else r'))
    as Hmove.
  { intros r' Hr'. unfold row_holds. rewrite !swap_rows_lookup by lia.
    destruct (Nat.eqb r' i); [|destruct (Nat.eqb r' j)]; exact (fun E => E). }
  destruct (decide (r = i)) as [->|Hri]; [|destruct (decide (r = j)) as [->|Hrj]].
  - specialize (Hmove j ltac:(lia) (Hrows j ltac:(lia))).
    destruct (Nat.eqb_spec j i); [lia|]. rewrite Nat.eqb_refl in Hmove. exact Hmove.
  - specialize (Hmove i ltac:(lia) (Hrows i ltac:(lia))).
    rewrite Nat.eqb_refl in Hmove. exact Hmove.
  - specialize (Hmove r Hr (Hrows r Hr)).
    destruct (Nat.eqb_spec r i); [lia|]. destruct (Nat.eqb_spec r j); [lia|]. exact Hmove.
Qed.

Lemma eliminating_swap n A b i j M v :
  i < j < n -> eliminating n A b i j M v ->
  eliminating n A b i j (swap_rows i j M) (swap_rows i j v).
Proof.
  intros Hij (HM & Hv & Href).
  split; [apply square_swap_rows; (lia || assumption)|].
  split; [rewrite length_swap_rows; exact Hv|].
  intros Hzero x Hx Hrows. apply Href; [|exact Hx|].
  - apply eliminated_below_swap; assumption.
  - intros r Hr. apply (row_holds_swap n i j); assumption.
Qed.

Lemma eliminating_keep n A b i j M v :
  eliminating n A b i j M v -> eliminating n A b i (S j) M v.
Proof.
  intros (HM & Hv & Href). split; [exact HM|]. split; [exact Hv|].
  intros Hzero. apply Href. intros r c Hrc Hreach. apply Hzero; [exact Hrc|].
  destruct Hreach as [?|[-> ?]]; [left; assumption | right; lia].
Qed.

Lemma eliminating_next n A b i M v :
  eliminating n A b i n M v -> eliminating n A b (S i) (S (S i)) M v.
Proof.
  intros (HM & Hv & Href). split; [exact HM|]. split; [exact Hv|].
  intros Hzero. apply Href. intros r c Hrc Hreach. apply Hzero; [exact Hrc|].
  left. destruct Hreach as [?|[-> ?]]; lia.
Qed.

Lemma square_reduce n i j m (M : matrix F) :
  i < j < n -> square n M ->
  square n (<[j := reduce_row n i m (M !!! j) (M !!! i)]> M).
Proof.
  intros Hij [HMlen HMrow]. split; [rewrite length_insert; exact HMlen|].
  intros r Hr. destruct (decide (r = j)) as [->|Hne].
  - rewrite list_lookup_total_insert_eq by lia.
    apply length_reduce_row; [lia | apply HMrow; lia | apply HMrow; lia].
  - rewrite list_lookup_total_insert_ne by congruence. apply HMrow, Hr.
Qed.

Lemma entry_reduce n i j m (M : matrix F) r c :
  i < j < n -> square n M -> r < n -> c < n ->
  entry (<[j := reduce_row n i m (M !!! j) (M !!! i)]> M) r c
  = if Nat.eqb r j && negb (Nat.ltb c i) then (entry M j c - m * entry M i c)%F
    else entry M r c.
Proof.
  intros Hij [HMlen HMrow] Hr Hc. destruct (Nat.eqb_spec r j) as [->|Hne].
  - rewrite list_lookup_total_insert_eq by lia.
    rewrite reduce_row_lookup by (first [lia | apply HMrow; lia]).
    destruct (Nat.ltb c i); reflexivity.
  - rewrite list_lookup_total_insert_ne by congruence. reflexivity.
Qed.

Lemma eliminating_reduce n A b i j M v :
  i < j < n -> eliminating n A b i j M v ->
  let m := (entry M j i / entry M i i)%F in
  eliminating n A b i (S j) (<[j := reduce_row n i m (M !!! j) (M !!! i)]> M)
    (<[j := (v !!! j - m * v !!! i)%F]> v).
Proof.
  intros Hij (HM & Hv & Href) m.
  split; [apply square_reduce; assumption|].
  split; [rewrite length_insert; exact Hv|].
  intros Hzero.
  (* what was reached before is untouched by the reduction *)
  assert (eliminated_below n i j M) as Hbefore.
  { intros r c Hrc Hreach. specialize (Hzero r c Hrc).
    rewrite (entry_reduce n) in Hzero by (assumption || lia).
    destruct (Nat.eqb_spec r j) as [->|Hne]; cbn [andb] in Hzero.
    - assert (c < i) as Hci by (destruct Hreach as [?|[-> ?]]; lia).
      destruct (Nat.ltb_spec c i); [|lia]. cbn [negb] in Hzero.
      apply Hzero. left. exact Hci.
    - apply Hzero. destruct Hreach as [?|[-> ?]]; [left; assumption | right; lia]. }
  intros x Hx Hrows. apply (Href Hbefore x Hx).
  intros r Hr. pose proof (Hrows r Hr) as Hrow. unfold row_holds in *.
  destruct (decide (r = j)) as [->|Hne].
  - (* row [j]: add [m] times row [i] back *)
    pose proof (Hrows i ltac:(lia)) as Hrow_i. unfold row_holds in Hrow_i.
    rewrite (list_lookup_total_insert_ne v) in Hrow_i by lia.
    rewrite (list_lookup_total_insert_eq v) in Hrow by lia.
    assert (sum_range 0 n (fun c => entry M i c * x !!! c)%F = v !!! i) as Hi.
    { rewrite <- Hrow_i. apply sum_range_ext_in. intros c Hc.
      rewrite (entry_reduce n) by (assumption || lia).
      destruct (Nat.eqb_spec i j); [lia|]. reflexivity. }
    assert (sum_range 0 n
              (fun c => entry (<[j := reduce_row n i m (M !!! j) (M !!! i)]> M) j c
                        * x !!! c)%F
            = (sum_range 0 n (fun c => entry M j c * x !!! c)
               - m * sum_range 0 n (fun c => entry M i c * x !!! c))%F) as Hj.
    { rewrite <- sum_range_scale.
      transitivity (sum_range 0 n (fun c => entry M j c * x !!! c
                                            + (- (m * (entry M i c * x !!! c))))%F).
      - apply sum_range_ext_in. intros c Hc.
        rewrite (entry_reduce n) by (assumption || lia). rewrite Nat.eqb_refl.
        destruct (Nat.ltb_spec c i) as [Hlt|Hge]; cbn [andb negb]; [|ring].
        rewrite (Hbefore i c) by (first [lia | left; exact Hlt]). ring.
      - rewrite sum_range_add.
        transitivity (sum_range 0 n (fun c => entry M j c * x !!! c)
                      + (- f1) * sum_range 0 n (fun c => m * (entry M i c * x !!! c)))%F;
          [|ring].
        f_equal. rewrite <- sum_range_scale. apply sum_range_ext_in. intros; ring. }
    rewrite Hj, Hi in Hrow.
    transitivity (v !!! j - m * v !!! i + m * v !!! i)%F; [rewrite <- Hrow; ring | ring].
  - rewrite (list_lookup_total_insert_ne v) in Hrow by congruence. rewrite <- Hrow.
    apply sum_range_ext_in. intros c Hc.
    rewrite (entry_reduce n) by (assumption || lia).
    destruct (Nat.eqb_spec r j); [contradiction|]. reflexivity.
Qed.
End GaussSolves.

Section GaussTheorem.
Context {F : Type} `{ExactField F}.
Add Field gauss_theorem : exact_field.

(** X3.  In exact arithmetic, on an [n] by [n] system: if the working copy
    of [A] that [pivot_gauss] leaves (the first object it allocates) is
    zero below the diagonal and nonzero on it, the vector it returns solves
    the system the caller gave, [dot(A, x) = b]. *)
Theorem pivot_gauss_solves (A : mref) (b : vref) (n : nat) (s : state F) :
  linear_system s A b n ->
  returns (pivot_gauss A b) s (fun x s' =>
    let U := mats s' !!! next s in
    (forall r c, c < r < n -> entry U r c = f0) ->
    (forall k, k < n -> entry U k k <> f0) ->
    dot_mv (mats s !!! A) (vecs s' !!! x) = vecs s !!! b).
Proof.
  intros [HA Hb]. pose proof HA as [HAlen _].
  set (A0 := mats s !!! A). set (b0 := vecs s !!! b).
  unfold pivot_gauss. run. rewrite lookup_total_insert_eq. unfold A0 at 1. rewrite HAlen.
  apply returns_bind.
  eapply returns_mono;
    [apply (elimination_runs _ _ n _ (eliminating n A0 b0))|].
  - intros i j M v Hij. apply eliminating_swap, Hij.
  - intros i j M v _ HP _. apply eliminating_keep, HP.
  - intros i j M v Hij HP _. apply eliminating_reduce; assumption.
  - intros i M v _. apply eliminating_next.
  - cbn [mats vecs]. rewrite !lookup_total_insert_eq.
    split; [exact HA|]. split; [exact Hb|]. intros _ x _ Hrows. exact Hrows.
  - intros [] s1 ((HM & Hv & Href) & Hn1 & _ & _ & _). cbn [next] in *.
    apply returns_bind.
    eapply returns_mono; [apply (back_substitute_runs _ _ n); assumption|].
    intros [] s2 (Hm2 & _ & _ & _ & Hlen & Hbw). run.
    intros Hlow Hpivot. rewrite Hm2 in Hlow, Hpivot.
    apply (solves_rows n); [exact HA | exact Hlen | exact Hb |].
    apply Href; [|exact Hlen|].
    + intros r c Hrc _. apply Hlow, Hrc.
    + intros r Hr. apply (backward_solves n); try assumption.
      intros r' c' Hr' Hc' Hlt. apply Hlow. lia.
Qed.
End GaussTheorem.

Section StationaryShape.
Context {F : Type} `{Scalar F} `{Linalg F}.

Lemma jacobi_stationary fuel A b x0 :
  jacobi fuel A b x0 = stationary check_jacobi_convergency jacobi_sweep fuel A b x0.
Proof. reflexivity. Qed.

Lemma gauss_seidel_stationary fuel A b x0 :
  gauss_seidel fuel A b x0
  = stationary check_gauss_seidel_convergency gauss_seidel_sweep fuel A b x0.
Proof. reflexivity. Qed.

Lemma successive_over_relaxation_stationary fuel A b w x0 :
  successive_over_relaxation fuel A b w x0
  = stationary (fun A => check_successive_over_relaxation_convergency A w)
      (fun A b => sor_sweep A b w) fuel A b x0.
Proof. reflexivity. Qed.
End StationaryShape.

Section StationaryRuns.
Context {F : Type} `{Scalar F} `{Linalg F}.


Lemma jacobi_sweep_spec : sweep_spec jacobi_sweep jacobi_step.
Proof.
  intros A b x n s Hx Hb Hxb Hn.
  eapply returns_mono; [apply jacobi_sweep_runs; assumption|].
  intros y s' (Hy & Hsw & Hlen & Hval & _). auto.
Qed.

Lemma gauss_seidel_sweep_spec : sweep_spec gauss_seidel_sweep gauss_seidel_step.
Proof.
  intros A b x n s Hx Hb Hxb Hn.
  eapply returns_mono; [apply gauss_seidel_sweep_runs; assumption|].
  intros y s' (Hy & Hsw & Hlen & Hval & _). auto.
Qed.

Lemma sor_sweep_spec w : sweep_spec (fun A b => sor_sweep A b w) (sor_step w).
Proof.
  intros A b x n s Hx Hb Hxb Hn.
  eapply returns_mono; [apply sor_sweep_runs; assumption|].
  intros y s' (Hy & Hsw & Hlen & Hval & _). auto.
Qed.


Lemma stationary_enters check sweep fuel A b x0 (s s1 : state F) :
  check (next s) (entered A b s) = Done true s1 ->
  stationary check sweep fuel A b x0 s
  = (cnt <- while_true fuel
              (pass sweep (next s) (S (next s)) (next s1) (length (mats s1 !!! next s))) 0 ;;
     ret (Solution (next s1) cnt)) (started x0 s1).
Proof.
  intros Hc. unfold stationary.
  erewrite (bind_done (copy_m _)) by reflexivity.
  erewrite (bind_done (copy_v _)) by reflexivity.
  etransitivity; [apply (bind_done _ _ _ _ _ Hc)|]. reflexivity.
Qed.

Lemma stationary_ends check sweep fuel A b x0 (s : state F) ans s' :
  stationary check sweep fuel A b x0 s = Done ans s' ->
  exists ok s1, check (next s) (entered A b s) = Done ok s1 /\
    if ok then
      exists cnt, ans = Solution (next s1) cnt /\
        while_true fuel
          (pass sweep (next s) (S (next s)) (next s1) (length (mats s1 !!! next s))) 0
          (started x0 s1) = Done cnt s'
    else ans = Sentinel /\ s' = s1.
Proof.
  unfold stationary. intros Hrun.
  apply bind_done_inv in Hrun as (A' & s2 & [= <- <-] & Hrun).
  apply bind_done_inv in Hrun as (b' & s3 & [= <- <-] & Hrun).
  apply bind_done_inv in Hrun as (ok & s1 & Hc & Hrun).
  exists ok, s1. split; [exact Hc|]. destruct ok; cbn [negb] in Hrun.
  - apply bind_done_inv in Hrun as (n & s4 & [= <- <-] & Hrun).
    apply bind_done_inv in Hrun as (x & s5 & [= <- <-] & Hrun).
    apply bind_done_inv in Hrun as (cnt & s6 & Hloop & [= <- <-]).
    exists cnt. split; [reflexivity | exact Hloop].
  - injection Hrun as <- <-. auto.
Qed.

(** The loop, by its last pass. *)
Lemma while_true_last {X} (body : X -> M F (X * bool)) (Inv : X -> state F -> Prop) :
  (forall x s r s', Inv x s -> body x s = Done r s' -> Inv r.1 s') ->
  forall fuel x s x' s',
    Inv x s -> while_true fuel body x s = Done x' s' ->
    exists x1 s1, Inv x1 s1 /\ body x1 s1 = Done (x', true) s'.
Proof.
  intros Hstep. induction fuel as [|fuel IH]; intros x s x' s' HI Hrun; [discriminate|].
  simpl in Hrun. apply bind_done_inv in Hrun as ([x1 stop] & s1 & Hbody & Hrun).
  destruct stop; cbn [fst snd] in Hrun.
  - injection Hrun as <- <-. exists x, s. auto.
  - apply (IH x1 s1); [|exact Hrun]. apply (Hstep _ _ _ _ HI Hbody).
Qed.


Lemma pass_runs sweep R (s : state F) A b n x cnt sk :
  sweep_spec sweep R -> iterating s A b n x sk ->
  returns (pass sweep (next s) (S (next s)) x n cnt) sk (fun r s' =>
    iterating s A b n x s' /\
    r = (cnt + 1, fleb (linalg_norm (vsub (vecs s' !!! x) (vecs sk !!! x))) eps) /\
    R n (mats s !!! A) (vecs s !!! b) (vecs sk !!! x) (vecs s' !!! x)).
Proof.
  intros Hspec (HA & Hb & Hx & Hlen). unfold pass. apply returns_bind.
  eapply returns_mono; [apply Hspec; lia|].
  intros y s' (-> & (Hm & Hnx & Ho & _ & Hy & Hfr) & Hlen' & HR). run.
  rewrite Hy. split; [|split; [reflexivity|]].
  - unfold iterating. rewrite Hm, HA.
    rewrite (lookup_total_alt (vecs s')), Hfr, <- lookup_total_alt by lia.
    rewrite Hb, Hnx. repeat split; lia.
  - rewrite HA, Hb in HR. exact HR.
Qed.

Lemma pass_done sweep R (s : state F) A b n x cnt sk r s' :
  sweep_spec sweep R -> iterating s A b n x sk ->
  pass sweep (next s) (S (next s)) x n cnt sk = Done r s' ->
  iterating s A b n x s' /\
  r = (cnt + 1, fleb (linalg_norm (vsub (vecs s' !!! x) (vecs sk !!! x))) eps) /\
  R n (mats s !!! A) (vecs s !!! b) (vecs sk !!! x) (vecs s' !!! x).
Proof.
  intros Hspec HI Hrun. pose proof (pass_runs sweep R s A b n x cnt sk Hspec HI) as Hr.
  unfold returns in Hr. rewrite Hrun in Hr. exact Hr.
Qed.
End StationaryRuns.

Section StationaryFacts.
Context {F : Type} `{Scalar F} `{Linalg F}.

(** What is known when the check, run on the private copies, has returned:
    the copies and the caller's arrays are as they were. *)
Lemma checked (check : mref -> M F bool) (A : mref) (b x0 : vref) (n : nat)
    (s s1 : state F) ok :
  (forall s0 A, keeps s0 (check A) (fun _ => True)) ->
  check (next s) (entered A b s) = Done ok s1 ->
  linear_system s A b n -> x0 < next s -> length (vecs s !!! x0) = n ->
  unchanged s s1 /\
  length (mats s1 !!! next s) = n /\
  iterating s A b n (next s1) (started x0 s1) /\
  vecs (started x0 s1) !!! next s1 = vecs s !!! x0.
Proof.
  intros Hkeeps Hc [[HAlen _] Hb] Hx0 Hlen.
  pose proof (Hkeeps (entered A b s) (next s) (entered A b s) (unchanged_refl _)) as Hk.
  rewrite Hc in Hk. destruct Hk as [[Hnext Hsame] _]. cbn [entered next] in Hnext.
  assert (mats s1 !!! next s = mats s !!! A) as HA1.
  { rewrite lookup_total_alt. destruct (Hsame (next s)) as [_ ->]; [cbn; lia|].
    cbn [entered mats]. rewrite lookup_insert_eq. reflexivity. }
  assert (vecs s1 !!! S (next s) = vecs s !!! b) as Hb1.
  { rewrite lookup_total_alt. destruct (Hsame (S (next s))) as [-> _]; [cbn; lia|].
    cbn [entered vecs]. rewrite lookup_insert_eq. reflexivity. }
  assert (forall r, r < next s -> vecs s1 !! r = vecs s !! r /\ mats s1 !! r = mats s !! r)
    as Hcaller.
  { intros r Hr. destruct (Hsame r) as [-> ->]; [cbn; lia|]. cbn [entered vecs mats].
    rewrite !lookup_insert_ne by lia. auto. }
  assert (vecs s1 !!! x0 = vecs s !!! x0) as Hx1.
  { rewrite !lookup_total_alt. destruct (Hcaller x0 Hx0) as [-> _]. reflexivity. }
  split; [split; [lia | exact Hcaller]|].
  split; [rewrite HA1; exact HAlen|].
  unfold iterating, started. cbn [vecs mats next].
  rewrite lookup_total_insert_eq, lookup_total_insert_ne by lia.
  rewrite HA1, Hb1, Hx1. repeat split; first [reflexivity | lia | exact Hlen].
Qed.

(** A stationary solver that returns [x, cnt] made a last pass, which took
    some iterate [y] to [x] and found them within [eps]. *)
Lemma stationary_stops check sweep R fuel (A : mref) (b x0 : vref) (n : nat)
    (s : state F) x cnt s' :
  (forall s0 A, keeps s0 (check A) (fun _ => True)) ->
  sweep_spec sweep R ->
  linear_system s A b n -> x0 < next s -> length (vecs s !!! x0) = n ->
  stationary check sweep fuel A b x0 s = Done (Solution x cnt) s' ->
  exists y : vec F,
    length y = n /\ length (vecs s' !!! x) = n /\
    R n (mats s !!! A) (vecs s !!! b) y (vecs s' !!! x) /\
    fleb (linalg_norm (vsub (vecs s' !!! x) y)) eps = true.
Proof.
  intros Hkeeps Hspec Hsys Hx0 Hlen Hrun.
  apply stationary_ends in Hrun as (ok & s1 & Hc & Hrun).
  destruct ok; [|destruct Hrun; discriminate].
  destruct Hrun as (cnt' & [= -> <-] & Hloop).
  destruct (checked check A b x0 n s s1 true Hkeeps Hc Hsys Hx0 Hlen)
    as (_ & Hn & Hit & _).
  rewrite Hn in Hloop.
  apply (while_true_last _ (fun _ sk => iterating s A b n (next s1) sk)) in Hloop
    as (c1 & sk & Hitk & Hbody); [| |exact Hit].
  - destruct (pass_done sweep R s A b n (next s1) c1 sk _ _ Hspec Hitk Hbody)
      as (Hit' & [= _ Htest] & HR).
    exists (vecs sk !!! next s1). destruct Hitk as (_ & _ & _ & Hlk).
    destruct Hit' as (_ & _ & _ & Hlk'). auto.
  - intros c sk r s2 Hitk Hbody.
    apply (pass_done sweep R s A b n (next s1) c sk r s2 Hspec Hitk Hbody).
Qed.
End StationaryFacts.

Section StationaryTheorems.
Context {F : Type} `{Scalar F} `{Linalg F}.

(** The check on the private copy ends as it does on the caller's array. *)
Lemma ends_with_functional {X} (m : M F X) (s : state F) v v' :
  ends_with m s v -> ends_with m s v' -> v = v'.
Proof. unfold ends_with. destruct (m s); [congruence | congruence | tauto]. Qed.

Lemma ends_on_copy (check : mref -> M F bool) (V : matrix F -> exn + bool)
    (A : mref) (b : vref) (s : state F) v :
  (forall A (s : state F), A < next s -> ends_with (check A) s (V (mats s !!! A))) ->
  A < next s ->
  ends_with (check A) s v -> ends_with (check (next s)) (entered A b s) v.
Proof.
  intros Hends HA Hv.
  rewrite (ends_with_functional _ _ _ _ Hv (Hends A s HA)).
  pose proof (Hends (next s) (entered A b s)) as Hcopy.
  cbn [entered mats next] in Hcopy. rewrite lookup_total_insert_eq in Hcopy.
  apply Hcopy. lia.
Qed.

Lemma ends_with_raised {X} (m : M F X) (s : state F) e :
  ends_with m s (inl e) -> exists s', m s = Raised e s'.
Proof.
  unfold ends_with. destruct (m s) as [y s'|e' s'|]; [discriminate| |tauto].
  intros [= ->]. eauto.
Qed.

Lemma bind_raised {X Y} (m : M F X) (k : X -> M F Y) (s s1 : state F) e :
  m s = Raised e s1 -> bind m k s = Raised e s1.
Proof. unfold bind. intros ->. reflexivity. Qed.

Lemma stationary_raises check sweep fuel A b x0 (s s1 : state F) e :
  check (next s) (entered A b s) = Raised e s1 ->
  stationary check sweep fuel A b x0 s = Raised e s1.
Proof.
  intros Hc. unfold stationary.
  erewrite (bind_done (copy_m _)) by reflexivity.
  erewrite (bind_done (copy_v _)) by reflexivity.
  apply bind_raised, Hc.
Qed.

(** X8.  The stopping rule.  When [jacobi], [gauss_seidel] or
    [successive_over_relaxation] returns [x, cnt], the array [x] is what
    one pass of the method made of some iterate [y], and
    [linalg.norm(x - y) <= eps] held for the two. *)
Theorem stationary_solvers_stop_within_eps (fuel : nat) (A : mref) (b : vref) (w : F)
    (x0 : vref) (n : nat) (s : state F) (x : vref) (cnt : nat) (s' : state F) :
  linear_system s A b n -> x0 < next s -> length (vecs s !!! x0) = n ->
  let within := fun (step : nat -> matrix F -> vec F -> vec F -> vec F -> Prop) =>
    exists y : vec F,
      length y = n /\ length (vecs s' !!! x) = n /\
      step n (mats s !!! A) (vecs s !!! b) y (vecs s' !!! x) /\
      fleb (linalg_norm (vsub (vecs s' !!! x) y)) eps = true in
  (jacobi fuel A b x0 s = Done (Solution x cnt) s' -> within jacobi_step) /\
  (gauss_seidel fuel A b x0 s = Done (Solution x cnt) s' -> within gauss_seidel_step) /\
  (successive_over_relaxation fuel A b w x0 s = Done (Solution x cnt) s' ->
   within (sor_step w)).
Proof.
  intros Hsys Hx0 Hlen within. split; [|split]; intros Hrun.
  - rewrite jacobi_stationary in Hrun.
    apply (stationary_stops check_jacobi_convergency jacobi_sweep jacobi_step fuel A b x0
             n s x cnt s'); try assumption.
    + intros s0 A'. apply keeps_check_jacobi_convergency.
    + apply jacobi_sweep_spec.
  - rewrite gauss_seidel_stationary in Hrun.
    apply (stationary_stops check_gauss_seidel_convergency gauss_seidel_sweep
             gauss_seidel_step fuel A b x0 n s x cnt s'); try assumption.
    + intros s0 A'. apply keeps_check_gauss_seidel_convergency.
    + apply gauss_seidel_sweep_spec.
  - rewrite successive_over_relaxation_stationary in Hrun.
    apply (stationary_stops (fun A => check_successive_over_relaxation_convergency A w)
             (fun A b => sor_sweep A b w) (sor_step w) fuel A b x0 n s x cnt s');
      try assumption.
    + intros s0 A'. apply keeps_check_successive_over_relaxation_convergency.
    + apply sor_sweep_spec.
Qed.

(** X10.  An exception raised while the convergence check runs
    ([LinAlgError] from [inv] or [eigvals], [ValueError] from the norm of
    an empty array of eigenvalues) leaves the solver as it is: the solver
    raises it whatever the fuel and [x0], no sentinel is returned, and the
    caller's arrays are unchanged. *)
Theorem analyser_errors_propagate (A : mref) (b : vref) (w : F) (e : exn) (s : state F) :
  A < next s ->
  let raises := fun (solver : nat -> vref -> M F answer) =>
    exists s', unchanged s s' /\ forall fuel x0, solver fuel x0 s = Raised e s' in
  (ends_with (check_jacobi_convergency A) s (inl e) ->
   raises (fun fuel x0 => jacobi fuel A b x0)) /\
  (ends_with (check_gauss_seidel_convergency A) s (inl e) ->
   raises (fun fuel x0 => gauss_seidel fuel A b x0)) /\
  (ends_with (check_successive_over_relaxation_convergency A w) s (inl e) ->
   raises (fun fuel x0 => successive_over_relaxation fuel A b w x0)).
Proof.
  intros HA raises. split; [|split]; intros Hcheck.
  - apply (ends_on_copy _ (fun Am => verdict_on (jacobi_matrix Am)) A b s _
             ends_check_jacobi_convergency HA) in Hcheck.
    apply ends_with_raised in Hcheck as [s' Hc]. exists s'. split.
    + pose proof (keeps_leaves_unchanged _ s (keeps_jacobi s 0 A b 0)) as Hk.
      rewrite jacobi_stationary, (stationary_raises _ _ _ _ _ _ _ _ _ Hc) in Hk. exact Hk.
    + intros fuel x0. apply stationary_raises, Hc.
  - apply (ends_on_copy _ (fun Am => verdict_on (gauss_seidel_matrix Am)) A b s _
             ends_check_gauss_seidel_convergency HA) in Hcheck.
    apply ends_with_raised in Hcheck as [s' Hc]. exists s'. split.
    + pose proof (keeps_leaves_unchanged _ s (keeps_gauss_seidel s 0 A b 0)) as Hk.
      rewrite gauss_seidel_stationary, (stationary_raises _ _ _ _ _ _ _ _ _ Hc) in Hk.
      exact Hk.
    + intros fuel x0. apply stationary_raises, Hc.
  - apply (ends_on_copy _ (fun Am => verdict_on (sor_matrix w Am)) A b s _
             (fun A s => ends_check_successive_over_relaxation_convergency A w s) HA)
      in Hcheck.
    apply ends_with_raised in Hcheck as [s' Hc]. exists s'. split.
    + pose proof (keeps_leaves_unchanged _ s
                    (keeps_successive_over_relaxation s 0 A b w 0)) as Hk.
      rewrite successive_over_relaxation_stationary,
        (stationary_raises _ _ _ _ _ _ _ _ _ Hc) in Hk. exact Hk.
    + intros fuel x0. apply (stationary_raises _ _ _ _ _ _ _ _ _ Hc).
Qed.
End StationaryTheorems.

Section AtSolution.
Context {F : Type} `{ExactField F} `{Linalg F}.
Add Field at_solution : exact_field.

Lemma vsub_self (n : nat) (x : vec F) : length x = n -> vsub x x = replicate n f0.
Proof.
  intros <-. unfold vsub. induction x as [|a x IH]; [reflexivity|].
  simpl. rewrite IH. f_equal. ring.
Qed.

Lemma ends_with_returns {X} (m : M F X) (s : state F) (v : X) :
  returns m s (fun x _ => x = v) -> ends_with m s (inr v).
Proof. unfold returns, ends_with. destruct (m s); [intros ->; reflexivity | tauto | tauto]. Qed.

(** Started at a fixed point of its pass, a stationary solver returns it
    after one pass. *)
Lemma stationary_at_fixed_point check sweep R fuel (A : mref) (b x0 : vref) (n : nat)
    (s s1 : state F) :
  (forall s0 A, keeps s0 (check A) (fun _ => True)) ->
  sweep_spec sweep R ->
  linear_system s A b n -> x0 < next s -> length (vecs s !!! x0) = n ->
  (forall xn, length xn = n ->
     R n (mats s !!! A) (vecs s !!! b) (vecs s !!! x0) xn -> xn = vecs s !!! x0) ->
  fleb (linalg_norm (replicate n f0)) eps = true ->
  check (next s) (entered A b s) = Done true s1 ->
  returns (stationary check sweep (S fuel) A b x0) s (fun ans s' =>
    exists x, ans = Solution x 1 /\ vecs s' !!! x = vecs s !!! x0).
Proof.
  intros Hkeeps Hspec Hsys Hx0 Hlen Hfix Hnorm Hc.
  destruct (checked check A b x0 n s s1 true Hkeeps Hc Hsys Hx0 Hlen)
    as (_ & Hn & Hit & Hstart).
  unfold returns. rewrite (stationary_enters _ _ _ _ _ _ _ _ Hc), Hn.
  pose proof (pass_runs sweep R s A b n (next s1) 0 (started x0 s1) Hspec Hit) as Hpass.
  unfold returns in Hpass.
  destruct (pass sweep (next s) (S (next s)) (next s1) n 0 (started x0 s1))
    as [r s2| |] eqn:Hbody; try contradiction.
  destruct Hpass as ((_ & _ & _ & Hl2) & -> & HR).
  rewrite Hstart in HR. apply Hfix in HR; [|exact Hl2].
  rewrite Hstart, HR, (vsub_self n), Hnorm in Hbody by exact Hlen.
  cbn [while_true]. unfold bind at 1. unfold bind at 1. rewrite Hbody. cbn.
  exists (next s1). split; [reflexivity | exact HR].
Qed.

(** X9.  In exact arithmetic, with a nonzero diagonal and a library norm
    that is at most [eps] on the zero vector: when [x0] solves the system
    and the check of the method accepts [A], the solver returns after one
    pass, with [cnt = 1] and an array equal to [x0]. *)
Theorem solution_is_returned_after_one_pass (fuel : nat) (A : mref) (b : vref) (w : F)
    (x0 : vref) (n : nat) (s : state F) :
  linear_system s A b n -> A < next s -> x0 < next s -> length (vecs s !!! x0) = n ->
  (forall i, i < n -> entry (mats s !!! A) i i <> f0) ->
  dot_mv (mats s !!! A) (vecs s !!! x0) = vecs s !!! b ->
  fleb (linalg_norm (replicate n f0)) eps = true ->
  let returned := fun (ans : answer) (s' : state F) =>
    exists x, ans = Solution x 1 /\ vecs s' !!! x = vecs s !!! x0 in
  (returns (check_jacobi_convergency A) s (fun ok _ => ok = true) ->
   returns (jacobi (S fuel) A b x0) s returned) /\
  (returns (check_gauss_seidel_convergency A) s (fun ok _ => ok = true) ->
   returns (gauss_seidel (S fuel) A b x0) s returned) /\
  (returns (check_successive_over_relaxation_convergency A w) s (fun ok _ => ok = true) ->
   returns (successive_over_relaxation (S fuel) A b w x0) s returned).
Proof.
  intros Hsys HA Hx0 Hlen Hdiag Hsol Hnorm returned. pose proof Hsys as [Hsq Hb].
  split; [|split]; intros Hcheck; apply ends_with_returns in Hcheck.
  - apply (ends_on_copy _ (fun Am => verdict_on (jacobi_matrix Am)) A b s _
             ends_check_jacobi_convergency HA) in Hcheck.
    apply ends_with_done in Hcheck as [s1 Hc].
    rewrite jacobi_stationary.
    apply (stationary_at_fixed_point check_jacobi_convergency jacobi_sweep jacobi_step
             fuel A b x0 n s s1); try assumption.
    + intros s0 A'. apply keeps_check_jacobi_convergency.
    + apply jacobi_sweep_spec.
    + intros xn Hxn. apply (jacobi_step_of_solution n); assumption.
  - apply (ends_on_copy _ (fun Am => verdict_on (gauss_seidel_matrix Am)) A b s _
             ends_check_gauss_seidel_convergency HA) in Hcheck.
    apply ends_with_done in Hcheck as [s1 Hc].
    rewrite gauss_seidel_stationary.
    apply (stationary_at_fixed_point check_gauss_seidel_convergency gauss_seidel_sweep
             gauss_seidel_step fuel A b x0 n s s1); try assumption.
    + intros s0 A'. apply keeps_check_gauss_seidel_convergency.
    + apply gauss_seidel_sweep_spec.
    + intros xn Hxn. apply (gauss_seidel_step_of_solution n); assumption.
  - apply (ends_on_copy _ (fun Am => verdict_on (sor_matrix w Am)) A b s _
             (fun A s => ends_check_successive_over_relaxation_convergency A w s) HA)
      in Hcheck.
    apply ends_with_done in Hcheck as [s1 Hc].
    rewrite successive_over_relaxation_stationary.
    apply (stationary_at_fixed_point
             (fun A => check_successive_over_relaxation_convergency A w)
             (fun A b => sor_sweep A b w) (sor_step w) fuel A b x0 n s s1); try assumption.
    + intros s0 A'. apply keeps_check_successive_over_relaxation_convergency.
    + apply sor_sweep_spec.
    + intros xn Hxn. apply (sor_step_of_solution w n); assumption.
Qed.
End AtSolution.

(** ** Conjugate gradient *)

Section ConjugateGradientRuns.
Context {F : Type} `{Scalar F} `{Linalg F}.

(** One pass allocates the new [x], [r] and [p] and writes nothing else. *)
Lemma cg_sweep_runs (A : mref) (x r p : vref) (s : state F) :
  x < next s -> r < next s -> p < next s ->
  let Am := mats s !!! A in
  let xv := vecs s !!! x in
  let rv := vecs s !!! r in
  let pv := vecs s !!! p in
  cg_sweep A (x, r, p) s
  = Done (next s, S (next s), S (S (next s)), x)
      (cg_swept s (cg_x Am xv rv pv) (cg_r Am rv pv) (cg_p Am rv pv)).
Proof.
  intros Hx Hr Hp. cbv zeta.
  unfold cg_sweep, bind, load_v, load_m, alloc_v, ret. cbn [vecs mats next stdout].
  lookups. reflexivity.
Qed.

Lemma cg_pass_runs (A : mref) (x r p : vref) (cnt : nat) (s : state F) :
  x < next s -> r < next s -> p < next s ->
  let Am := mats s !!! A in
  let xv := vecs s !!! x in
  let rv := vecs s !!! r in
  let pv := vecs s !!! p in
  cg_pass A (x, r, p, cnt) s
  = Done ((next s, S (next s), S (S (next s)), cnt + 1),
          fleb (linalg_norm (vsub (cg_x Am xv rv pv) xv)) eps)
      (cg_swept s (cg_x Am xv rv pv) (cg_r Am rv pv) (cg_p Am rv pv)).
Proof.
  intros Hx Hr Hp. cbv zeta. unfold cg_pass.
  rewrite (bind_done _ _ _ _ _ (cg_sweep_runs A x r p s Hx Hr Hp)).
  unfold bind, load_v, ret, cg_swept. cbn [vecs mats next stdout].
  lookups. reflexivity.
Qed.

(** The call up to its loop, when the check accepts. *)
Lemma conjugate_gradient_enters fuel A b x0 (s s1 : state F) :
  check_symmetric_and_positive_definite_matrix (next s) (entered A b s) = Done true s1 ->
  S (next s) < next s1 ->
  conjugate_gradient fuel A b x0 s
  = (st <- while_true fuel (cg_pass (next s)) (next s1, S (next s1), S (next s1), 1) ;;
     let '(x, _, _, cnt) := st in ret (Solution x cnt))
      (cg_started (next s) (S (next s)) x0 s1).
Proof.
  intros Hc Hlt. unfold conjugate_gradient.
  erewrite (bind_done (copy_m _)) by reflexivity.
  erewrite (bind_done (copy_v _)) by reflexivity.
  etransitivity; [apply (bind_done _ _ _ _ _ Hc)|].
  cbn [negb].
  erewrite (bind_done (len_m _)) by reflexivity.
  erewrite (bind_done (copy_v _)) by reflexivity.
  erewrite (bind_done (load_v _)) by reflexivity.
  erewrite (bind_done (load_m _)) by reflexivity.
  erewrite (bind_done (load_v _)) by reflexivity.
  erewrite (bind_done (alloc_v _)) by reflexivity.
  cbn [vecs mats next stdout]. unfold cg_started. lookups. reflexivity.
Qed.
End ConjugateGradientRuns.

Section ConjugateGradientFacts.
Context {F : Type} `{Scalar F} `{Linalg F}.

(** The check accepts a symmetric matrix without a negative eigenvalue, and
    leaves the store as it found it. *)
Lemma check_symmetric_and_positive_definite_matrix_accepts (A : mref) (n : nat)
    (s : state F) values :
  square n (mats s !!! A) -> symmetric n (mats s !!! A) ->
  linalg_eigvals (mats s !!! A) = Some values ->
  (forall v, v ∈ values -> eig_neg v = false) ->
  check_symmetric_and_positive_definite_matrix A s = Done true s.
Proof.
  intros Hsq Hsym Heig Hnone.
  rewrite check_symmetric_and_positive_definite_matrix_runs. cbv zeta.
  apply (all_equal_transpose n _ Hsq) in Hsym. rewrite Hsym, Heig. cbn [negb].
  assert (existsb eig_neg values = false) as ->; [|reflexivity].
  apply not_true_is_false. intros (v & Hv & Hneg)%existsb_exists.
  apply list_elem_of_In in Hv. rewrite (Hnone v Hv) in Hneg. discriminate.
Qed.

(** The loop of an accepted call, and what its arrays hold at the start. *)
Lemma conjugate_gradient_accepted fuel (A : mref) (b x0 : vref) (n : nat)
    (s : state F) values :
  linear_system s A b n -> x0 < next s ->
  symmetric n (mats s !!! A) ->
  linalg_eigvals (mats s !!! A) = Some values ->
  (forall v, v ∈ values -> eig_neg v = false) ->
  let s0 := cg_started (next s) (S (next s)) x0 (entered A b s) in
  let x := S (S (next s)) in
  let r := S (S (S (next s))) in
  conjugate_gradient fuel A b x0 s
  = (st <- while_true fuel (cg_pass (next s)) (x, r, r, 1) ;;
     let '(x, _, _, cnt) := st in ret (Solution x cnt)) s0 /\
  next s0 = S r /\
  mats s0 !!! next s = mats s !!! A /\
  vecs s0 !!! x = vecs s !!! x0 /\
  vecs s0 !!! r = vsub (vecs s !!! b) (dot_mv (mats s !!! A) (vecs s !!! x0)).
Proof.
  intros [Hsq Hb] Hx0 Hsym Heig Hnone. cbv zeta.
  assert (check_symmetric_and_positive_definite_matrix (next s) (entered A b s)
          = Done true (entered A b s)) as Hc.
  { apply (check_symmetric_and_positive_definite_matrix_accepts _ n _ values);
      cbn [entered mats]; rewrite ?lookup_total_insert_eq; assumption. }
  split; [apply (conjugate_gradient_enters _ _ _ _ _ _ Hc); cbn; lia|].
  unfold cg_started, entered. cbn [vecs mats next stdout]. lookups.
  repeat split; reflexivity.
Qed.

(** A loop whose test fails on every pass does not return. *)
Lemma while_true_never {X} (body : X -> M F (X * bool)) (Inv : X -> state F -> Prop) :
  (forall x s, Inv x s -> exists x' s', body x s = Done (x', false) s' /\ Inv x' s') ->
  forall fuel x s, Inv x s -> while_true fuel body x s = OutOfFuel.
Proof.
  intros Hstep. induction fuel as [|fuel IH]; intros x s HI; [reflexivity|].
  destruct (Hstep x s HI) as (x' & s' & Hbody & HI').
  simpl. rewrite (bind_done _ _ _ _ _ Hbody). cbn [fst snd]. apply IH, HI'.
Qed.
End ConjugateGradientFacts.

Section ConjugateGradientExact.
Context {F : Type} `{ExactField F} `{Linalg F}.
Add Field conjugate_gradient_exact : exact_field.

Lemma lookup_vadd (n : nat) (u v : vec F) i :
  length u = n -> length v = n -> i < n -> vadd u v !!! i = (u !!! i + v !!! i)%F.
Proof. intros Hu Hv Hi. unfold vadd. apply lookup_total_zip_with; lia. Qed.

Lemma lookup_vsub (n : nat) (u v : vec F) i :
  length u = n -> length v = n -> i < n -> vsub u v !!! i = (u !!! i - v !!! i)%F.
Proof. intros Hu Hv Hi. unfold vsub. apply lookup_total_zip_with; lia. Qed.

Lemma lookup_vscale (a : F) (v : vec F) i :
  i < length v -> vscale a v !!! i = (a * v !!! i)%F.
Proof. intros Hi. unfold vscale. apply (list_lookup_total_fmap (fmul a) v i Hi). Qed.

Lemma length_vadd (u v : vec F) : length u = length v -> length (vadd u v) = length u.
Proof. intros Huv. unfold vadd. rewrite length_zip_with. lia. Qed.

Lemma length_vsub (u v : vec F) : length u = length v -> length (vsub u v) = length u.
Proof. intros Huv. unfold vsub. rewrite length_zip_with. lia. Qed.

Lemma length_vscale (a : F) (v : vec F) : length (vscale a v) = length v.
Proof. apply length_fmap. Qed.

Lemma square_mscale (n : nat) (a : F) (A : matrix F) : square n A -> square n (mscale a A).
Proof.
  intros [Hlen Hrow]. unfold mscale. split; [rewrite length_fmap; exact Hlen|].
  intros i Hi. rewrite (list_lookup_total_fmap (vscale a) A i) by lia.
  rewrite length_vscale. apply Hrow, Hi.
Qed.

Lemma entry_mscale (n : nat) (a : F) (A : matrix F) i j :
  square n A -> i < n -> j < n -> entry (mscale a A) i j = (a * entry A i j)%F.
Proof.
  intros [Hlen Hrow] Hi Hj. unfold mscale.
  rewrite (list_lookup_total_fmap (vscale a) A i) by lia.
  apply lookup_vscale. rewrite Hrow by exact Hi. exact Hj.
Qed.

(** [b - A (x + a p) = (b - A x) - (a A) p] *)
Lemma residual_recurrence (n : nat) (A : matrix F) (b x p : vec F) (a : F) :
  square n A -> length b = n -> length x = n -> length p = n ->
  vsub (vsub b (dot_mv A x)) (dot_mv (mscale a A) p)
  = vsub b (dot_mv A (vadd x (vscale a p))).
Proof.
  intros HA Hb Hx Hp. pose proof HA as [HAlen _].
  assert (length (vadd x (vscale a p)) = n) as Hxn
    by (rewrite length_vadd; rewrite ?length_vscale; lia).
  assert (length (dot_mv A x) = n) as Hl1 by (rewrite length_dot_mv; exact HAlen).
  assert (length (dot_mv (mscale a A) p) = n) as Hl2
    by (rewrite length_dot_mv; apply (square_mscale n a A HA)).
  assert (length (dot_mv A (vadd x (vscale a p))) = n) as Hl3
    by (rewrite length_dot_mv; exact HAlen).
  assert (length (vsub b (dot_mv A x)) = n) as Hl4 by (rewrite length_vsub; lia).
  apply (vec_eq n).
  - rewrite length_vsub; lia.
  - rewrite length_vsub; lia.
  - intros i Hi.
    rewrite (lookup_vsub n) by assumption.
    rewrite !(lookup_vsub n b) by assumption.
    rewrite !(entry_dot_mv n) by (first [apply square_mscale | idtac]; assumption).
    transitivity (b !!! i
                  - (sum_range 0 n (fun t => entry A i t * x !!! t)
                     + sum_range 0 n (fun t => a * (entry A i t * p !!! t))))%F.
    + rewrite sum_range_scale.
      rewrite (sum_range_ext_in 0 n (fun t => entry (mscale a A) i t * p !!! t)%F
                 (fun t => a * (entry A i t * p !!! t))%F)
        by (intros t Ht; rewrite (entry_mscale n) by (assumption || lia); ring).
      rewrite sum_range_scale. ring.
    + f_equal. rewrite <- sum_range_add. apply sum_range_ext_in. intros t Ht.
      rewrite (lookup_vadd n), lookup_vscale by (rewrite ?length_vscale; lia). ring.
Qed.


Lemma vadd_scaled_zeros (n : nat) (x : vec F) (a : F) :
  length x = n -> vadd x (vscale a (replicate n f0)) = x.
Proof.
  intros <-. unfold vadd, vscale. induction x as [|c x IH]; [reflexivity|].
  simpl. f_equal; [ring | exact IH].
Qed.

End ConjugateGradientExact.

Section ConjugateGradientBinary64.
Local Existing Instance binary64.
Context `{Linalg spec_float}.

Lemma zero_or_nan_add (a b : spec_float) :
  zero_or_nan a = true -> zero_or_nan b = true -> zero_or_nan (a + b)%F = true.
Proof.
  destruct a as [sa| | |]; try discriminate; destruct b as [sb| | |]; try discriminate;
    intros _ _; try reflexivity.
  destruct sa, sb; reflexivity.
Qed.

Lemma zero_or_nan_mul_zero (a b : spec_float) :
  B64.is_zero b = true -> zero_or_nan (a * b)%F = true.
Proof. destruct b; try discriminate. intros _. destruct a; reflexivity. Qed.

Lemma nan_quotient (a b : spec_float) :
  zero_or_nan a = true -> zero_or_nan b = true -> (a / b)%F = S754_nan.
Proof.
  destruct a; try discriminate; destruct b; try discriminate; reflexivity.
Qed.

Lemma nan_mul (x : spec_float) : (S754_nan * x)%F = S754_nan.
Proof. destruct x; reflexivity. Qed.

Lemma add_nan (x : spec_float) : (x + S754_nan)%F = S754_nan.
Proof. destruct x; reflexivity. Qed.

Lemma nan_add (x : spec_float) : (S754_nan + x)%F = S754_nan.
Proof. destruct x; reflexivity. Qed.

Lemma nan_sub (x : spec_float) : (S754_nan - x)%F = S754_nan.
Proof. destruct x; reflexivity. Qed.

(** [dot(u, v)] when every component of [v] is zero. *)
Lemma zero_or_nan_dot (u v : vec spec_float) (s0 : spec_float) :
  forallb B64.is_zero v = true -> zero_or_nan s0 = true ->
  zero_or_nan (foldl (fun s p => s + p.1 * p.2)%F s0 (zip u v)) = true.
Proof.
  revert v s0. induction u as [|a u IH]; intros [|b v] s0 Hv Hs; try exact Hs.
  cbn [zip zip_with foldl fst snd]. cbn [forallb] in Hv.
  apply andb_true_iff in Hv as [Hb Hv]. apply IH; [exact Hv|].
  apply zero_or_nan_add; [exact Hs | apply zero_or_nan_mul_zero, Hb].
Qed.

Lemma poisoned_by_step (n : nat) (x p : vec spec_float) :
  length x = n -> length p = n -> vadd x (vscale S754_nan p) = replicate n S754_nan.
Proof.
  intros <-. revert p. induction x as [|a x IH]; intros [|b p] Hp; try discriminate;
    [reflexivity|].
  injection Hp as Hp. unfold vadd, vscale in *. cbn [fmap list_fmap zip_with length replicate].
  f_equal; [|apply IH, Hp]. rewrite nan_mul. apply add_nan.
Qed.

Lemma poisoned_stays (n : nat) (v : vec spec_float) :
  length v = n ->
  vadd (replicate n S754_nan) v = replicate n S754_nan /\
  vsub (replicate n S754_nan) v = replicate n S754_nan.
Proof.
  intros <-. unfold vadd, vsub. induction v as [|a v [IH1 IH2]]; [split; reflexivity|].
  cbn [length replicate zip_with]. rewrite IH1, IH2, nan_add, nan_sub. split; reflexivity.
Qed.

Lemma stuck_pass (n : nat) (A : mref) (Am : matrix spec_float) st (s : state spec_float) :
  square n Am ->
  fleb (linalg_norm (replicate n S754_nan)) eps = false ->
  stuck n A Am st s ->
  exists st' s', cg_pass A st s = Done (st', false) s' /\ stuck n A Am st' s'.
Proof.
  intros HA Hnorm. destruct st as [[[x r] p] cnt].
  intros (Hx & Hr & Hp & HAm & Hlx & Hlr & Hlp & Hcase).
  pose proof (cg_pass_runs A x r p cnt s Hx Hr Hp) as Hpass. cbv zeta in Hpass.
  rewrite HAm in Hpass.
  set (xv := vecs s !!! x) in *. set (rv := vecs s !!! r) in *.
  set (pv := vecs s !!! p) in *.
  assert (cg_x Am xv rv pv = replicate n S754_nan) as Hxn.
  { destruct Hcase as [[Hrz Hpz]|Hnan].
    - unfold cg_x, cg_alpha.
      rewrite (nan_quotient (dot_vv rv rv)); [apply poisoned_by_step; assumption| |].
      + apply zero_or_nan_dot; [exact Hrz | reflexivity].
      + apply zero_or_nan_dot; [exact Hpz | reflexivity].
    - unfold cg_x. rewrite Hnan. apply poisoned_stays.
      rewrite length_vscale. exact Hlp. }
  rewrite Hxn in Hpass.
  destruct (poisoned_stays n xv Hlx) as [_ Hdiff]. rewrite Hdiff, Hnorm in Hpass.
  eexists _, _. split; [exact Hpass|].
  unfold stuck, cg_swept. cbn [vecs mats next]. lookups.
  split; [lia|]. split; [lia|]. split; [lia|]. split; [exact HAm|].
  assert (length (cg_r Am rv pv) = n) as Hlrn.
  { unfold cg_r. rewrite length_vsub; [exact Hlr|].
    rewrite length_dot_mv. destruct (square_mscale n (cg_alpha Am rv pv) Am HA) as [-> _].
    exact Hlr. }
  split; [apply length_replicate|]. split; [exact Hlrn|]. split.
  - unfold cg_p. cbv zeta. rewrite length_vadd; [exact Hlrn|].
    rewrite length_vscale. lia.
  - right. reflexivity.
Qed.

(** X13.  In binary64, with a library norm that is not [<= eps] on a vector
    of NaNs (the 2-norm of such a vector is NaN): when the check accepts
    [A] and the first residual [b - dot(A, x0)] is zero in every component,
    the step length is [0/0], the iterate becomes NaN and the stopping test
    fails on every pass: [conjugate_gradient] does not return, whatever
    the fuel. *)
Theorem conjugate_gradient_never_returns_from_zero_residual (A : mref) (b x0 : vref)
    (n : nat) (s : state spec_float) (values : list eigenvalue) :
  linear_system s A b n -> x0 < next s -> length (vecs s !!! x0) = n ->
  symmetric n (mats s !!! A) ->
  linalg_eigvals (mats s !!! A) = Some values ->
  (forall v, v ∈ values -> eig_neg v = false) ->
  forallb B64.is_zero (vsub (vecs s !!! b) (dot_mv (mats s !!! A) (vecs s !!! x0))) = true ->
  fleb (linalg_norm (replicate n S754_nan)) eps = false ->
  forall fuel, conjugate_gradient fuel A b x0 s = OutOfFuel.
Proof.
  intros Hsys Hx0 Hlen Hsym Heig Hnone Hzero Hnorm fuel. pose proof Hsys as [Hsq Hb].
  destruct (conjugate_gradient_accepted fuel A b x0 n s values
              Hsys Hx0 Hsym Heig Hnone) as (Hrun & Hnext & HA0 & Hxv & Hrv).
  rewrite Hrun. apply bind_out_of_fuel.
  apply (while_true_never _ (stuck n (next s) (mats s !!! A))).
  - intros st sk. apply stuck_pass; assumption.
  - unfold stuck. rewrite Hnext, HA0, Hxv, Hrv.
    split; [lia|]. split; [lia|]. split; [lia|]. split; [reflexivity|].
    split; [exact Hlen|].
    assert (length (vsub (vecs s !!! b) (dot_mv (mats s !!! A) (vecs s !!! x0))) = n) as Hl.
    { rewrite length_vsub; [exact Hb|]. rewrite length_dot_mv. destruct Hsq as [-> _].
      exact Hb. }
    split; [exact Hl|]. split; [exact Hl|]. left. split; exact Hzero.
Qed.
End ConjugateGradientBinary64.

(** ** What a call prints *)

Section Silence.
Context {F : Type} `{Scalar F} `{Linalg F}.

Lemma silent_ret {X} (x : X) : silent (F := F) (ret x).
Proof. intros s. cbn. rewrite app_nil_r. reflexivity. Qed.

Lemma prints_ret {X} (x : X) (out : X -> list string) :
  out x = [] -> prints (F := F) (ret x) out.
Proof. intros Hout s. cbn. rewrite Hout, app_nil_r. reflexivity. Qed.

Lemma silent_raise {X} e : silent (F := F) (raise (X := X) e).
Proof. intros s. reflexivity. Qed.

Lemma silent_out_of_fuel {X} : silent (F := F) (out_of_fuel (X := X)).
Proof. intros s. exact I. Qed.

(** After a silent statement, the rest prints what the whole prints. *)
Lemma prints_bind {X Y} (m : M F X) (k : X -> M F Y) (out : Y -> list string) :
  silent m -> (forall x, prints (k x) out) -> prints (bind m k) out.
Proof.
  intros Hm Hk s. unfold bind. specialize (Hm s). unfold printed in *.
  destruct (m s) as [x s'|e s'|]; [|exact Hm|exact I].
  specialize (Hk x s'). unfold printed in Hk. rewrite app_nil_r in Hm.
  destruct (k x s') as [y s''|e s''|]; [|congruence|exact I].
  rewrite Hk, Hm. reflexivity.
Qed.

Lemma silent_bind {X Y} (m : M F X) (k : X -> M F Y) :
  silent m -> (forall x, silent (k x)) -> silent (bind m k).
Proof. apply prints_bind. Qed.

Lemma silent_linalg {X} (r : option X) : silent (F := F) (linalg r).
Proof. destruct r; [apply silent_ret | apply silent_raise]. Qed.

Lemma silent_load_v r : silent (F := F) (load_v r).
Proof. intros s. cbn. rewrite app_nil_r. reflexivity. Qed.
Lemma silent_load_m r : silent (F := F) (load_m r).
Proof. intros s. cbn. rewrite app_nil_r. reflexivity. Qed.
Lemma silent_store_v r v : silent (F := F) (store_v r v).
Proof. intros s. cbn. rewrite app_nil_r. reflexivity. Qed.
Lemma silent_store_m r A : silent (F := F) (store_m r A).
Proof. intros s. cbn. rewrite app_nil_r. reflexivity. Qed.
Lemma silent_alloc_v v : silent (F := F) (alloc_v v).
Proof. intros s. cbn. rewrite app_nil_r. reflexivity. Qed.
Lemma silent_alloc_m A : silent (F := F) (alloc_m A).
Proof. intros s. cbn. rewrite app_nil_r. reflexivity. Qed.
Lemma silent_copy_v r : silent (F := F) (copy_v r).
Proof. intros s. cbn. rewrite app_nil_r. reflexivity. Qed.
Lemma silent_copy_m r : silent (F := F) (copy_m r).
Proof. intros s. cbn. rewrite app_nil_r. reflexivity. Qed.
Lemma silent_get1 r i : silent (F := F) (get1 r i).
Proof. intros s. cbn. rewrite app_nil_r. reflexivity. Qed.
Lemma silent_get2 r i j : silent (F := F) (get2 r i j).
Proof. intros s. cbn. rewrite app_nil_r. reflexivity. Qed.
Lemma silent_set1 r i a : silent (F := F) (set1 r i a).
Proof. intros s. cbn. rewrite app_nil_r. reflexivity. Qed.
Lemma silent_set2 r i j a : silent (F := F) (set2 r i j a).
Proof. intros s. cbn. rewrite app_nil_r. reflexivity. Qed.
Lemma silent_len_m r : silent (F := F) (len_m r).
Proof. intros s. cbn. rewrite app_nil_r. reflexivity. Qed.

Lemma silent_for_each {X} l (body : nat -> X -> M F X) x :
  (forall i x, silent (body i x)) -> silent (for_each l body x).
Proof.
  intros Hbody. revert x. induction l as [|i l IH]; intros x.
  - apply silent_ret.
  - simpl. apply silent_bind; [apply Hbody|]. intros x'. apply IH.
Qed.

Lemma silent_for l (body : nat -> M F unit) :
  (forall i, silent (body i)) -> silent (for_ l body).
Proof. intros Hbody. apply silent_for_each. intros i _. apply Hbody. Qed.

Lemma silent_while_true {X} fuel (body : X -> M F (X * bool)) x :
  (forall x, silent (body x)) -> silent (while_true fuel body x).
Proof.
  intros Hbody. revert x. induction fuel as [|fuel IH]; intros x.
  - apply silent_out_of_fuel.
  - simpl. apply silent_bind; [apply Hbody|]. intros [x' stop].
    destruct stop; [apply silent_ret | apply IH].
Qed.
End Silence.

(** Walks through a program that does not print. *)
Ltac hush_step :=
  lazymatch goal with
  | |- silent (bind _ _) => apply silent_bind; [|intros ?]
  | |- prints (bind _ _) _ => apply prints_bind; [|intros ?]
  | |- silent (ret _) => apply silent_ret
  | |- silent (raise _) => apply silent_raise
  | |- silent (linalg _) => apply silent_linalg
  | |- silent (load_v _) => apply silent_load_v
  | |- silent (load_m _) => apply silent_load_m
  | |- silent (alloc_v _) => apply silent_alloc_v
  | |- silent (alloc_m _) => apply silent_alloc_m
  | |- silent (copy_v _) => apply silent_copy_v
  | |- silent (copy_m _) => apply silent_copy_m
  | |- silent (store_v _ _) => apply silent_store_v
  | |- silent (store_m _ _) => apply silent_store_m
  | |- silent (get1 _ _) => apply silent_get1
  | |- silent (get2 _ _ _) => apply silent_get2
  | |- silent (len_m _) => apply silent_len_m
  | |- silent (set1 _ _ _) => apply silent_set1
  | |- silent (set2 _ _ _ _) => apply silent_set2
  | |- silent (for_each _ _ _) => apply silent_for_each; intros ? ?
  | |- silent (for_ _ _) => apply silent_for; intros ?
  | |- silent (while_true _ _ _) => apply silent_while_true; intros ?
  | |- silent (let _ := _ in _) => cbv zeta
  | |- silent (if ?c then _ else _) => destruct c
  | |- silent (match ?p with pair _ _ => _ end) => destruct p
  end.
Ltac hush := repeat hush_step.

Section Printing.
Context {F : Type} `{Scalar F} `{Linalg F}.

Lemma silent_pivot_gauss A b : silent (F := F) (pivot_gauss A b).
Proof. unfold pivot_gauss, pivot_swap, pivot_eliminate, back_substitute. hush. Qed.

Lemma silent_lu_decomposition_doolittle A b :
  silent (F := F) (lu_decomposition_doolittle A b).
Proof. unfold lu_decomposition_doolittle, lu_factor, lu_solve. hush. Qed.

Lemma silent_norm_inf eigenvalues : silent (norm_inf eigenvalues).
Proof. unfold norm_inf. destruct (eig_abs <$> _); hush. Qed.

Lemma prints_check_spectral_radius B :
  prints (check_spectral_radius B) (with_verdict not_convergent).
Proof.
  unfold check_spectral_radius. hush; [apply silent_norm_inf|].
  destruct (_ || _).
  - intros s. reflexivity.
  - apply prints_ret. reflexivity.
Qed.

Lemma prints_check_jacobi_convergency A :
  prints (check_jacobi_convergency A) (with_verdict not_convergent).
Proof. unfold check_jacobi_convergency. hush. apply prints_check_spectral_radius. Qed.

Lemma prints_check_gauss_seidel_convergency A :
  prints (check_gauss_seidel_convergency A) (with_verdict not_convergent).
Proof. unfold check_gauss_seidel_convergency. hush. apply prints_check_spectral_radius. Qed.

Lemma prints_check_successive_over_relaxation_convergency A w :
  prints (check_successive_over_relaxation_convergency A w) (with_verdict not_convergent).
Proof.
  unfold check_successive_over_relaxation_convergency. hush.
  apply prints_check_spectral_radius.
Qed.

Lemma prints_check_symmetric_and_positive_definite_matrix A :
  prints (check_symmetric_and_positive_definite_matrix A) (with_verdict diagnostic).
Proof.
  intros s. rewrite check_symmetric_and_positive_definite_matrix_runs. cbv zeta.
  destruct (negb _); [reflexivity|].
  destruct (linalg_eigvals _) as [values|]; [|reflexivity].
  destruct (existsb eig_neg values); cbn; [reflexivity|].
  rewrite app_nil_r. reflexivity.
Qed.

(** After a check that reports its verdict, a solver prints the line
    exactly when it returns the sentinel. *)
Lemma prints_checked (check : M F bool) (rest : M F answer) (line : string) :
  prints check (with_verdict line) ->
  silent rest ->
  (forall s s', rest s <> Done Sentinel s') ->
  prints (ok <- check ;; if negb ok then ret Sentinel else rest) (with_answer line).
Proof.
  intros Hcheck Hrest Hsol s. unfold bind. specialize (Hcheck s). unfold printed in *.
  destruct (check s) as [ok s1|e s1|]; [|exact Hcheck|exact I].
  destruct ok; cbn [negb with_verdict] in *.
  - specialize (Hrest s1). unfold printed in Hrest. rewrite app_nil_r in Hcheck.
    destruct (rest s1) as [ans s2|e s2|] eqn:Hr; [|congruence|exact I].
    destruct ans as [|x cnt]; [destruct (Hsol s1 s2 Hr)|].
    cbn [with_answer]. rewrite Hrest, Hcheck. reflexivity.
  - cbn. exact Hcheck.
Qed.

Lemma silent_jacobi_sweep A b x n : silent (F := F) (jacobi_sweep A b x n).
Proof. unfold jacobi_sweep. hush. Qed.

Lemma silent_gauss_seidel_sweep A b x n : silent (F := F) (gauss_seidel_sweep A b x n).
Proof. unfold gauss_seidel_sweep. hush. Qed.

Lemma silent_sor_sweep A b w x n : silent (F := F) (sor_sweep A b w x n).
Proof. unfold sor_sweep. hush. Qed.

Lemma silent_cg_sweep A xrp : silent (F := F) (cg_sweep A xrp).
Proof. unfold cg_sweep. hush. Qed.

Lemma prints_stationary check sweep line fuel A b x0 :
  (forall A, prints (check A) (with_verdict line)) ->
  (forall A b x n, silent (sweep A b x n)) ->
  prints (stationary check sweep fuel A b x0) (with_answer line).
Proof.
  intros Hcheck Hsweep. unfold stationary.
  apply prints_bind; [apply silent_copy_m | intros A'].
  apply prints_bind; [apply silent_copy_v | intros b'].
  apply prints_checked; [apply Hcheck| |].
  - hush. apply Hsweep.
  - intros s s' Hrun. peel Hrun. discriminate.
Qed.

Lemma prints_conjugate_gradient fuel A b x0 :
  prints (conjugate_gradient fuel A b x0) (with_answer diagnostic).
Proof.
  unfold conjugate_gradient.
  apply prints_bind; [apply silent_copy_m | intros A'].
  apply prints_bind; [apply silent_copy_v | intros b'].
  apply prints_checked; [apply prints_check_symmetric_and_positive_definite_matrix| |].
  - hush. apply silent_cg_sweep.
  - intros s s' Hrun. peel Hrun.
    match type of Hrun with
    | (let '(_, _) := ?st in _) _ = _ => destruct st as [[[xn rn] pn] cnt]
    end.
    discriminate.
Qed.

(** X14.  The five check functions only read: each leaves every array that
    existed when it was called as it was, and it prints its line, once,
    exactly when it returns [False]; when it returns [True] or raises it
    has printed nothing. *)
Theorem checks_report_and_keep (A : mref) (w : F) (s : state F) :
  let reported := fun (check : M F bool) (line : string) =>
    leaves_unchanged s (check s) /\ printed s (check s) (with_verdict line) in
  reported (check_spectral_radius A) not_convergent /\
  reported (check_jacobi_convergency A) not_convergent /\
  reported (check_gauss_seidel_convergency A) not_convergent /\
  reported (check_successive_over_relaxation_convergency A w) not_convergent /\
  reported (check_symmetric_and_positive_definite_matrix A) diagnostic.
Proof.
  cbv zeta. repeat split.
  - apply keeps_leaves_unchanged, keeps_check_spectral_radius.
  - apply prints_check_spectral_radius.
  - apply keeps_leaves_unchanged, keeps_check_jacobi_convergency.
  - apply prints_check_jacobi_convergency.
  - apply keeps_leaves_unchanged, keeps_check_gauss_seidel_convergency.
  - apply prints_check_gauss_seidel_convergency.
  - apply keeps_leaves_unchanged, keeps_check_successive_over_relaxation_convergency.
  - apply prints_check_successive_over_relaxation_convergency.
  - apply keeps_leaves_unchanged, keeps_check_symmetric_and_positive_definite_matrix.
  - apply prints_check_symmetric_and_positive_definite_matrix.
Qed.

(** X15.  What the solvers print: the direct solvers nothing; an iterative
    solver the line of its check, once, when it returns the sentinel, and
    nothing when it returns a solution or raises. *)
Theorem solvers_print_with_the_sentinel_only (fuel : nat) (A : mref) (b : vref) (w : F)
    (x0 : vref) (s : state F) :
  printed s (pivot_gauss A b s) (fun _ => []) /\
  printed s (lu_decomposition_doolittle A b s) (fun _ => []) /\
  printed s (jacobi fuel A b x0 s) (with_answer not_convergent) /\
  printed s (gauss_seidel fuel A b x0 s) (with_answer not_convergent) /\
  printed s (successive_over_relaxation fuel A b w x0 s) (with_answer not_convergent) /\
  printed s (conjugate_gradient fuel A b x0 s) (with_answer diagnostic).
Proof.
  split; [apply silent_pivot_gauss|]. split; [apply silent_lu_decomposition_doolittle|].
  split; [|split; [|split]].
  - rewrite jacobi_stationary. apply prints_stationary.
    + apply prints_check_jacobi_convergency.
    + apply silent_jacobi_sweep.
  - rewrite gauss_seidel_stationary. apply prints_stationary.
    + apply prints_check_gauss_seidel_convergency.
    + apply silent_gauss_seidel_sweep.
  - rewrite successive_over_relaxation_stationary.
    apply (prints_stationary (fun A => check_successive_over_relaxation_convergency A w)
             (fun A b => sor_sweep A b w)).
    + intros A'. apply prints_check_successive_over_relaxation_convergency.
    + intros A' b' x n. apply silent_sor_sweep.
  - apply prints_conjugate_gradient.
Qed.
End Printing.

(** ** The arrays a call returns *)

Section NewArrays.
Context {F : Type} `{Scalar F} `{Linalg F}.

Lemma keeps_returned (s : state F) {X} (m : M F X) (P : X -> Prop) x s' :
  keeps s m P -> m s = Done x s' -> P x.
Proof.
  intros Hm Hrun. specialize (Hm s (unchanged_refl s)). rewrite Hrun in Hm. apply Hm.
Qed.

Lemma keeps_while_true_carrying (s0 : state F) {X} fuel (body : X -> M F (X * bool))
    (Inv : X -> Prop) x :
  (forall x, Inv x -> keeps s0 (body x) (fun r => Inv r.1)) -> Inv x ->
  keeps s0 (while_true fuel body x) Inv.
Proof.
  intros Hbody. revert x. induction fuel as [|fuel IH]; intros x HI.
  - apply keeps_out_of_fuel.
  - simpl. eapply keeps_bind; [apply Hbody, HI|]. intros [x' stop] HI'.
    destruct stop; [apply keeps_ret; exact HI' | apply IH; exact HI'].
Qed.

Lemma new_pivot_gauss (s0 : state F) A b : keeps s0 (pivot_gauss A b) (private s0).
Proof. unfold pivot_gauss, pivot_swap, pivot_eliminate, back_substitute. frame. Qed.

Lemma new_lu_solve (s0 : state F) l u b n : keeps s0 (lu_solve l u b n) (private s0).
Proof. unfold lu_solve. frame. Qed.

Lemma new_lu_decomposition_doolittle (s0 : state F) A b :
  keeps s0 (lu_decomposition_doolittle A b) (private s0).
Proof.
  unfold lu_decomposition_doolittle. frame.
  - apply keeps_lu_factor.
  - apply new_lu_solve.
Qed.

Lemma new_stationary (s0 : state F) check sweep fuel A b x0 :
  (forall A, keeps s0 (check A) (fun _ => True)) ->
  (forall A b x n, private s0 x -> keeps s0 (sweep A b x n) (fun _ => True)) ->
  keeps s0 (stationary check sweep fuel A b x0) (private_answer s0).
Proof.
  intros Hcheck Hsweep. unfold stationary.
  eapply keeps_bind; [apply keeps_copy_m | intros A' HA'].
  eapply keeps_bind; [apply keeps_copy_v | intros b' Hb'].
  eapply keeps_bind; [apply Hcheck | intros ok _].
  destruct ok; cbn [negb]; [|apply keeps_ret; exact I].
  eapply keeps_bind; [apply keeps_len_m | intros n _].
  eapply keeps_bind; [apply keeps_copy_v | intros x Hx]. cbv zeta.
  eapply keeps_bind.
  - apply keeps_while_true. intros cnt. frame. apply Hsweep, Hx.
  - intros cnt _. apply keeps_ret. exact Hx.
Qed.

Lemma new_cg_sweep (s0 : state F) A xrp :
  keeps s0 (cg_sweep A xrp) (fun out => private s0 out.1.1.1).
Proof.
  unfold cg_sweep. destruct xrp as [[x r] p]. cbv zeta.
  eapply keeps_bind; [apply keeps_load_v | intros rv _].
  eapply keeps_bind; [apply keeps_load_v | intros pv _].
  eapply keeps_bind; [apply keeps_load_m | intros Am _].
  eapply keeps_bind; [apply keeps_load_v | intros xv _].
  eapply keeps_bind; [apply keeps_alloc_v | intros xn Hxn].
  eapply keeps_bind; [apply keeps_alloc_v | intros rn _].
  eapply keeps_bind; [apply keeps_load_v | intros rnv _].
  eapply keeps_bind; [apply keeps_load_v | intros old_rv _].
  eapply keeps_bind; [apply keeps_alloc_v | intros pn _].
  apply keeps_ret. exact Hxn.
Qed.

Lemma new_conjugate_gradient (s0 : state F) fuel A b x0 :
  keeps s0 (conjugate_gradient fuel A b x0) (private_answer s0).
Proof.
  unfold conjugate_gradient.
  eapply keeps_bind; [apply keeps_copy_m | intros A' HA'].
  eapply keeps_bind; [apply keeps_copy_v | intros b' Hb'].
  eapply keeps_bind;
    [apply keeps_check_symmetric_and_positive_definite_matrix | intros ok _].
  destruct ok; cbn [negb]; [|apply keeps_ret; exact I].
  eapply keeps_bind; [apply keeps_len_m | intros n _].
  eapply keeps_bind; [apply keeps_copy_v | intros x Hx].
  eapply keeps_bind; [apply keeps_load_v | intros bv _].
  eapply keeps_bind; [apply keeps_load_m | intros Am _].
  eapply keeps_bind; [apply keeps_load_v | intros xv _].
  eapply keeps_bind; [apply keeps_alloc_v | intros r Hr]. cbv zeta.
  eapply keeps_bind.
  - apply (keeps_while_true_carrying s0 fuel _
             (fun st : vref * vref * vref * nat => private s0 st.1.1.1)); [|exact Hx].
    intros [[[x1 r1] p1] cnt] _.
    eapply keeps_bind; [apply new_cg_sweep | intros [[[xn rn] pn] y] Hxn].
    cbn [fst] in Hxn. cbv zeta.
    eapply keeps_bind; [apply keeps_load_v | intros xnv _].
    eapply keeps_bind; [apply keeps_load_v | intros yv _].
    apply keeps_ret. exact Hxn.
  - intros [[[xn rn] pn] cnt] Hxn. apply keeps_ret. exact Hxn.
Qed.

(** X16.  The array a solver returns is one the call allocated, never an
    array of the caller: [pivot_gauss] returns its copy of [b], the
    iterative solvers their copy of [x0] or an array computed from it. *)
Theorem results_are_new_arrays (fuel : nat) (A : mref) (b : vref) (w : F) (x0 : vref)
    (s : state F) :
  (forall x s', pivot_gauss A b s = Done x s' -> private s x) /\
  (forall x s', lu_decomposition_doolittle A b s = Done x s' -> private s x) /\
  (forall ans s', jacobi fuel A b x0 s = Done ans s' -> private_answer s ans) /\
  (forall ans s', gauss_seidel fuel A b x0 s = Done ans s' -> private_answer s ans) /\
  (forall ans s', successive_over_relaxation fuel A b w x0 s = Done ans s' ->
                  private_answer s ans) /\
  (forall ans s', conjugate_gradient fuel A b x0 s = Done ans s' -> private_answer s ans).
Proof.
  split; [|split; [|split; [|split; [|split]]]]; intros x s' Hrun.
  - apply (keeps_returned s _ _ x s' (new_pivot_gauss s A b) Hrun).
  - apply (keeps_returned s _ _ x s' (new_lu_decomposition_doolittle s A b) Hrun).
  - rewrite jacobi_stationary in Hrun.
    refine (keeps_returned s _ _ x s' (new_stationary s _ _ fuel A b x0 _ _) Hrun).
    + intros A'. apply keeps_check_jacobi_convergency.
    + intros A' b' x' n Hx'. apply keeps_jacobi_sweep, Hx'.
  - rewrite gauss_seidel_stationary in Hrun.
    refine (keeps_returned s _ _ x s' (new_stationary s _ _ fuel A b x0 _ _) Hrun).
    + intros A'. apply keeps_check_gauss_seidel_convergency.
    + intros A' b' x' n Hx'. apply keeps_gauss_seidel_sweep, Hx'.
  - rewrite successive_over_relaxation_stationary in Hrun.
    refine (keeps_returned s _ _ x s' (new_stationary s _ _ fuel A b x0 _ _) Hrun).
    + intros A'. apply keeps_check_successive_over_relaxation_convergency.
    + intros A' b' x' n Hx'. apply keeps_sor_sweep, Hx'.
  - apply (keeps_returned s _ _ x s' (new_conjugate_gradient s fuel A b x0) Hrun).
Qed.
End NewArrays.

(** ** The samples, run *)

(** The statement a theorem makes at given arguments, once its hypotheses
    are met. *)
Notation "'conclusion_of' p" :=
  (ltac:(let T := type of p in
         let T := eval cbv beta in T in
         let rec strip T :=
           lazymatch T with
           | ?P -> ?Q => strip Q
           | _ => exact T
           end in
         strip T)) (at level 10, p at level 9, only parsing).

Section Samples.
Local Existing Instance rational.
Local Existing Instance binary64.
Local Existing Instance rational_exact.
Local Existing Instance Sample.library.
Import Sample.

Example pivot_gauss_unordered :
  exists s', pivot_gauss 0 1 unordered = Done 4 s' /\
             fractions (vecs s' !!! 4) = [1; 1]%Q.
Proof. eexists. split; vm_compute; reflexivity. Qed.

Example lu_decomposition_doolittle_unordered :
  exists s', lu_decomposition_doolittle 0 1 unordered = Done 8 s' /\
             fractions <$> mats s' !!! 5 = [[1; 0]; [2; 1]]%Q /\
             fractions <$> mats s' !!! 6 = [[2; 1]; [0; 3]]%Q /\
             fractions (vecs s' !!! 8) = [1; 1]%Q.
Proof.
  eexists. split; [vm_compute; reflexivity|].
  split; [vm_compute; reflexivity|]. split; vm_compute; reflexivity.
Qed.

Example jacobi_sweep_dominant :
  exists s', jacobi_sweep 0 1 2 2 dominant = Done 3 s' /\
             fractions (vecs s' !!! 2) = [3 # 2; 3 # 2]%Q.
Proof. eexists. split; vm_compute; reflexivity. Qed.

Example gauss_seidel_sweep_dominant :
  exists s', gauss_seidel_sweep 0 1 2 2 dominant = Done 3 s' /\
             fractions (vecs s' !!! 2) = [3 # 2; 3 # 4]%Q.
Proof. eexists. split; vm_compute; reflexivity. Qed.

(** The verdict at the boundary, in binary64: a radius of [0.5] is accepted,
    a radius of [1.0] is rejected, and so is the radius [1 - 2^-20], which is
    below 1 by less than [eps]. *)
Example check_spectral_radius_half :
  exists s', check_spectral_radius (H0 := library64) 0
               (caller_store [[B64.of_Z 1 / B64.of_Z 2]%F] [] []) = Done true s'.
Proof. eexists. vm_compute. reflexivity. Qed.

Example check_spectral_radius_one :
  exists s', check_spectral_radius (H0 := library64) 0
               (caller_store [[B64.one]] [] []) = Done false s' /\
             stdout s' = ["Spectral radius >= 1, not convergency"].
Proof. eexists. split; vm_compute; reflexivity. Qed.

Example check_spectral_radius_near_one :
  exists s', check_spectral_radius (H0 := library64) 0
               (caller_store [[B64.one - B64.one / B64.of_Z 1048576]%F] [] [])
             = Done false s'.
Proof. eexists. vm_compute. reflexivity. Qed.
(** The swap of [pivot_gauss] compares values, not magnitudes: in
    [negative], [A[1, 0] = -2] does not displace the pivot [A[0, 0] = 1]. *)
Example pivot_swap_ignores_magnitude : pivot_swap 0 1 0 1 negative = Done tt negative.
Proof. vm_compute. reflexivity. Qed.

(** In binary64 a zero pivot makes both direct solvers return [[inf]]:
    the call ends with [return], not with an exception. *)
Lemma zero_pivot_is_not_an_error :
  (exists s', pivot_gauss 0 1 zero_pivot = Done 4 s' /\
              vecs s' !!! 4 = [S754_infinity false]) /\
  (exists s', lu_decomposition_doolittle 0 1 zero_pivot = Done 8 s' /\
              vecs s' !!! 8 = [S754_infinity false]).
Proof. split; eexists; split; vm_compute; reflexivity. Qed.

(** The samples are systems of the size they show. *)
Lemma caller_store_system {F} (A : matrix F) (b x0 : vec F) (n : nat) :
  length A = n -> forallb (fun row => Nat.eqb (length row) n) A = true ->
  length b = n -> linear_system (caller_store A b x0) 0 1 n.
Proof.
  intros HA Hrows Hb. split; [split; [exact HA|] | exact Hb].
  intros i Hi. rewrite forallb_forall in Hrows.
  apply Nat.eqb_eq, Hrows, list_elem_of_In, list_elem_of_lookup_total_2. lia.
Qed.

Lemma check_spectral_radius_verdict_witness :
  conclusion_of (check_spectral_radius_verdict 0 contraction [half]).
Proof. apply check_spectral_radius_verdict; [reflexivity | discriminate]. Defined.

Lemma zero_pivot_returns_inf_or_nan_witness :
  conclusion_of (zero_pivot_returns_inf_or_nan 0 1 1 zero_pivot).
Proof.
  apply zero_pivot_returns_inf_or_nan, caller_store_system; reflexivity.
Defined.

Lemma sentinel_when_not_convergent_witness :
  exists s', unchanged divergent s' /\
    forall fuel x0, jacobi fuel 0 1 x0 divergent = Done Sentinel s'.
Proof.
  apply (proj1 (sentinel_when_not_convergent 0 1 (q 1) 2 divergent
                  ltac:(vm_compute; lia)
                  ltac:(apply caller_store_system; reflexivity))).
  vm_compute. reflexivity.
Defined.

Lemma square_2 (a b c d : Qc) : square 2 [[a; b]; [c; d]].
Proof. split; [reflexivity|]. intros [|[|i]] Hi; [reflexivity | reflexivity | lia]. Qed.

Lemma conjugate_gradient_preflight_witness :
  conjugate_gradient 0 0 1 2 dominant = OutOfFuel /\
  forall ans s', conjugate_gradient 5 0 1 2 dominant = Done ans s' ->
                 exists x cnt, ans = Solution x cnt.
Proof.
  destruct (conjugate_gradient_preflight 5 0 1 2 dominant 2
              ltac:(apply caller_store_system; reflexivity) eq_refl)
    as [_ Hsymmetric].
  apply (Hsymmetric [q 3; q 1]).
  - intros [|[|i]] [|[|j]] Hi Hj; try lia; reflexivity.
  - reflexivity.
  - intros v Hv. apply list_elem_of_In in Hv.
    destruct Hv as [<-|[<-|[]]]; reflexivity.
Defined.

Lemma jacobi_sweep_simultaneous_witness :
  conclusion_of (jacobi_sweep_simultaneous 0 1 2 2 dominant).
Proof.
  apply jacobi_sweep_simultaneous;
    first [apply caller_store_system; reflexivity | vm_compute; lia].
Defined.

Lemma gauss_seidel_sweep_sequential_witness :
  conclusion_of (gauss_seidel_sweep_sequential 0 1 2 2 dominant).
Proof.
  apply gauss_seidel_sweep_sequential;
    first [apply caller_store_system; reflexivity | vm_compute; lia].
Defined.

Lemma pivot_swap_raw_comparison_witness :
  conclusion_of (pivot_swap_raw_comparison 0 1 2 0 1 unordered).
Proof.
  apply (pivot_swap_raw_comparison 0 1 2);
    first [apply caller_store_system; reflexivity | lia].
Defined.

Lemma lu_factor_doolittle_witness :
  conclusion_of (lu_factor_doolittle 0 2 unordered).
Proof. apply lu_factor_doolittle; [vm_compute; lia | apply square_2]. Defined.
(** [jacobi] on [solved] returns after one pass with [cnt = 1];
    [conjugate_gradient] on [definite], in binary64, returns after three
    passes with [cnt = 4]. *)
Lemma iteration_counts_witness :
  (exists x s', after_passes (fun f => jacobi f 0 1 2) solved x 1 s' 1) /\
  (exists x s',
     after_passes (fun f => conjugate_gradient (H0 := library64) f 0 1 2) definite
       x 4 s' 3).
Proof.
  split.
  - destruct (jacobi 5 0 1 2 solved) as [[|x cnt] s'| |] eqn:Hrun;
      try (vm_compute in Hrun; discriminate).
    assert (cnt = 1) as -> by (vm_compute in Hrun; congruence).
    exists x, s'.
    exact (proj2 (proj1 (iteration_counts 5 0 1 (q 1) 2 1 solved x 1 s'
                           ltac:(apply caller_store_system; reflexivity) eq_refl)
                    Hrun)).
  - destruct (conjugate_gradient (H0 := library64) 10 0 1 2 definite)
      as [[|x cnt] s'| |] eqn:Hrun; try (vm_compute in Hrun; discriminate).
    assert (cnt = 4) as -> by (vm_compute in Hrun; congruence).
    exists x, s'.
    exact (proj2 (proj2 (proj2 (proj2
             (iteration_counts (H0 := library64) 10 0 1 B64.one 2 2 definite x 4 s'
                ltac:(apply caller_store_system; reflexivity) eq_refl)))
             Hrun)).
Defined.
End Samples.

(** ** More samples, run *)

Section MoreSamples.
Local Existing Instance rational.
Local Existing Instance rational_exact.
Local Existing Instance rational_of_int.
Local Existing Instance Sample.library.
Import Sample Cases.

Lemma nonzero_diagonal_2 (a b c d : Qc) :
  Qeq_bool a 0 = false -> Qeq_bool d 0 = false ->
  forall i, i < 2 -> entry [[a; b]; [c; d]] i i <> 0%Qc.
Proof.
  intros Ha Hd [|[|i]] Hi; [| |lia]; cbn; intros E; rewrite E in *; discriminate.
Qed.

(** [get_equation_set_2(2)] over the rationals: [A = [[1, 1/2], [1/2, 1/3]]]
    and [b = [3/2, 5/6]]. *)
Example get_equation_set_2_two :
  exists s', get_equation_set_2 2 dominant = Done (3, 4) s' /\
             fractions <$> (mats s' !!! 3) = [[1; 1 # 2]; [1 # 2; 1 # 3]]%Q /\
             fractions (vecs s' !!! 4) = [3 # 2; 5 # 6]%Q.
Proof. eexists. split; [vm_compute; reflexivity|]. split; vm_compute; reflexivity. Qed.

Lemma get_equation_set_2_solution_witness :
  conclusion_of (get_equation_set_2_solution 2 dominant).
Proof. apply get_equation_set_2_solution. Defined.

Lemma jacobi_sweep_fixed_point_witness :
  conclusion_of (jacobi_sweep_fixed_point 0 1 2 2 at_solution).
Proof.
  apply jacobi_sweep_fixed_point;
    first [apply caller_store_system; reflexivity
          |apply nonzero_diagonal_2; reflexivity
          |vm_compute; lia].
Defined.

Lemma gauss_seidel_sweep_fixed_point_witness :
  conclusion_of (gauss_seidel_sweep_fixed_point 0 1 2 2 at_solution).
Proof.
  apply gauss_seidel_sweep_fixed_point;
    first [apply caller_store_system; reflexivity
          |apply nonzero_diagonal_2; reflexivity
          |vm_compute; lia].
Defined.

Lemma sor_sweep_fixed_point_witness :
  conclusion_of (sor_sweep_fixed_point 0 1 (q 1) 2 2 at_solution).
Proof.
  apply sor_sweep_fixed_point;
    first [apply caller_store_system; reflexivity
          |apply nonzero_diagonal_2; reflexivity
          |discriminate
          |vm_compute; lia].
Defined.

Lemma lu_decomposition_doolittle_solves_witness :
  conclusion_of (lu_decomposition_doolittle_solves 0 1 2 unordered).
Proof.
  apply lu_decomposition_doolittle_solves, caller_store_system; reflexivity.
Defined.

Lemma pivot_gauss_solves_witness :
  conclusion_of (pivot_gauss_solves 0 1 2 unordered).
Proof. apply pivot_gauss_solves, caller_store_system; reflexivity. Defined.

(** [jacobi] on [solved] returns after one pass; the pass took [y = [1]]
    to [x = [1]]. *)
Lemma stationary_solvers_stop_within_eps_witness :
  exists x s' (y : vec Qc),
    length y = 1 /\ length (vecs s' !!! x) = 1 /\
    jacobi_step 1 (mats solved !!! 0) (vecs solved !!! 1) y (vecs s' !!! x) /\
    fleb (linalg_norm (vsub (vecs s' !!! x) y)) eps = true.
Proof.
  destruct (jacobi 5 0 1 2 solved) as [[|x cnt] s'| |] eqn:Hrun;
    try (vm_compute in Hrun; discriminate).
  exists x, s'.
  refine (proj1 (stationary_solvers_stop_within_eps 5 0 1 (q 1) 2 1 solved x cnt s'
                   _ _ _) Hrun).
  - apply caller_store_system; reflexivity.
  - vm_compute; lia.
  - reflexivity.
Defined.

Lemma analyser_errors_propagate_witness :
  exists s', unchanged zero_diagonal s' /\
    forall fuel x0, jacobi fuel 0 1 x0 zero_diagonal = Raised LinAlgError s'.
Proof.
  apply (proj1 (analyser_errors_propagate 0 1 (q 1) LinAlgError zero_diagonal
                  ltac:(vm_compute; lia))).
  vm_compute. reflexivity.
Defined.

Lemma vec_eq_2 (a b c d : Qc) : Qeq_bool a c = true -> Qeq_bool b d = true -> [a; b] = [c; d].
Proof.
  intros Hac Hbd. apply Qeq_bool_iff, Qc_is_canon in Hac. apply Qeq_bool_iff, Qc_is_canon in Hbd.
  congruence.
Qed.

Lemma solution_is_returned_after_one_pass_witness :
  returns (jacobi 1 0 1 2) at_solution (fun ans s' =>
    exists x, ans = Solution x 1 /\ vecs s' !!! x = vecs at_solution !!! 2).
Proof.
  apply (proj1 (solution_is_returned_after_one_pass 0 0 1 (q 1) 2 2 at_solution
                  ltac:(apply caller_store_system; reflexivity)
                  ltac:(vm_compute; lia) ltac:(vm_compute; lia) eq_refl
                  ltac:(apply nonzero_diagonal_2; reflexivity)
                  ltac:(apply vec_eq_2; reflexivity)
                  eq_refl)).
  vm_compute. reflexivity.
Defined.
Lemma symmetric_2 (a b d : Qc) : symmetric 2 [[a; b]; [b; d]].
Proof.
  intros [|[|i]] [|[|j]] Hi Hj; try lia; apply Qeq_bool_iff; reflexivity.
Qed.

Lemma no_negative_2 (a b : Qc) :
  Qle_bool 0 a = true -> Qle_bool 0 b = true ->
  forall v : Qc, v ∈ [a; b] -> negb (Qle_bool 0 v) = false.
Proof.
  intros Ha Hb v Hv. apply list_elem_of_In in Hv.
  destruct Hv as [<-|[<-|[]]]; [rewrite Ha | rewrite Hb]; reflexivity.
Qed.


End MoreSamples.

Section MoreSamples64.
Local Existing Instance binary64.
Local Existing Instance Sample.library64.
Import Sample Cases.

(** [conjugate_gradient] on [homogeneous]: the first pass divides [0.0] by
    [0.0], and a thousand passes later the call is still running. *)
Lemma conjugate_gradient_never_returns_from_zero_residual_witness :
  conjugate_gradient 1000 0 1 2 homogeneous = OutOfFuel.
Proof.
  eapply (conjugate_gradient_never_returns_from_zero_residual 0 1 2 2 homogeneous).
  - apply caller_store_system; reflexivity.
  - vm_compute; lia.
  - reflexivity.
  - intros [|[|i]] [|[|j]] Hi Hj; try lia; reflexivity.
  - vm_compute. reflexivity.
  - intros v Hv. apply list_elem_of_In in Hv.
    destruct Hv as [<-|[<-|[]]]; reflexivity.
  - reflexivity.
  - reflexivity.
Defined.
End MoreSamples64.
